(** * NPHIES-AI healthcare platform: rate limiter, token service, auth guard,
      session stream and connection registry of [src/main.py].

    The development is a shallow embedding of the Python code.  Stateful
    code is written in state-passing style, exceptions are values of the
    type [exn] carried by [result], and generators are modelled by the list
    of events they yield together with the way they stop. *)

From Stdlib Require Import ZArith QArith Qminmax Qround List Ascii String Sorting.Sorted Lia.
From stdpp Require Import base option list gmap strings.

Local Open Scope Z_scope.

(** ** Exceptions and results *)

(** The exceptions the modelled code raises or catches. *)
Inductive exn : Type :=
| HTTPException (status_code : Z) (detail : string)
| JWTError
| WebSocketDisconnect
| ValueError
| OtherError (what : string).

(** A call either returns a value or raises. *)
Inductive result (A : Type) : Type :=
| Ok (a : A)
| Raise (e : exn).

Arguments Ok {A} a.
Arguments Raise {A} e.

Definition is_ok {A} (r : result A) : bool :=
  match r with Ok _ => true | Raise _ => false end.

#[global] Instance exn_eq_dec : EqDecision exn.
Proof. solve_decision. Defined.

(** ** The sliding-window rate limiter ([SimpleRateLimiter]) *)

Module RateLimiter.

(** Clock readings of [time.monotonic()] are taken in integer ticks; the
    window is measured in the same unit. *)
Record SimpleRateLimiter : Type := mkLimiter {
  limit : Z;
  window_seconds : Z;
  calls : gmap string (list Z)
}.

Definition with_calls (rl : SimpleRateLimiter) (c : gmap string (list Z))
  : SimpleRateLimiter :=
  {| limit := limit rl; window_seconds := window_seconds rl; calls := c |}.

(** [while bucket and now - bucket[0] > self.window_seconds: bucket.popleft()] *)
Fixpoint popleft_expired (window now : Z) (bucket : list Z) : list Z :=
  match bucket with
  | [] => []
  | t :: rest =>
      if window <? now - t then popleft_expired window now rest else bucket
  end.

Definition rate_limit_exceeded : exn := HTTPException 429 "Rate limit exceeded".

(** [SimpleRateLimiter.hit], with the clock reading [now] made explicit.
    [setdefault] creates the bucket of an unseen key, and the pruning is
    done on the stored deque, so the pruned bucket is stored when the call
    is rejected too. *)
Definition hit (rl : SimpleRateLimiter) (key : string) (now : Z)
  : result unit * SimpleRateLimiter :=
  let bucket := default [] (calls rl !! key) in
  let bucket := popleft_expired (window_seconds rl) now bucket in
  if limit rl <=? Z.of_nat (length bucket)
  then (Raise rate_limit_exceeded, with_calls rl (<[key := bucket]> (calls rl)))
  else (Ok tt, with_calls rl (<[key := bucket ++ [now]]> (calls rl))).

(** The bucket stored for [key]; a key never seen has no timestamps. *)
Definition bucket_of (rl : SimpleRateLimiter) (key : string) : list Z :=
  default [] (calls rl !! key).

(** Successive calls for one key at the given clock readings. *)
Fixpoint hits (rl : SimpleRateLimiter) (key : string) (nows : list Z)
  : list (result unit) * SimpleRateLimiter :=
  match nows with
  | [] => ([], rl)
  | now :: rest =>
      let '(r, rl1) := hit rl key now in
      let '(rs, rl2) := hits rl1 key rest in
      (r :: rs, rl2)
  end.

(** The admission rule in the words of the specification: drop every
    timestamp older than [now - window], reject when [limit] or more
    remain, otherwise append [now]. *)
Definition admit_spec (lim window now : Z) (bucket : list Z)
  : result unit * list Z :=
  let kept := filter (fun t => now - window <= t) bucket in
  if lim <=? Z.of_nat (length kept)
  then (Raise rate_limit_exceeded, kept)
  else (Ok tt, kept ++ [now]).

(** Buckets are filled by a monotonic clock: oldest first. *)
Definition ascending (bucket : list Z) : Prop := StronglySorted Z.le bucket.

End RateLimiter.

(** ** The token service ([create_access_token], [decode_token]) *)

Module Token.

(** A number of the JSON text that Python reads as a [float]: a fraction
    stands for a finite one; [NaN] and [Infinity] are read as well. *)
Inductive float_value : Type :=
| finite (q : Q)
| nan
| infinite.

(** JSON values carried by token claims.  [VOther] is an object, or a list
    holding something that is not a string; what it holds plays no part in
    the code. *)
Inductive claim_value : Type :=
| VStr (s : string)
| VInt (n : Z)
| VList (l : list string)
| VNull
| VBool (b : bool)
| VFloat (x : float_value)
| VOther.

#[global] Instance Q_eq_dec : EqDecision Q.
Proof. solve_decision. Defined.

#[global] Instance float_value_eq_dec : EqDecision float_value.
Proof. solve_decision. Defined.

#[global] Instance claim_value_eq_dec : EqDecision claim_value.
Proof. solve_decision. Defined.

(** How a check of the library ends: it passes, it refuses the claims with
    a [JWTError] (a [JWTClaimsError] is one), or it lets out an exception
    that is not a [JWTError]. *)
Inductive verdict : Type :=
| passes
| refuses
| crashes (what : string).

Definition raise_of (v : verdict) : result unit :=
  match v with
  | passes => Ok tt
  | refuses => Raise JWTError
  | crashes what => Raise (OtherError what)
  end.

(** The settings read from the environment at import time. *)
Record config : Type := mkConfig {
  SECRET_KEY : string;
  ACCESS_TOKEN_EXPIRE_MINUTES : Z;
  SERVICE_ACCOUNT_USERNAME : string;
  SERVICE_ACCOUNT_PASSWORD_HASH : option string;
  SERVICE_ACCOUNT_PASSWORD : string
}.

(** What the code takes from the [jose] and [passlib] packages.  The
    signing algorithm named by [ALGORITHM] is [mac]; the header and claims
    segments of the compact serialisation are produced and read back by
    [segments_of_claims] and [claims_of_segments].  The checks of the
    registered claims other than [exp] and [sub] are taken in the order in
    which the library runs them: [validate_iat_nbf] before the check of
    [exp], [validate_aud_iss] between the checks of [exp] and [sub], and
    [validate_jti_at_hash] last.  [int_of_str] is the built-in [int] on a
    string, [None] standing for its [ValueError]; [pwd_verify] is
    [pwd_context.verify]. *)
Record crypto : Type := mkCrypto {
  mac : string -> string -> string;
  segments_of_claims : gmap string claim_value -> string;
  claims_of_segments : string -> option (gmap string claim_value);
  validate_iat_nbf : Z -> gmap string claim_value -> verdict;
  validate_aud_iss : gmap string claim_value -> verdict;
  validate_jti_at_hash : gmap string claim_value -> verdict;
  int_of_str : string -> option Z;
  pwd_verify : string -> string -> result bool
}.

(** The other checks of the library let the claims through. *)
Definition checks_pass (lib : crypto) (now : Z)
  (claims : gmap string claim_value) : Prop :=
  validate_iat_nbf lib now claims = passes
  /\ validate_aud_iss lib claims = passes
  /\ validate_jti_at_hash lib claims = passes.

(** [token.rsplit(".", 1)]: the text before and after the last dot. *)
Fixpoint rsplit_dot (s : string) : option (string * string) :=
  match s with
  | EmptyString => None
  | String c rest =>
      match rsplit_dot rest with
      | Some (a, b) => Some (String c a, b)
      | None => if Ascii.eqb c "."%char then Some (EmptyString, rest) else None
      end
  end.

Fixpoint has_dot (s : string) : bool :=
  match s with
  | EmptyString => false
  | String c rest => Ascii.eqb c "."%char || has_dot rest
  end.

(** The library reads back the claims it has serialised. *)
Definition readable (lib : crypto) (claims : gmap string claim_value) : Prop :=
  claims_of_segments lib (segments_of_claims lib claims) = Some claims.

(** The signature of the claims holds no dot (it is base64url text). *)
Definition dotless (lib : crypto) (key : string)
  (claims : gmap string claim_value) : Prop :=
  has_dot (mac lib key (segments_of_claims lib claims)) = false.

(** [jwt.encode(claims, key, algorithm=ALGORITHM)]. *)
Definition jwt_encode (lib : crypto) (claims : gmap string claim_value)
  (key : string) : string :=
  let signing_input := segments_of_claims lib claims in
  (signing_input ++ "." ++ mac lib key signing_input)%string.

(** The built-in [int] on a claim value: a Boolean is 0 or 1, a finite
    float is cut towards zero, a string is parsed; [NaN] and a string that
    is no number give [ValueError], an infinite float [OverflowError], and
    [None], a list or an object [TypeError]. *)
Definition python_int (lib : crypto) (v : claim_value) : result Z :=
  match v with
  | VInt n => Ok n
  | VBool b => Ok (if b then 1 else 0)
  | VFloat (finite q) => Ok (Z.quot (Qnum q) (Z.pos (Qden q)))
  | VFloat nan => Raise ValueError
  | VFloat infinite => Raise (OtherError "OverflowError")
  | VStr s =>
      match int_of_str lib s with
      | Some n => Ok n
      | None => Raise ValueError
      end
  | VList _ | VNull | VOther => Raise (OtherError "TypeError")
  end.

(** The expiry check of [jwt.decode]: [int(claims["exp"])], of which only
    the [ValueError] is caught and turned into a [JWTError]; a token is
    refused once [exp] is smaller than the current time in seconds. *)
Definition validate_exp (lib : crypto) (now : Z)
  (claims : gmap string claim_value) : result unit :=
  match claims !! "exp" with
  | None => Ok tt
  | Some v =>
      match python_int lib v with
      | Ok e => if e <? now then Raise JWTError else Ok tt
      | Raise ValueError => Raise JWTError
      | Raise e => Raise e
      end
  end.

(** The subject check of [jwt.decode]: a subject, when present, is a string. *)
Definition validate_sub (claims : gmap string claim_value) : result unit :=
  match claims !! "sub" with
  | None => Ok tt
  | Some (VStr _) => Ok tt
  | Some _ => Raise JWTError
  end.

(** The checks of the claims, in the order of the library; the first one
    that fails decides the exception. *)
Definition validate_claims (lib : crypto) (now : Z)
  (claims : gmap string claim_value) : result unit :=
  match raise_of (validate_iat_nbf lib now claims) with
  | Raise e => Raise e
  | Ok _ =>
      match validate_exp lib now claims with
      | Raise e => Raise e
      | Ok _ =>
          match raise_of (validate_aud_iss lib claims) with
          | Raise e => Raise e
          | Ok _ =>
              match validate_sub claims with
              | Raise e => Raise e
              | Ok _ => raise_of (validate_jti_at_hash lib claims)
              end
          end
      end
  end.

(** [jwt.decode(token, key, algorithms=[ALGORITHM])] at time [now].  A
    token that cannot be taken apart, a signature that does not fit and a
    content that cannot be read are a [JWTError]; the checks of the claims
    may let out other exceptions. *)
Definition jwt_decode (lib : crypto) (now : Z) (token key : string)
  : result (gmap string claim_value) :=
  match rsplit_dot token with
  | None => Raise JWTError
  | Some (signing_input, signature) =>
      if negb (String.eqb signature (mac lib key signing_input))
      then Raise JWTError
      else
        match claims_of_segments lib signing_input with
        | None => Raise JWTError
        | Some claims =>
            match validate_claims lib now claims with
            | Ok _ => Ok claims
            | Raise e => Raise e
            end
        end
  end.

(** [expires_delta or timedelta(minutes=ACCESS_TOKEN_EXPIRE_MINUTES)], in
    seconds; a zero [timedelta] is falsy. *)
Definition lifetime (cfg : config) (expires_delta : option Z) : Z :=
  match expires_delta with
  | Some d => if d =? 0 then 60 * ACCESS_TOKEN_EXPIRE_MINUTES cfg else d
  | None => 60 * ACCESS_TOKEN_EXPIRE_MINUTES cfg
  end.

(** [create_access_token]; [now] is [datetime.utcnow()] in seconds. *)
Definition create_access_token (cfg : config) (lib : crypto) (now : Z)
  (data : gmap string claim_value) (expires_delta : option Z) : string :=
  let expire := now + lifetime cfg expires_delta in
  let to_encode := <["exp" := VInt expire]> data in
  jwt_encode lib to_encode (SECRET_KEY cfg).

(** The dictionary [{"sub": ..., "scopes": ...}] returned by [decode_token]. *)
Record token_data : Type := mkTokenData {
  sub : string;
  scopes : claim_value
}.

Definition credentials_exception : exn :=
  HTTPException 401 "Could not validate credentials".

(** [decode_token]: only the [JWTError] is caught; any other exception of
    the library leaves the function as it is.  A payload accepted by
    [jwt_decode] has a string subject or none, so the last branch of the
    match is never taken (lemma [jwt_decode_sub] below). *)
Definition decode_token (cfg : config) (lib : crypto) (now : Z)
  (token : string) : result token_data :=
  match jwt_decode lib now token (SECRET_KEY cfg) with
  | Raise JWTError => Raise credentials_exception
  | Raise e => Raise e
  | Ok payload =>
      match payload !! "sub" with
      | None | Some VNull => Raise credentials_exception
      | Some (VStr subject) =>
          Ok {| sub := subject;
                scopes := default (VList []) (payload !! "scopes") |}
      | Some _ => Raise credentials_exception
      end
  end.

(** [secrets.compare_digest] on two [str] values: only ASCII text can be
    compared, anything else is a [TypeError]. *)
Fixpoint is_ascii (s : string) : bool :=
  match s with
  | EmptyString => true
  | String c rest => (Ascii.N_of_ascii c <? 128)%N && is_ascii rest
  end.

Definition compare_digest (a b : string) : result bool :=
  if is_ascii a && is_ascii b then Ok (String.eqb a b)
  else Raise (OtherError "TypeError").

(** [verify_password]: a configured, non-empty hash is checked by passlib;
    otherwise the password is compared with the configured one. *)
Definition verify_password (cfg : config) (lib : crypto)
  (plain_password : string) (hashed_password : option string) : result bool :=
  match hashed_password with
  | Some h =>
      if String.eqb h "" then
        compare_digest plain_password (SERVICE_ACCOUNT_PASSWORD cfg)
      else pwd_verify lib plain_password h
  | None => compare_digest plain_password (SERVICE_ACCOUNT_PASSWORD cfg)
  end.

(** [authenticate_user]. *)
Definition authenticate_user (cfg : config) (lib : crypto)
  (username password : string) : result bool :=
  if negb (String.eqb username (SERVICE_ACCOUNT_USERNAME cfg)) then Ok false
  else verify_password cfg lib password (SERVICE_ACCOUNT_PASSWORD_HASH cfg).

End Token.

(** ** The connection registry ([ConnectionManager]) *)

Module Registry.

(** WebSocket objects are compared by identity; a connection is named by
    its handle. *)
Record ConnectionManager : Type := mkManager {
  active_connections : list nat
}.

(** [list.remove(x)]: the first occurrence is removed; [None] stands for
    the [ValueError] raised when there is none. *)
Fixpoint list_remove_first (x : nat) (l : list nat) : option (list nat) :=
  match l with
  | [] => None
  | y :: rest =>
      if Nat.eqb y x then Some rest
      else option_map (cons y) (list_remove_first x rest)
  end.

(** [ConnectionManager.connect], after [websocket.accept()]. *)
Definition connect (m : ConnectionManager) (ws : nat) : ConnectionManager :=
  {| active_connections := active_connections m ++ [ws] |}.

(** [ConnectionManager.disconnect]. *)
Definition disconnect (m : ConnectionManager) (ws : nat)
  : result unit * ConnectionManager :=
  match list_remove_first ws (active_connections m) with
  | Some l => (Ok tt, {| active_connections := l |})
  | None => (Raise ValueError, m)
  end.

(** The loop of [ConnectionManager.broadcast] over the registered
    connections.  [send_text c message] is the outcome of
    [connection.send_text(message)] on connection [c]; the result lists the
    connections the message was sent to and how the loop ended. *)
Fixpoint broadcast_loop (send_text : nat -> string -> result unit)
  (message : string) (conns : list nat) : list nat * result unit :=
  match conns with
  | [] => ([], Ok tt)
  | c :: rest =>
      match send_text c message with
      | Raise e => ([], Raise e)
      | Ok _ =>
          let '(sent, r) := broadcast_loop send_text message rest in
          (c :: sent, r)
      end
  end.

(** [ConnectionManager.broadcast]. *)
Definition broadcast (send_text : nat -> string -> result unit)
  (m : ConnectionManager) (message : string) : list nat * result unit :=
  broadcast_loop send_text message (active_connections m).

(** Number of registered connections. *)
Definition size (m : ConnectionManager) : nat := length (active_connections m).

End Registry.

(** ** The auth guard ([secure_endpoint], [secure_websocket],
       [login_for_access_token]) and the WebSocket chat handler *)

Module Auth.

Import RateLimiter Token Registry.

(** What the handshake of a WebSocket carries. *)
Record WebSocket : Type := mkWebSocket {
  handle : nat;
  query_token : option string;
  authorization : option string;
  client_host : option string
}.

(** What a handler does with its socket, in order. *)
Inductive ws_action : Type :=
| ws_close (code : Z)
| ws_accept
| ws_receive_text
| ws_send_text (data : string).

(** How a handler stops: it returns, an exception leaves it, or it stays
    suspended in [receive_text]. *)
Inductive handler_end : Type :=
| Returned
| Raised (e : exn)
| Suspended.

(** Python truthiness of an optional string. *)
Definition truthy (o : option string) : bool :=
  match o with
  | Some s => negb (String.eqb s "")
  | None => false
  end.

(** [str.lower] on the letters the test [startswith("bearer ")] can see. *)
Definition lower_char (c : ascii) : ascii :=
  let n := N_of_ascii c in
  if ((65 <=? n) && (n <=? 90))%N then ascii_of_N (n + 32) else c.

Fixpoint lower (s : string) : string :=
  match s with
  | EmptyString => EmptyString
  | String c rest => String (lower_char c) (lower rest)
  end.

(** [s.split(" ", 1)[1]]: the text after the first space; [None] stands
    for the [IndexError] when there is no space. *)
Fixpoint after_first_space (s : string) : option string :=
  match s with
  | EmptyString => None
  | String c rest =>
      if Ascii.eqb c " "%char then Some rest else after_first_space rest
  end.

Fixpoint has_space (s : string) : bool :=
  match s with
  | EmptyString => false
  | String c rest => Ascii.eqb c " "%char || has_space rest
  end.

(** The token of a handshake: the query parameter [token], else the text
    after [Bearer ] in the [Authorization] header. *)
Definition resolve_token (ws : WebSocket) : result (option string) :=
  let token := query_token ws in
  if truthy token then Ok token
  else
    match authorization ws with
    | Some auth_header =>
        if truthy (Some auth_header)
           && String.prefix "bearer " (lower auth_header)
        then
          match after_first_space auth_header with
          | Some t => Ok (Some t)
          | None => Raise (OtherError "IndexError")
          end
        else Ok token
    | None => Ok token
    end.

(** [token_data.get("sub") or (client.host if client else "anonymous")]. *)
Definition rate_key (subject : string) (client : option string) : string :=
  if negb (String.eqb subject "") then subject
  else match client with Some host => host | None => "anonymous" end.

Definition CLOSE_UNAUTHENTICATED : Z := 4401.
Definition CLOSE_RATE_LIMITED : Z := 4429.

(** [secure_websocket].  [now_utc] is the wall clock used for the expiry of
    the token, [now] the monotonic clock of the limiter.  The result is the
    list of actions on the socket, the returned token data or the exception,
    and the limiter afterwards. *)
Definition secure_websocket (cfg : config) (lib : crypto) (now_utc now : Z)
  (ws : WebSocket) (rl : SimpleRateLimiter)
  : list ws_action * result token_data * SimpleRateLimiter :=
  match resolve_token ws with
  | Raise e => ([], Raise e, rl)
  | Ok token =>
      if negb (truthy token)
      then ([ws_close CLOSE_UNAUTHENTICATED], Raise WebSocketDisconnect, rl)
      else
        match decode_token cfg lib now_utc (default "" token) with
        | Raise (HTTPException _ _) =>
            ([ws_close CLOSE_UNAUTHENTICATED], Raise WebSocketDisconnect, rl)
        | Raise e => ([], Raise e, rl)
        | Ok td =>
            let key := rate_key (sub td) (client_host ws) in
            match hit rl key now with
            | (Raise (HTTPException _ _), rl') =>
                ([ws_close CLOSE_RATE_LIMITED], Raise WebSocketDisconnect, rl')
            | (Raise e, rl') => ([], Raise e, rl')
            | (Ok _, rl') => ([], Ok td, rl')
            end
        end
  end.

(** [secure_endpoint] for a request whose bearer token is [token]. *)
Definition secure_endpoint (cfg : config) (lib : crypto) (now_utc now : Z)
  (token : string) (client : option string) (rl : SimpleRateLimiter)
  : result token_data * SimpleRateLimiter :=
  match decode_token cfg lib now_utc token with
  | Raise e => (Raise e, rl)
  | Ok td =>
      match hit rl (rate_key (sub td) client) now with
      | (Raise e, rl') => (Raise e, rl')
      | (Ok _, rl') => (Ok td, rl')
      end
  end.

Definition bad_credentials : exn :=
  HTTPException 400 "Incorrect username or password".

(** [login_for_access_token] (POST /auth/token). *)
Definition login_for_access_token (cfg : config) (lib : crypto)
  (now_utc now : Z) (username password : string) (client : option string)
  (rl : SimpleRateLimiter) : result string * SimpleRateLimiter :=
  match authenticate_user cfg lib username password with
  | Raise e => (Raise e, rl)
  | Ok false => (Raise bad_credentials, rl)
  | Ok true =>
      let key := rate_key username client in
      match hit rl key now with
      | (Raise e, rl') => (Raise e, rl')
      | (Ok _, rl') =>
          (Ok (create_access_token cfg lib now_utc
                 {[ "sub" := VStr username ]} None), rl')
      end
  end.

(** What the chat handler needs besides the socket: reading the [message]
    field of an inbound JSON frame, and the JSON frame sent in reply to a
    message for a subject. *)
Record chat_env : Type := mkChatEnv {
  message_of : string -> result string;
  reply_frame : string -> string -> string
}.

(** What arrives on the socket: a text frame, or the close of the peer. *)
Inductive inbound : Type :=
| frame_text (data : string)
| peer_closed.

(** The [while True] loop of [websocket_chat] over the inbound frames: each
    text frame is answered by one frame (sending is taken to succeed); the
    close of the peer makes [receive_text] raise [WebSocketDisconnect]; with
    no frame left the handler waits in [receive_text]. *)
Fixpoint chat_loop (env : chat_env) (subject : string) (frames : list inbound)
  : list ws_action * handler_end :=
  match frames with
  | [] => ([ws_receive_text], Suspended)
  | peer_closed :: _ => ([ws_receive_text], Raised WebSocketDisconnect)
  | frame_text data :: rest =>
      match message_of env data with
      | Raise e => ([ws_receive_text], Raised e)
      | Ok m =>
          let '(acts, fin) := chat_loop env subject rest in
          (ws_receive_text :: ws_send_text (reply_frame env m subject) :: acts,
           fin)
      end
  end.

(** The state shared by the handlers: the limiter and the registry. *)
Record server : Type := mkServer {
  rate_limiter : SimpleRateLimiter;
  manager : ConnectionManager
}.

(** [websocket_chat]. *)
Definition websocket_chat (cfg : config) (lib : crypto) (env : chat_env)
  (now_utc now : Z) (ws : WebSocket) (frames : list inbound) (s : server)
  : list ws_action * handler_end * server :=
  match secure_websocket cfg lib now_utc now ws (rate_limiter s) with
  | (acts, Raise WebSocketDisconnect, rl') =>
      (acts, Returned, {| rate_limiter := rl'; manager := manager s |})
  | (acts, Raise e, rl') =>
      (acts, Raised e, {| rate_limiter := rl'; manager := manager s |})
  | (acts, Ok td, rl') =>
      let m1 := connect (manager s) (handle ws) in
      match chat_loop env (sub td) frames with
      | (acts2, Raised WebSocketDisconnect) =>
          match disconnect m1 (handle ws) with
          | (Ok _, m2) =>
              (acts ++ ws_accept :: acts2, Returned,
               {| rate_limiter := rl'; manager := m2 |})
          | (Raise e, m2) =>
              (acts ++ ws_accept :: acts2, Raised e,
               {| rate_limiter := rl'; manager := m2 |})
          end
      | (acts2, fin) =>
          (acts ++ ws_accept :: acts2, fin,
           {| rate_limiter := rl'; manager := m1 |})
      end
  end.

End Auth.

(** ** The session stream of POST /chat ([chat_endpoint.generate_response]) *)

Module Stream.

(** Response texts are Python strings: sequences of Unicode code points. *)
Abbreviation str := (list N).

Definition SPACE : N := 32%N.

(** The characters [str.split()] and [str.strip()] treat as white space. *)
Definition isspace (c : N) : bool :=
  ((9 <=? c) && (c <=? 13) || (28 <=? c) && (c <=? 32)
   || (c =? 133) || (c =? 160) || (c =? 5760)
   || (8192 <=? c) && (c <=? 8202)
   || (c =? 8232) || (c =? 8233) || (c =? 8239) || (c =? 8287)
   || (c =? 12288))%N.

(** [s.split()]: the maximal runs of characters that are not white space.
    [word] holds the characters of the run being read, last one first. *)
Fixpoint split_from (word : str) (s : str) : list str :=
  match s with
  | [] => match word with [] => [] | _ :: _ => [rev word] end
  | c :: rest =>
      if isspace c then
        match word with
        | [] => split_from [] rest
        | _ :: _ => rev word :: split_from [] rest
        end
      else split_from (c :: word) rest
  end.

Definition split (s : str) : list str := split_from [] s.

(** [sep.join(parts)]. *)
Fixpoint join (sep : str) (parts : list str) : str :=
  match parts with
  | [] => []
  | w :: rest =>
      match rest with
      | [] => w
      | _ :: _ => w ++ sep ++ join sep rest
      end
  end.

Fixpoint lstrip (s : str) : str :=
  match s with
  | [] => []
  | c :: rest => if isspace c then lstrip rest else s
  end.

(** [s.strip()]. *)
Definition strip (s : str) : str := rev (lstrip (rev (lstrip s))).

(** [range(start, stop, step)] for a positive step, by counting down the
    iterations that are left ([stop] of them are always enough). *)
Fixpoint range_from (fuel i stop step : nat) : list nat :=
  match fuel with
  | O => []
  | S fuel' =>
      if (i <? stop)%nat then i :: range_from fuel' (i + step) stop step
      else []
  end.

Definition range (start stop step : nat) : list nat :=
  range_from stop start stop step.

(** The JSON objects the generator yields.  Fractions stand for the
    floating-point numbers of the source. *)
Inductive event : Type :=
| session_start (session_id language : string)
| thinking (message : string)
| partial_response (text : str) (progress : Q)
| final_response (message : str) (confidence : Q) (language context : string)
| session_end (session_id : string).

(** The ['type'] field of an event. *)
Definition event_type (e : event) : string :=
  match e with
  | session_start _ _ => "session_start"
  | thinking _ => "thinking"
  | partial_response _ _ => "partial_response"
  | final_response _ _ _ _ => "final_response"
  | session_end _ => "session_end"
  end.

(** [min((i + chunk_size) / len(words), 1.0)]. *)
Definition progress_at (chunk_size n_words i : nat) : Q :=
  Qmin (Z.of_nat (i + chunk_size) # Pos.of_nat n_words) 1.

(** The body of the [for i in range(0, len(words), chunk_size)] loop, run
    over the indices [idx], with the text accumulated so far. *)
Fixpoint stream_chunks (chunk_size : nat) (words : list str)
  (idx : list nat) (response_text : str) : list event :=
  match idx with
  | [] => []
  | i :: rest =>
      let chunk := take chunk_size (drop i words) in
      let response_text := response_text ++ join [SPACE] chunk ++ [SPACE] in
      partial_response (strip response_text)
        (progress_at chunk_size (length words) i)
      :: stream_chunks chunk_size words rest response_text
  end.

(** The [partial_response] events for a response text. *)
Definition partial_events (chunk_size : nat) (ai_response : str) : list event :=
  let words := split ai_response in
  stream_chunks chunk_size words (range 0 (length words) chunk_size) [].

(** The body of a /chat request. *)
Record ChatMessage : Type := mkChatMessage {
  message : str;
  language : string;
  session_id : option string;
  context : option str
}.

(** [chunk_size = 10  # Process 10 words at a time] *)
Definition chunk_size : nat := 10.

(** [message.session_id or str(uuid.uuid4())] *)
Definition session_of (fresh_id : string) (msg : ChatMessage) : string :=
  match session_id msg with
  | Some s => if String.eqb s "" then fresh_id else s
  | None => fresh_id
  end.

(** [generate_response].  [respond] is [get_healthcare_response], which
    returns the response text or raises; [fresh_id] is [str(uuid.uuid4())].
    The result is the list of events yielded and how the generator ends:
    it is exhausted ([Ok]) or an exception leaves it ([Raise]). *)
Definition generate_response (respond : str -> option str -> result str)
  (fresh_id : string) (msg : ChatMessage) : list event * result unit :=
  let sid := session_of fresh_id msg in
  let opening :=
    [session_start sid (language msg);
     thinking "Analyzing your healthcare query..."] in
  match respond (message msg) (context msg) with
  | Raise e => (opening, Raise e)
  | Ok ai_response =>
      (opening
         ++ partial_events chunk_size ai_response
         ++ [final_response ai_response (95 # 100) (language msg) "healthcare";
             session_end sid],
       Ok tt)
  end.

(** The progress values of the [partial_response] events of a stream. *)
Definition progress_values (evs : list event) : list Q :=
  omap (fun e => match e with partial_response _ p => Some p | _ => None end)
       evs.

(** [ceil(n / c)] for a positive [c]. *)
Definition ceil_div (n c : nat) : nat := ((n + c - 1) / c)%nat.

(** The text in which every word is followed by one space. *)
Definition spaced (ws : list str) : str :=
  concat (map (fun w => w ++ [SPACE]) ws).

(** What [split] returns: words that are not empty and hold no white space. *)
Definition is_word (w : str) : Prop :=
  w <> [] /\ Forall (fun c => isspace c = false) w.

(** The event of the [k]-th chunk: the first [(k+1) * c] words, joined by
    single spaces, and the fraction of the words sent so far. *)
Definition chunk_event (c : nat) (words : list str) (k : nat) : event :=
  partial_response (join [SPACE] (take ((k + 1) * c) words))
                   (progress_at c (length words) (k * c)).

(** Number of events of a given type. *)
Definition count_type (ty : string) (evs : list event) : nat :=
  length (filter (fun e => event_type e = ty) evs).

End Stream.

(** ** Concurrent calls of [SimpleRateLimiter.hit] for one key *)

Module Concurrent.

Import RateLimiter.

(** Where a call of [hit] stands.  The statements of the method are taken
    one at a time, so that a scheduler may switch between calls anywhere. *)
Inductive pc : Type :=
| at_start                  (* before [now = time.monotonic()] *)
| at_lock (now : Z)         (* before [async with self.lock] *)
| in_prune (now : Z)        (* lock held, before the [while] loop *)
| in_check (now : Z)        (* lock held, before [if len(bucket) >= limit] *)
| in_append (now : Z)       (* lock held, before [bucket.append(now)] *)
| finished (r : result unit).

(** The clock, the holder of [self.lock], the limiter and the calls. *)
Record pool : Type := mkPool {
  clock : Z;
  lock : option nat;
  limiter : SimpleRateLimiter;
  tasks : list pc
}.

(** [bucket = setdefault(key, deque())] followed by the [while] loop. *)
Definition prune (rl : SimpleRateLimiter) (key : string) (now : Z)
  : SimpleRateLimiter :=
  with_calls rl
    (<[key := popleft_expired (window_seconds rl) now (bucket_of rl key)]>
       (calls rl)).

(** [len(bucket) >= self.limit] *)
Definition full (rl : SimpleRateLimiter) (key : string) : bool :=
  limit rl <=? Z.of_nat (length (bucket_of rl key)).

(** [bucket.append(now)] *)
Definition append (rl : SimpleRateLimiter) (key : string) (now : Z)
  : SimpleRateLimiter :=
  with_calls rl (<[key := bucket_of rl key ++ [now]]> (calls rl)).

(** What the scheduler does next: let time pass, or run the next statement
    of call [i]. *)
Inductive action : Type :=
| tick (d : Z)
| advance (i : nat).

Definition set_task (p : pool) (i : nat) (s : pc) : list pc :=
  <[i := s]> (tasks p).

(** One scheduling step; [None] when the action is not possible (time
    cannot go back, the lock is taken, the call has finished). *)
Definition exec (key : string) (p : pool) (a : action) : option pool :=
  match a with
  | tick d =>
      if 0 <=? d
      then Some (mkPool (clock p + d) (lock p) (limiter p) (tasks p))
      else None
  | advance i =>
      match tasks p !! i with
      | Some at_start =>
          Some (mkPool (clock p) (lock p) (limiter p)
                  (set_task p i (at_lock (clock p))))
      | Some (at_lock now) =>
          match lock p with
          | None =>
              Some (mkPool (clock p) (Some i) (limiter p)
                      (set_task p i (in_prune now)))
          | Some _ => None
          end
      | Some (in_prune now) =>
          Some (mkPool (clock p) (lock p) (prune (limiter p) key now)
                  (set_task p i (in_check now)))
      | Some (in_check now) =>
          if full (limiter p) key
          then Some (mkPool (clock p) None (limiter p)
                       (set_task p i (finished (Raise rate_limit_exceeded))))
          else Some (mkPool (clock p) (lock p) (limiter p)
                       (set_task p i (in_append now)))
      | Some (in_append now) =>
          Some (mkPool (clock p) None (append (limiter p) key now)
                  (set_task p i (finished (Ok tt))))
      | Some (finished _) => None
      | None => None
      end
  end.

(** A schedule is run from left to right. *)
Fixpoint run (key : string) (p : pool) (sched : list action) : option pool :=
  match sched with
  | [] => Some p
  | a :: rest =>
      match exec key p a with
      | Some p' => run key p' rest
      | None => None
      end
  end.

(** [k] calls that have not started, at clock reading [c0]. *)
Definition init (c0 : Z) (k : nat) (rl : SimpleRateLimiter) : pool :=
  mkPool c0 None rl (replicate k at_start).

Definition is_finished (s : pc) : bool :=
  match s with finished _ => true | _ => false end.

Definition is_admitted (s : pc) : bool :=
  match s with finished (Ok _) => true | _ => false end.

Definition is_rejected (s : pc) : bool :=
  match s with
  | finished (Raise (HTTPException 429 _)) => true
  | _ => false
  end.

Fixpoint count (f : pc -> bool) (l : list pc) : nat :=
  match l with
  | [] => O
  | s :: rest => ((if f s then 1 else 0) + count f rest)%nat
  end.

(** Whether a call is inside [async with self.lock]. *)
Definition holds_lock (s : pc) : bool :=
  match s with
  | in_prune _ | in_check _ | in_append _ => true
  | _ => false
  end.

(** The clock reading a call has taken. *)
Definition stamp (s : pc) : option Z :=
  match s with
  | at_lock t | in_prune t | in_check t | in_append t => Some t
  | _ => None
  end.

(** The statements a call has still to run, at most. *)
Definition steps_left (s : pc) : nat :=
  match s with
  | at_start => 5
  | at_lock _ => 4
  | in_prune _ => 3
  | in_check _ => 2
  | in_append _ => 1
  | finished _ => 0
  end.

Definition work_left (p : pool) : nat :=
  foldr (fun s n => (steps_left s + n)%nat) O (tasks p).

Definition all_finished (p : pool) : Prop :=
  Forall (fun s => is_finished s = true) (tasks p).

(** What holds of every pool reached from [init c0 k rl] for one [key],
    while no clock reading is more than a window away from [c0]: the lock
    is held by exactly the calls inside the critical section; clock
    readings lie between [c0] and the clock; the bucket holds one
    timestamp for each admitted call and never more than the limit; a call
    about to append has seen room in the bucket; a call was rejected only
    with the bucket full. *)
Record invariant (key : string) (c0 : Z) (lim win : Z) (k : nat) (p : pool)
  : Prop := mkInvariant {
  inv_limit : limit (limiter p) = lim;
  inv_window : window_seconds (limiter p) = win;
  inv_size : length (tasks p) = k;
  inv_clock : c0 <= clock p;
  inv_holder : forall i s, tasks p !! i = Some s -> holds_lock s = true ->
                           lock p = Some i;
  inv_held : forall i, lock p = Some i ->
                       exists s, tasks p !! i = Some s /\ holds_lock s = true;
  inv_stamps : forall i s t, tasks p !! i = Some s -> stamp s = Some t ->
                             c0 <= t <= clock p;
  inv_bucket : Forall (fun t => c0 <= t <= clock p)
                      (bucket_of (limiter p) key);
  inv_admitted : length (bucket_of (limiter p) key)
                 = count is_admitted (tasks p);
  inv_bound : Z.of_nat (length (bucket_of (limiter p) key)) <= lim;
  inv_room : forall i t, tasks p !! i = Some (in_append t) ->
                         Z.of_nat (length (bucket_of (limiter p) key)) < lim;
  inv_rejected : forall i e, tasks p !! i = Some (finished (Raise e)) ->
                   e = rate_limit_exceeded
                   /\ lim <= Z.of_nat (length (bucket_of (limiter p) key))
}.

End Concurrent.

(** ** Sample settings *)

Module Examples.

Import Token.

(** A toy library on which the hypotheses hold: the signature is the key,
    and one payload is serialised. *)
Definition example_config : config :=
  mkConfig "change-me-in-production" 60 "nphies_service" None
           "nphies-dev-password".

Definition example_claims : gmap string claim_value :=
  <["exp" := VInt 4600]> {["sub" := VStr "nphies_service"]}.

(** The payload [{"exp": null}]. *)
Definition null_expiry_claims : gmap string claim_value :=
  {["exp" := VNull]}.

Definition example_crypto : crypto :=
  mkCrypto (fun key _ => key) (fun _ => "h.p")
           (fun s => if String.eqb s "h.p" then Some example_claims
                     else if String.eqb s "h.n" then Some null_expiry_claims
                     else None)
           (fun _ _ => passes) (fun _ => passes) (fun _ => passes)
           (fun _ => None) (fun _ _ => Ok false).

Definition example_env : Auth.chat_env :=
  Auth.mkChatEnv (fun data => Ok data) (fun m subject => m).

End Examples.

(** ** Runs of the rate limiter *)

Module Admission.

Import RateLimiter.

(** The clock readings of the calls of a run that were admitted, in order. *)
Fixpoint admitted (rl : SimpleRateLimiter) (key : string) (nows : list Z)
  : list Z :=
  match nows with
  | [] => []
  | now :: rest =>
      let '(r, rl1) := hit rl key now in
      (if is_ok r then [now] else []) ++ admitted rl1 key rest
  end.

(** In a list of admission times, any [k + 1] consecutive ones span more
    than [window]. *)
Definition spaced_out (window : Z) (k : nat) (times : list Z) : Prop :=
  forall i a b, times !! i = Some a -> times !! (i + k)%nat = Some b ->
                window < b - a.

End Admission.

(** ** The monitoring socket ([websocket_monitoring]) *)

Module Monitoring.

Import RateLimiter Token Registry Auth.

(** The [while True] loop of [websocket_monitoring].  Each round holds the
    frame built in that round (its figures are drawn at random) and the
    outcome of sending it; with no round left the handler is waiting in
    [asyncio.sleep]. *)
Fixpoint monitoring_loop (rounds : list (string * result unit))
  : list ws_action * handler_end :=
  match rounds with
  | [] => ([], Suspended)
  | (data, Raise e) :: _ => ([ws_send_text data], Raised e)
  | (data, Ok _) :: rest =>
      let '(acts, fin) := monitoring_loop rest in
      (ws_send_text data :: acts, fin)
  end.

(** [websocket_monitoring]. *)
Definition websocket_monitoring (cfg : config) (lib : crypto)
  (now_utc now : Z) (ws : WebSocket) (rounds : list (string * result unit))
  (s : server) : list ws_action * handler_end * server :=
  match secure_websocket cfg lib now_utc now ws (rate_limiter s) with
  | (acts, Raise WebSocketDisconnect, rl') =>
      (acts, Returned, {| rate_limiter := rl'; manager := manager s |})
  | (acts, Raise e, rl') =>
      (acts, Raised e, {| rate_limiter := rl'; manager := manager s |})
  | (acts, Ok td, rl') =>
      let m1 := connect (manager s) (handle ws) in
      match monitoring_loop rounds with
      | (acts2, Raised WebSocketDisconnect) =>
          match disconnect m1 (handle ws) with
          | (Ok _, m2) =>
              (acts ++ ws_accept :: acts2, Returned,
               {| rate_limiter := rl'; manager := m2 |})
          | (Raise e, m2) =>
              (acts ++ ws_accept :: acts2, Raised e,
               {| rate_limiter := rl'; manager := m2 |})
          end
      | (acts2, fin) =>
          (acts ++ ws_accept :: acts2, fin,
           {| rate_limiter := rl'; manager := m1 |})
      end
  end.

End Monitoring.

(** ** Socket sessions *)

Module Sessions.

Import Auth.

(** What the chat handler does with frames it can read: each is received
    and answered with one frame. *)
Definition answered (env : chat_env) (subject : string) (msgs : list string)
  : list ws_action :=
  concat (map (fun m => [ws_receive_text;
                         ws_send_text (reply_frame env m subject)]) msgs).

End Sessions.

(** ** The response generator ([get_healthcare_response]) *)

Module Responder.

Import Stream.

(** The keys of [patterns]. *)
Inductive category : Type :=
| eligibility
| claims
| pre_authorization
| nphies
| emergency.

#[global] Instance category_eq_dec : EqDecision category.
Proof. solve_decision. Defined.

(** The code points of an ASCII literal. *)
Definition codes (s : string) : str :=
  map N_of_ascii (list_ascii_of_string s).

(** [patterns[category]["keywords"]] *)
Definition keywords (c : category) : list str :=
  match c with
  | eligibility =>
      map codes ["eligible"; "eligibility"; "coverage"; "insurance"; "policy";
                 "benefits"]
  | claims =>
      map codes ["claim"; "claims"; "billing"; "payment"; "reimbursement";
                 "submit"]
  | pre_authorization =>
      map codes ["authorization"; "approval"; "pre-auth"; "prior";
                 "permission"; "procedure"]
  | nphies =>
      map codes ["nphies"; "integration"; "system"; "connection"; "saudi";
                 "health"]
  | emergency =>
      map codes ["emergency"; "urgent"; "critical"; "immediate"; "asap";
                 "help"]
  end.

(** The keys of [patterns] in the order of the dictionary. *)
Definition patterns : list category :=
  [eligibility; claims; pre_authorization; nphies; emergency].

Fixpoint starts_with (p s : str) : bool :=
  match p, s with
  | [], _ => true
  | _ :: _, [] => false
  | a :: p', b :: s' => (a =? b)%N && starts_with p' s'
  end.

(** [keyword in message_lower]: the keyword occurs somewhere in the text. *)
Fixpoint contains (p s : str) : bool :=
  starts_with p s
  || match s with
     | [] => false
     | _ :: s' => contains p s'
     end.

(** [sum(1 for keyword in data["keywords"] if keyword in message_lower)] *)
Definition matches (message_lower : str) (c : category) : nat :=
  length (filter (fun k => contains k message_lower = true) (keywords c)).

(** The confidence of a category: the share of its keywords that occur. *)
Definition confidence (message_lower : str) (c : category) : Q :=
  Z.of_nat (matches message_lower c) # Pos.of_nat (length (keywords c)).

(** The loop over [patterns.items()], with [best_match] and
    [highest_confidence]. *)
Fixpoint best_match_loop (message_lower : str) (cats : list category)
  (best_match : option category) (highest_confidence : Q)
  : option category * Q :=
  match cats with
  | [] => (best_match, highest_confidence)
  | c :: rest =>
      let conf := confidence message_lower c in
      if negb (Qle_bool conf highest_confidence)
      then best_match_loop message_lower rest (Some c) conf
      else best_match_loop message_lower rest best_match highest_confidence
  end.

(** What the function answers: one of the three texts of a category, with
    the confidence in percent, or the general text.  The texts themselves
    are left out. *)
Inductive reply : Type :=
| matched (c : category) (text : nat) (percent : Z)
| fallback.

(** [get_healthcare_response]; [lower] is [str.lower] and [choice] the
    index drawn by [random.choice].  The [context] argument of the source
    is not used by it. *)
Definition get_healthcare_response (lower : str -> str) (choice : nat)
  (message : str) : reply :=
  let message_lower := lower message in
  let '(best_match, highest_confidence) :=
    best_match_loop message_lower patterns None 0 in
  match best_match with
  | Some c =>
      if negb (Qle_bool highest_confidence (1 # 10))
      then matched c choice (Qfloor (highest_confidence * 100))
      else fallback
  | None => fallback
  end.

End Responder.

(** ** What the loop of the response generator has found *)

Module ResponderLoop.

Import Stream Responder.

(** After the categories [done], either no keyword of any of them occurs
    and nothing is chosen, or the chosen category has at least one keyword
    in the text, strictly more than every category before it and at least
    as many as every category after it. *)
Definition best_so_far (message_lower : str) (done : list category)
  (best_match : option category) (highest_confidence : Q) : Prop :=
  match best_match with
  | None =>
      highest_confidence = 0%Q
      /\ Forall (fun c => matches message_lower c = O) done
  | Some b =>
      highest_confidence = confidence message_lower b
      /\ (1 <= matches message_lower b)%nat
      /\ exists pre post,
           done = pre ++ b :: post
           /\ Forall (fun c => (matches message_lower c
                                < matches message_lower b)%nat) pre
           /\ Forall (fun c => (matches message_lower c
                                <= matches message_lower b)%nat) post
  end.

End ResponderLoop.

(** ** Request counters ([performance_middleware], [health_check]) *)

Module Metrics.

(** The dictionary [performance_metrics] without its start time.  The
    average is a fraction standing for the floating-point number of the
    source. *)
Record performance_metrics : Type := mkMetrics {
  total_requests : Z;
  successful_requests : Z;
  failed_requests : Z;
  average_response_time : Q
}.

Definition initial_metrics : performance_metrics := mkMetrics 0 0 0 0.

(** [performance_middleware].  [call_next] is the rest of the application:
    it sees the dictionary, may change it (requests served in the meantime
    do) and returns a response or raises; [process_time] is the time the
    two clock readings are apart.  The headers set on the response are left
    out. *)
Definition performance_middleware {A} (process_time : Q)
  (call_next : performance_metrics -> performance_metrics * result A)
  (m : performance_metrics) : performance_metrics * result A :=
  let m := mkMetrics (total_requests m + 1) (successful_requests m)
             (failed_requests m) (average_response_time m) in
  match call_next m with
  | (m, Ok response) =>
      let m := mkMetrics (total_requests m) (successful_requests m + 1)
                 (failed_requests m) (average_response_time m) in
      let m :=
        mkMetrics (total_requests m) (successful_requests m)
          (failed_requests m)
          ((average_response_time m * inject_Z (total_requests m - 1)
            + process_time) / inject_Z (total_requests m)) in
      (m, Ok response)
  | (m, Raise e) =>
      (mkMetrics (total_requests m) (successful_requests m)
         (failed_requests m + 1) (average_response_time m),
       Raise e)
  end.


(** A request served with nothing else going on: the handler reads the
    dictionary and leaves it as it is. *)
Definition serve {A} (m : performance_metrics)
  (request : Q * (performance_metrics -> result A)) : performance_metrics :=
  fst (performance_middleware (fst request)
         (fun m' => (m', snd request m')) m).

(** Requests served one after the other, from the start of the process. *)
Definition serve_all {A}
  (requests : list (Q * (performance_metrics -> result A)))
  : performance_metrics :=
  fold_left serve requests initial_metrics.

(** [sum(xs)]. *)
Definition sum (xs : list Q) : Q := fold_left Qplus xs 0%Q.

(** The ["performance"] part of the answer of [health_check]; the rate and
    the average are given before [round]. *)
Record performance : Type := mkPerformance {
  reported_total : Z;
  success_rate : Q;
  reported_average : Q;
  reported_failed : Z
}.

Definition health_check (m : performance_metrics) : performance :=
  {| reported_total := total_requests m;
     success_rate :=
       (inject_Z (successful_requests m)
        / inject_Z (Z.max (total_requests m) 1) * 100)%Q;
     reported_average := average_response_time m;
     reported_failed := failed_requests m |}.

(** GET /health as the middleware serves it. *)
Definition health_request (process_time : Q) (m : performance_metrics)
  : performance_metrics * result performance :=
  performance_middleware process_time (fun m' => (m', Ok (health_check m'))) m.

End Metrics.

(** ** Medical text analysis ([analyze_medical_text]) *)

Module MedicalText.

Import RateLimiter Token Auth.

(** An element of ['Entities'] in the answer of the Comprehend Medical
    client. *)
Record entity : Type := mkEntity {
  Text : string;
  Category : string;
  Type_ : string;
  Score : Q
}.

(** [entity_data]. *)
Record entity_data : Type := mkEntityData {
  data_text : string;
  data_category : string;
  data_type : string;
  data_confidence : Q
}.

(** ["analysis_results"]. *)
Record analysis_results : Type := mkAnalysis {
  medical_conditions : list entity_data;
  medications : list entity_data;
  procedures : list entity_data;
  total_entities : nat;
  confidence_avg : Q
}.

(** [comprehend_medical_client]: [None] when the clients could not be
    set up; [detect_entities_v2] answers with or without the key
    ['Entities'], or raises. *)
Definition comprehend := option (string -> result (option (list entity))).

Definition to_entity_data (round1 : Q -> Q) (e : entity) : entity_data :=
  {| data_text := Text e;
     data_category := Category e;
     data_type := Type_ e;
     data_confidence := round1 (Score e * 100)%Q |}.

(** The loop over the entities, with the three lists it appends to. *)
Fixpoint entity_loop (round1 : Q -> Q) (entities : list entity)
  (medical_conditions medications procedures : list entity_data)
  : list entity_data * list entity_data * list entity_data :=
  match entities with
  | [] => (medical_conditions, medications, procedures)
  | e :: rest =>
      let d := to_entity_data round1 e in
      if String.eqb (Category e) "MEDICAL_CONDITION" then
        entity_loop round1 rest (medical_conditions ++ [d]) medications
          procedures
      else if String.eqb (Category e) "MEDICATION" then
        entity_loop round1 rest medical_conditions (medications ++ [d])
          procedures
      else if String.eqb (Category e) "PROCEDURE" then
        entity_loop round1 rest medical_conditions medications
          (procedures ++ [d])
      else entity_loop round1 rest medical_conditions medications procedures
  end.

(** The body of the [try] block.  [text] is [request.get("text", "")] and
    [round1] is [round(_, 1)]. *)
Definition analyze_body (round1 : Q -> Q) (client : comprehend)
  (text : string) : result analysis_results :=
  match client with
  | Some detect_entities_v2 =>
      if String.eqb text "" then
        Raise (HTTPException 400 "Invalid text or service unavailable")
      else
        match detect_entities_v2 text with
        | Raise e => Raise e
        | Ok entities_response =>
            let entities := default [] entities_response in
            let '(medical_conditions, medications, procedures) :=
              entity_loop round1 entities [] [] [] in
            Ok {| medical_conditions := medical_conditions;
                  medications := medications;
                  procedures := procedures;
                  total_entities := length entities;
                  confidence_avg :=
                    round1 (Metrics.sum (map Score entities)
                            / inject_Z (Z.of_nat
                                          (Nat.max (length entities) 1))
                            * 100)%Q |}
        end
  | None => Raise (HTTPException 400 "Invalid text or service unavailable")
  end.

Definition analysis_failed : exn :=
  HTTPException 500 "Medical text analysis failed".

(** [try: ... except Exception: raise HTTPException(500, ...)]. *)
Definition analyze_handler (round1 : Q -> Q) (client : comprehend)
  (text : string) : result analysis_results :=
  match analyze_body round1 client text with
  | Ok r => Ok r
  | Raise _ => Raise analysis_failed
  end.

(** [analyze_medical_text] (POST /health-services/analyze-text): the guard
    [secure_endpoint] first, then the handler. *)
Definition analyze_medical_text (cfg : config) (lib : crypto)
  (now_utc now : Z) (token : string) (client_host : option string)
  (rl : SimpleRateLimiter) (round1 : Q -> Q) (client : comprehend)
  (text : string) : result analysis_results * SimpleRateLimiter :=
  match secure_endpoint cfg lib now_utc now token client_host rl with
  | (Raise e, rl') => (Raise e, rl')
  | (Ok _, rl') => (analyze_handler round1 client text, rl')
  end.

(** The status code of an HTTP error. *)
Definition status_of (e : exn) : option Z :=
  match e with
  | HTTPException status_code _ => Some status_code
  | _ => None
  end.

End MedicalText.

(** ** Breadcrumbs ([get_breadcrumbs]) *)

Module Navigation.

Import Stream Responder.

Definition SLASH : N := 47%N.
Definition HYPHEN : N := 45%N.

(** [s.split(sep)] for a separator of one character: the pieces between
    its occurrences, empty ones included. *)
Fixpoint split_on (sep : N) (s : str) : list str :=
  match s with
  | [] => [[]]
  | c :: rest =>
      if (c =? sep)%N then [] :: split_on sep rest
      else
        match split_on sep rest with
        | piece :: pieces => (c :: piece) :: pieces
        | [] => [[c]]
        end
  end.

Fixpoint lstrip_char (ch : N) (s : str) : str :=
  match s with
  | [] => []
  | c :: rest => if (c =? ch)%N then lstrip_char ch rest else s
  end.

(** [s.strip(ch)] for one character. *)
Definition strip_char (ch : N) (s : str) : str :=
  rev (lstrip_char ch (rev (lstrip_char ch s))).

(** [s.replace(old, new)] for single characters. *)
Definition replace_char (old new : N) (s : str) : str :=
  map (fun c => if (c =? old)%N then new else c) s.

Definition route_titles : list (string * string) :=
  [("dashboard", "Dashboard");
   ("nphies", "NPHIES Integration");
   ("eligibility", "Eligibility Check");
   ("claims", "Claims Processing");
   ("pre-authorization", "Pre-Authorization");
   ("ai-assistant", "AI Assistant");
   ("health-services", "AWS Health Services");
   ("ai-dashboard", "AI Dashboard");
   ("notifications", "Notifications");
   ("profile", "Profile");
   ("settings", "Settings")]%string.

(** [route_titles.get(part, part.replace("-", " ").title())]; [title] is
    [str.title]. *)
Definition title_of (title : str -> str) (part : str) : str :=
  match List.find (fun kv => bool_decide (codes (fst kv) = part))
          route_titles with
  | Some kv => codes (snd kv)
  | None => title (replace_char HYPHEN SPACE part)
  end.

Record breadcrumb : Type := mkBreadcrumb {
  crumb_title : str;
  crumb_path : str
}.

(** The loop over [path_parts], with [current_path] and [breadcrumbs]. *)
Fixpoint breadcrumbs_loop (title : str -> str) (path_parts : list str)
  (current_path : str) (breadcrumbs : list breadcrumb) : list breadcrumb :=
  match path_parts with
  | [] => breadcrumbs
  | part :: rest =>
      let current_path := current_path ++ SLASH :: part in
      breadcrumbs_loop title rest current_path
        (breadcrumbs ++ [mkBreadcrumb (title_of title part) current_path])
  end.

(** [get_breadcrumbs]: the breadcrumbs and ["current_path"]. *)
Definition get_breadcrumbs (title : str -> str) (path : str)
  : list breadcrumb * str :=
  let breadcrumbs := [mkBreadcrumb (codes "Home") [SLASH]] in
  let breadcrumbs :=
    if bool_decide (path <> []) && bool_decide (path <> [SLASH]) then
      breadcrumbs_loop title (split_on SLASH (strip_char SLASH path)) []
        breadcrumbs
    else breadcrumbs in
  (breadcrumbs,
   match path with [] => [SLASH] | _ :: _ => SLASH :: path end).

(** The number of occurrences of a character. *)
Definition occurrences (ch : N) (s : str) : nat :=
  length (filter (fun c => c = ch) s).

End Navigation.

(** ** Role-based access of the agent server
       ([src/nphies_agent_server.py]) *)

Module AgentServer.

Inductive UserRole : Type :=
| PROVIDER
| PAYER
| PATIENT
| AUDITOR.

(** The table [permissions] of [verify_user_permissions]. *)
Definition permissions (user_role : UserRole) : list string :=
  match user_role with
  | PROVIDER => ["create_claim"; "upload_images"; "view_status"]
  | PAYER => ["review_claim"; "approve_claim"; "audit_trail"]
  | PATIENT => ["view_claim"; "upload_consent"]
  | AUDITOR => ["view_all"; "audit_trail"; "compliance_report"]
  end%string.

(** [verify_user_permissions]: [action in permissions.get(user_role, [])]. *)
Definition verify_user_permissions (user_role : UserRole) (action : string)
  : bool :=
  existsb (String.eqb action) (permissions user_role).

Definition insufficient_permissions : exn :=
  HTTPException 403 "Insufficient permissions".

(** [handle_ag_ui_request] (POST /ag-ui/chat) for a request of the role
    [user_role]; [event_stream] is the streaming response it would
    return. *)
Definition handle_ag_ui_request {A} (user_role : UserRole) (event_stream : A)
  : result A :=
  if negb (verify_user_permissions user_role "chat")
  then Raise insufficient_permissions
  else Ok event_stream.

End AgentServer.

(** * Properties *)

(** ** Lists *)

Lemma filter_all_kept {A} (P : A -> Prop) `{!forall x, Decision (P x)}
  (l : list A) : Forall P l -> filter P l = l.
Proof.
  induction 1 as [|x l Hx _ IH]; [reflexivity|].
  rewrite filter_cons_True by assumption. now rewrite IH.
Qed.

(** ** Rate limiter *)

Section RateLimiterFacts.

Import RateLimiter.

(** On a bucket filled oldest first, popping expired heads drops exactly
    the timestamps older than [now - window]. *)
Lemma popleft_expired_filter (window now : Z) (bucket : list Z) :
  ascending bucket ->
  popleft_expired window now bucket
  = filter (fun t => now - window <= t) bucket.
Proof.
  induction 1 as [|t rest Hrest IH Hle]; [reflexivity|].
  cbn [popleft_expired]. destruct (Z.ltb_spec window (now - t)) as [Hold|Hin].
  - rewrite filter_cons_False by lia. exact IH.
  - symmetry. apply (filter_all_kept (fun t => now - window <= t)).
    constructor; [lia|].
    eapply Forall_impl; [exact Hle|]. intros u Hu. cbn in Hu. lia.
Qed.

Lemma popleft_expired_length (window now : Z) (bucket : list Z) :
  (length (popleft_expired window now bucket) <= length bucket)%nat.
Proof.
  induction bucket as [|t rest IH]; cbn; [lia|].
  destruct (window <? now - t); cbn; lia.
Qed.

Lemma popleft_expired_fresh (window now : Z) (bucket : list Z) :
  Forall (fun t => now - t <= window) bucket ->
  popleft_expired window now bucket = bucket.
Proof.
  destruct 1 as [|t rest Ht _]; [reflexivity|].
  cbn. destruct (Z.ltb_spec window (now - t)); [lia|reflexivity].
Qed.

Lemma bucket_of_with_calls rl key b :
  bucket_of (with_calls rl (<[key := b]> (calls rl))) key = b.
Proof. unfold bucket_of, with_calls; cbn. now rewrite lookup_insert_eq. Qed.

Lemma hit_unfold rl key now :
  hit rl key now =
  let b := popleft_expired (window_seconds rl) now (bucket_of rl key) in
  if limit rl <=? Z.of_nat (length b)
  then (Raise rate_limit_exceeded, with_calls rl (<[key := b]> (calls rl)))
  else (Ok tt, with_calls rl (<[key := b ++ [now]]> (calls rl))).
Proof. reflexivity. Qed.

(** A call leaves the limit and the window as they are. *)
Lemma hit_settings rl key now :
  limit (snd (hit rl key now)) = limit rl
  /\ window_seconds (snd (hit rl key now)) = window_seconds rl.
Proof.
  rewrite hit_unfold. cbn zeta.
  destruct (limit rl <=? _); cbn; auto.
Qed.

(** A call touches the bucket of its own key only. *)
Lemma hit_other_key rl key key' now :
  key <> key' -> bucket_of (snd (hit rl key now)) key' = bucket_of rl key'.
Proof.
  intros Hne. rewrite hit_unfold. cbn zeta. unfold bucket_of.
  destruct (limit rl <=? _); cbn; now rewrite lookup_insert_ne.
Qed.

Lemma popleft_expired_ascending (window now : Z) (bucket : list Z) :
  ascending bucket -> ascending (popleft_expired window now bucket).
Proof.
  induction 1 as [|t rest Hrest IH Hle]; cbn; [constructor|].
  destruct (window <? now - t); [exact IH|]. now constructor.
Qed.

Lemma popleft_expired_Forall (P : Z -> Prop) (window now : Z) (bucket : list Z) :
  Forall P bucket -> Forall P (popleft_expired window now bucket).
Proof.
  induction 1 as [|t rest Ht Hrest IH]; cbn; [constructor|].
  destruct (window <? now - t); [exact IH|]. now constructor.
Qed.

Lemma ascending_snoc (bucket : list Z) (now : Z) :
  ascending bucket -> Forall (fun t => t <= now) bucket ->
  ascending (bucket ++ [now]).
Proof.
  induction 1 as [|t rest Hrest IH Hall]; intros Hle; cbn.
  - repeat constructor.
  - inversion Hle; subst. constructor; [now apply IH|].
    apply Forall_app. split; [assumption|]. repeat constructor. assumption.
Qed.

(** With a monotonic clock a bucket stays ordered, oldest first. *)
Lemma hit_keeps_ascending rl key now :
  ascending (bucket_of rl key) ->
  Forall (fun t => t <= now) (bucket_of rl key) ->
  ascending (bucket_of (snd (hit rl key now)) key)
  /\ Forall (fun t => t <= now) (bucket_of (snd (hit rl key now)) key).
Proof.
  intros Hasc Hle. rewrite hit_unfold. cbn zeta.
  pose proof (popleft_expired_ascending (window_seconds rl) now _ Hasc) as Hk1.
  pose proof (popleft_expired_Forall _ (window_seconds rl) now _ Hle) as Hk2.
  destruct (limit rl <=? _); cbn [snd]; rewrite bucket_of_with_calls.
  - split; assumption.
  - split; [now apply ascending_snoc|].
    apply Forall_app. split; [assumption|]. repeat constructor. lia.
Qed.

Lemma hit_admits rl key now :
  Forall (fun t => now - t <= window_seconds rl) (bucket_of rl key) ->
  Z.of_nat (length (bucket_of rl key)) < limit rl ->
  hit rl key now
  = (Ok tt, with_calls rl (<[key := bucket_of rl key ++ [now]]> (calls rl))).
Proof.
  intros Hfresh Hlen. rewrite hit_unfold. cbn zeta.
  rewrite popleft_expired_fresh by assumption.
  destruct (Z.leb_spec (limit rl) (Z.of_nat (length (bucket_of rl key))));
    [lia|reflexivity].
Qed.

Lemma hit_rejects rl key now :
  Forall (fun t => now - t <= window_seconds rl) (bucket_of rl key) ->
  limit rl <= Z.of_nat (length (bucket_of rl key)) ->
  hit rl key now
  = (Raise rate_limit_exceeded,
     with_calls rl (<[key := bucket_of rl key]> (calls rl))).
Proof.
  intros Hfresh Hlen. rewrite hit_unfold. cbn zeta.
  rewrite popleft_expired_fresh by assumption.
  destruct (Z.leb_spec (limit rl) (Z.of_nat (length (bucket_of rl key))));
    [reflexivity|lia].
Qed.

Lemma ascending_snoc_bound (ts : list Z) (x : Z) :
  ascending (ts ++ [x]) -> Forall (fun t => t <= x) ts.
Proof.
  induction ts as [|t ts IH]; cbn; intros Hs; [constructor|].
  inversion Hs as [|? ? Hs' Hall]; subst. constructor.
  - apply Forall_app in Hall as [_ Hx]. now inversion Hx.
  - now apply IH.
Qed.

(** Calls that stay under the limit and inside one window are all admitted,
    and their timestamps are appended in order. *)
Lemma hits_admitted (ts : list Z) : forall rl key,
  (forall now t, now ∈ ts -> t ∈ bucket_of rl key ++ ts ->
                 now - t <= window_seconds rl) ->
  Z.of_nat (length (bucket_of rl key) + length ts) <= limit rl ->
  fst (hits rl key ts) = replicate (length ts) (Ok tt)
  /\ bucket_of (snd (hits rl key ts)) key = bucket_of rl key ++ ts
  /\ limit (snd (hits rl key ts)) = limit rl
  /\ window_seconds (snd (hits rl key ts)) = window_seconds rl.
Proof.
  induction ts as [|now rest IH]; intros rl key Hwin Hlen.
  - cbn. rewrite app_nil_r. auto.
  - cbn [hits]. rewrite hit_admits; cycle 1.
    + apply Forall_forall. intros t Ht. apply Hwin; [left|].
      apply elem_of_app. now left.
    + cbn [length] in Hlen. lia.
    + set (rl1 := with_calls rl _).
      assert (Hb1 : bucket_of rl1 key = bucket_of rl key ++ [now])
        by apply bucket_of_with_calls.
      destruct (IH rl1 key) as (Hr & Hb & Hl & Hw).
      * intros now' t Hnow' Ht. rewrite Hb1, <- app_assoc in Ht.
        change (window_seconds rl1) with (window_seconds rl).
        apply Hwin; [now right|exact Ht].
      * rewrite Hb1, length_app. cbn [length] in *.
        change (limit rl1) with (limit rl). lia.
      * destruct (hits rl1 key rest) as [rs rl2]. cbn [fst snd] in *.
        rewrite Hr, Hb, Hb1, <- app_assoc. auto.
Qed.

(** C1. A call of [hit] on a bucket filled by a monotonic clock does what
    the specification says: it drops every timestamp older than
    [now - window], then fails with the 429 error when [limit] or more
    remain, storing the pruned bucket without appending, and otherwise
    appends [now] and succeeds.  Consequently, on an unused key, [limit]
    calls inside one window all succeed, the next call inside the same
    window fails, and a call after the window of the oldest admitted call
    has passed succeeds again. *)
Theorem hit_sliding_window
  (rl : SimpleRateLimiter) (key : string) (now : Z)
  (rl0 : SimpleRateLimiter) (ts : list Z) (t_next t_late : Z)
  (Hordered : ascending (bucket_of rl key))
  (Hunused : bucket_of rl0 key = [])
  (Hlimit : Z.of_nat (length ts) = limit rl0)
  (Hclock : ascending (ts ++ [t_next]))
  (Hspan : Forall (fun t => t_next - t <= window_seconds rl0) ts) :
  let spec :=
    admit_spec (limit rl) (window_seconds rl) now (bucket_of rl key) in
  let burst := hits rl0 key ts in
  let over := hit (snd burst) key t_next in
  hit rl key now = (fst spec, with_calls rl (<[key := snd spec]> (calls rl)))
  /\ fst burst = replicate (length ts) (Ok tt)
  /\ fst over = Raise rate_limit_exceeded
  /\ (forall t1, head ts = Some t1 -> window_seconds rl0 < t_late - t1 ->
       fst (hit (snd over) key t_late) = Ok tt).
Proof.
  intros spec burst over. split.
  { subst spec. rewrite hit_unfold. unfold admit_spec. cbn zeta.
    rewrite popleft_expired_filter by assumption.
    destruct (limit rl <=? _); reflexivity. }
  pose proof (ascending_snoc_bound _ _ Hclock) as Hle.
  destruct (hits_admitted ts rl0 key) as (Hr & Hb & Hl & Hw).
  { intros t' t Ht' Ht. rewrite Hunused in Ht. cbn in Ht.
    rewrite Forall_forall in Hle, Hspan.
    specialize (Hle _ Ht'). specialize (Hspan _ Ht). cbn in *. lia. }
  { rewrite Hunused. cbn. lia. }
  fold burst in Hr, Hb, Hl, Hw. rewrite Hunused in Hb. cbn in Hb.
  assert (Hover : over = (Raise rate_limit_exceeded,
            with_calls (snd burst) (<[key := ts]> (calls (snd burst))))).
  { subst over. rewrite hit_rejects; rewrite ?Hb, ?Hw, ?Hl; auto. lia. }
  split; [exact Hr|]. split; [now rewrite Hover|].
  intros t1 Hhead Hlate. rewrite Hover. cbn [snd].
  set (rl2 := with_calls _ _).
  rewrite hit_unfold. cbn zeta.
  assert (Hb2 : bucket_of rl2 key = ts) by apply bucket_of_with_calls.
  rewrite Hb2. change (window_seconds rl2) with (window_seconds (snd burst)).
  change (limit rl2) with (limit (snd burst)). rewrite Hw, Hl.
  destruct ts as [|t ts']; [discriminate|]. cbn in Hhead.
  injection Hhead as ->. cbn [popleft_expired].
  destruct (Z.ltb_spec (window_seconds rl0) (t_late - t1)) as [_|?]; [|lia].
  pose proof (popleft_expired_length (window_seconds rl0) t_late ts') as Hlen.
  cbn [length] in Hlimit.
  destruct (Z.leb_spec (limit rl0)
              (Z.of_nat (length (popleft_expired (window_seconds rl0) t_late ts'))));
    [lia|reflexivity].
Qed.

(** The theorem at work: limit 2 and a window of 10 ticks; calls at 0 and 5
    pass, a call at 10 is refused, a call at 11 passes. *)
Lemma hit_sliding_window_witness :
  let rl0 := mkLimiter 2 10 ∅ in
  fst (hits rl0 "k" [0; 5]) = [Ok tt; Ok tt]
  /\ fst (hit (snd (hits rl0 "k" [0; 5])) "k" 10) = Raise rate_limit_exceeded
  /\ fst (hit (snd (hit (snd (hits rl0 "k" [0; 5])) "k" 10)) "k" 11) = Ok tt.
Proof.
  intros rl0.
  assert (Hasc : ascending [0; 5; 10]).
  { repeat constructor; lia. }
  destruct (hit_sliding_window rl0 "k" 0 rl0 [0; 5] 10 11) as (_ & H1 & H2 & H3).
  - constructor.
  - reflexivity.
  - reflexivity.
  - exact Hasc.
  - repeat constructor; cbn; lia.
  - split; [exact H1|]. split; [exact H2|].
    apply (H3 0); [reflexivity|cbn; lia].
Defined.

End RateLimiterFacts.

(** ** Connection registry *)

Section RegistryFacts.

Import Registry.

Lemma list_remove_first_absent (x : nat) (l : list nat) :
  x ∉ l -> list_remove_first x l = None.
Proof.
  induction l as [|y l IH]; intros Hx; [reflexivity|].
  cbn. destruct (Nat.eqb_spec y x) as [->|Hne].
  - exfalso. apply Hx. left.
  - rewrite IH; [reflexivity|]. intros Hin. apply Hx. now right.
Qed.

Lemma list_remove_first_present (x : nat) (l : list nat) :
  x ∈ l ->
  exists l', list_remove_first x l = Some l' /\ S (length l') = length l
             /\ (NoDup l -> (x ∉ l') /\ NoDup l').
Proof.
  induction l as [|y l IH]; intros Hx; [now apply elem_of_nil in Hx|].
  cbn. destruct (Nat.eqb_spec y x) as [->|Hne].
  - exists l. split; [reflexivity|]. split; [reflexivity|].
    intros Hnd. apply NoDup_cons in Hnd. exact Hnd.
  - apply elem_of_cons in Hx as [Hx|Hx]; [congruence|].
    destruct (IH Hx) as (l' & Hl' & Hlen & Hnd'). exists (y :: l').
    rewrite Hl'. cbn. split; [reflexivity|]. split; [now rewrite Hlen|].
    intros Hnd. apply NoDup_cons in Hnd as [Hy Hnd].
    destruct (Hnd' Hnd) as [Hx' Hnd2]. split.
    + intros Hin. apply elem_of_cons in Hin as [Hin|Hin]; [congruence|tauto].
    + apply NoDup_cons. split; [|assumption].
      intros Hin. apply Hy. clear -Hl' Hin. revert l' Hl' Hin.
      induction l as [|z l IHl]; intros l' Hl' Hin; [discriminate|].
      cbn in Hl'. destruct (Nat.eqb z x).
      * injection Hl' as <-. now right.
      * destruct (list_remove_first x l) as [l''|] eqn:E; [|discriminate].
        cbn in Hl'. injection Hl' as <-.
        apply elem_of_cons in Hin as [->|Hin]; [left|right; eauto].
Qed.

(** C7, as the code has it.  In a registry that holds every connection at
    most once, [disconnect] of a registered connection succeeds and makes
    the registry one smaller, [disconnect] of an absent connection raises
    [ValueError] and leaves the registry as it is; so the second of two
    successive calls for one connection always raises [ValueError], with
    the registry unchanged by it. *)
Theorem disconnect_twice (m : ConnectionManager) (ws : nat)
  (Honce : NoDup (active_connections m)) :
  let first := disconnect m ws in
  let second := disconnect (snd first) ws in
  (ws ∈ active_connections m ->
     fst first = Ok tt /\ S (size (snd first)) = size m)
  /\ (ws ∉ active_connections m -> first = (Raise ValueError, m))
  /\ second = (Raise ValueError, snd first).
Proof.
  intros first second.
  assert (Habs : forall m', ws ∉ active_connections m' ->
                            disconnect m' ws = (Raise ValueError, m')).
  { intros m' H. unfold disconnect. now rewrite list_remove_first_absent. }
  destruct (decide (ws ∈ active_connections m)) as [Hin|Hout].
  - destruct (list_remove_first_present ws _ Hin) as (l' & Hl' & Hlen & Hnd).
    destruct (Hnd Honce) as [Hgone _].
    assert (Hfirst : first = (Ok tt, {| active_connections := l' |})).
    { subst first. unfold disconnect. now rewrite Hl'. }
    split; [|split].
    + intros _. rewrite Hfirst. cbn. unfold size. cbn. now rewrite Hlen.
    + tauto.
    + subst second. rewrite Hfirst. cbn [snd]. now apply Habs.
  - assert (Hfirst : first = (Raise ValueError, m)) by now apply Habs.
    split; [tauto|]. split; [auto|].
    subst second. rewrite Hfirst. cbn [snd]. now apply Habs.
Qed.

Lemma disconnect_twice_witness :
  let m := mkManager [3; 7; 9]%nat in
  fst (disconnect m 7%nat) = Ok tt
  /\ disconnect (snd (disconnect m 7%nat)) 7%nat
     = (Raise ValueError, snd (disconnect m 7%nat)).
Proof.
  intros m.
  assert (Hnd : NoDup (active_connections m)).
  { apply (bool_decide_unpack _). vm_compute. exact I. }
  destruct (disconnect_twice m 7%nat Hnd) as (H1 & _ & H3).
  split; [|exact H3]. apply H1.
  apply (bool_decide_unpack _). vm_compute. exact I.
Defined.

(** C7 as stated fails: the second [disconnect] of a connection raises. *)
Lemma disconnect_not_idempotent :
  let m := mkManager [7%nat] in
  fst (disconnect m 7%nat) = Ok tt
  /\ fst (disconnect (snd (disconnect m 7%nat)) 7%nat) = Raise ValueError
  /\ fst (disconnect (mkManager []) 7%nat) = Raise ValueError.
Proof. cbn. repeat split; reflexivity. Qed.

(** C8, as the code has it.  [broadcast] sends the message to the
    registered connections in the order of registration, up to the first
    send that fails: the connections sent to are a prefix of the registry on
    which every send succeeded; when the loop ends normally this prefix is
    the whole registry; otherwise the exception of the failing send leaves
    [broadcast], and the failing connection and all after it are not sent
    to. *)
Theorem broadcast_stops_at_first_failure
  (send_text : nat -> string -> result unit) (m : ConnectionManager)
  (message : string) :
  let '(sent, r) := broadcast send_text m message in
  exists rest,
    active_connections m = sent ++ rest
    /\ Forall (fun c => is_ok (send_text c message) = true) sent
    /\ match r with
       | Ok _ => rest = []
       | Raise e => exists c rest', rest = c :: rest'
                                    /\ send_text c message = Raise e
       end.
Proof.
  unfold broadcast. induction (active_connections m) as [|c conns IH]; cbn.
  - exists []. repeat split; constructor.
  - destruct (send_text c message) as [u|e] eqn:Hc.
    + destruct (broadcast_loop send_text message conns) as [sent r].
      destruct IH as (rest & Heq & Hall & Hr). exists rest.
      split; [now rewrite Heq|]. split; [|exact Hr].
      constructor; [now rewrite Hc|exact Hall].
    + exists (c :: conns). split; [reflexivity|]. split; [constructor|].
      exists c, conns. auto.
Qed.

(** C8 as stated fails: connection 2 is healthy and registered, yet gets
    nothing once the send to connection 1 has failed. *)
Lemma broadcast_not_best_effort :
  let send_text := fun (c : nat) (_ : string) =>
    if Nat.eqb c 1 then Raise (OtherError "RuntimeError") else Ok tt in
  let m := mkManager [1; 2]%nat in
  (2%nat ∈ active_connections m)
  /\ send_text 2%nat "payload" = Ok tt
  /\ broadcast send_text m "payload" = ([], Raise (OtherError "RuntimeError"))
  /\ ~ (2%nat ∈ fst (broadcast send_text m "payload")).
Proof.
  cbn. split; [|split; [|split]]; try reflexivity.
  - right. left.
  - apply not_elem_of_nil.
Qed.

End RegistryFacts.

(** ** Session stream *)

Section StreamFacts.

Import Stream.

Lemma count_type_app ty (a b : list event) :
  count_type ty (a ++ b) = (count_type ty a + count_type ty b)%nat.
Proof. unfold count_type. now rewrite filter_app, length_app. Qed.

Lemma stream_chunks_types c words idx : forall acc,
  Forall (fun e => event_type e = "partial_response")
         (stream_chunks c words idx acc).
Proof.
  induction idx as [|i idx IH]; intros acc; cbn; constructor; auto.
Qed.

Lemma count_type_none ty (evs : list event) :
  Forall (fun e => event_type e <> ty) evs -> count_type ty evs = O.
Proof.
  unfold count_type. induction 1 as [|e evs He _ IH]; [reflexivity|].
  now rewrite filter_cons_False.
Qed.

Lemma partial_events_count ty c text :
  ty <> "partial_response" -> count_type ty (partial_events c text) = O.
Proof.
  intros Hty. apply count_type_none. unfold partial_events.
  eapply Forall_impl; [apply stream_chunks_types|].
  intros e He. cbn in He. congruence.
Qed.

(** C4. When the response text is produced, the generator runs to its end;
    the first event is [session_start], the last two events are the
    [final_response] and then the [session_end], there is exactly one event
    of each of these three types, and everything in between is a [thinking]
    or [partial_response] event. *)
Theorem chat_stream_success
  (respond : str -> option str -> result str) (fresh_id : string)
  (msg : ChatMessage) (ai_response : str)
  (Hresp : respond (message msg) (context msg) = Ok ai_response) :
  let '(evs, fin) := generate_response respond fresh_id msg in
  let sid := session_of fresh_id msg in
  fin = Ok tt
  /\ (exists middle,
        evs = session_start sid (language msg) :: middle
              ++ [final_response ai_response (95 # 100) (language msg)
                    "healthcare";
                  session_end sid]
        /\ Forall (fun e => event_type e = "thinking"
                            \/ event_type e = "partial_response") middle)
  /\ count_type "session_start" evs = 1%nat
  /\ count_type "final_response" evs = 1%nat
  /\ count_type "session_end" evs = 1%nat.
Proof.
  unfold generate_response. rewrite Hresp.
  cbn zeta. split; [reflexivity|]. split.
  - exists (thinking "Analyzing your healthcare query..."
            :: partial_events chunk_size ai_response).
    split; [reflexivity|]. constructor; [now left|].
    eapply Forall_impl; [apply stream_chunks_types|]. intros e He. now right.
  - rewrite !count_type_app, !partial_events_count by discriminate.
    repeat split; reflexivity.
Qed.

Lemma chat_stream_success_witness :
  let respond := fun (_ : str) (_ : option str) => Ok [72; 105; 32; 33]%N in
  let msg := mkChatMessage [63]%N "en" (Some "s-1") None in
  generate_response respond "uuid" msg
  = ([session_start "s-1" "en";
      thinking "Analyzing your healthcare query...";
      partial_response [72; 105; 32; 33]%N 1;
      final_response [72; 105; 32; 33]%N (95 # 100) "en" "healthcare";
      session_end "s-1"], Ok tt)
  /\ count_type "final_response" (fst (generate_response respond "uuid" msg))
     = 1%nat.
Proof.
  intros respond msg. split; [reflexivity|].
  pose proof (chat_stream_success respond "uuid" msg [72; 105; 32; 33]%N
                eq_refl) as H.
  destruct (generate_response respond "uuid" msg) as [evs fin].
  destruct H as (_ & _ & _ & H & _). exact H.
Defined.

(** C5, as the code has it.  When [get_healthcare_response] raises, the
    generator has yielded [session_start] and [thinking] and nothing else:
    no [error] event and no [session_end]; the exception leaves the
    generator. *)
Theorem chat_stream_failure
  (respond : str -> option str -> result str) (fresh_id : string)
  (msg : ChatMessage) (e : exn)
  (Hresp : respond (message msg) (context msg) = Raise e) :
  generate_response respond fresh_id msg
  = ([session_start (session_of fresh_id msg) (language msg);
      thinking "Analyzing your healthcare query..."], Raise e)
  /\ count_type "error" (fst (generate_response respond fresh_id msg)) = O
  /\ count_type "session_end" (fst (generate_response respond fresh_id msg)) = O.
Proof.
  unfold generate_response. rewrite Hresp.
  repeat split; reflexivity.
Qed.

Lemma chat_stream_failure_witness :
  let respond := fun (_ : str) (_ : option str) =>
    @Raise str (OtherError "upstream") in
  let msg := mkChatMessage [63]%N "en" None None in
  generate_response respond "uuid" msg
  = ([session_start "uuid" "en";
      thinking "Analyzing your healthcare query..."],
     Raise (OtherError "upstream")).
Proof.
  intros respond msg.
  exact (proj1 (chat_stream_failure respond "uuid" msg
                  (OtherError "upstream") eq_refl)).
Defined.

(** C5 as stated fails: with a response generator that raises, the stream
    holds no event of type [error] and does not end normally. *)
Lemma chat_stream_no_error_event :
  let respond := fun (_ : str) (_ : option str) =>
    @Raise str (OtherError "upstream") in
  let msg := mkChatMessage [63]%N "en" None None in
  let '(evs, fin) := generate_response respond "uuid" msg in
  ~ (exists ev, ev ∈ evs /\ event_type ev = "error")
  /\ fin <> Ok tt.
Proof.
  cbn. split; [|discriminate].
  intros (ev & Hin & Hty).
  apply elem_of_cons in Hin as [->|Hin]; [discriminate|].
  apply elem_of_cons in Hin as [->|Hin]; [discriminate|].
  now apply elem_of_nil in Hin.
Qed.

End StreamFacts.

(** ** The chunks of the session stream *)

Section StreamChunks.

Import Stream.

(** *** Words *)

Lemma split_from_words (s : str) : forall word,
  Forall (fun c => isspace c = false) word ->
  Forall is_word (split_from word s).
Proof.
  assert (Hrev : forall w : str, w <> [] ->
            Forall (fun c => isspace c = false) w -> is_word (rev w)).
  { intros w Hne Hw. split.
    - intros Hnil. apply Hne. apply (f_equal (@rev N)) in Hnil.
      now rewrite rev_involutive in Hnil.
    - apply Forall_forall. intros c Hc. rewrite Forall_forall in Hw.
      apply Hw. apply list_elem_of_In. apply in_rev.
      now apply list_elem_of_In. }
  induction s as [|c rest IH]; intros word Hword; cbn.
  - destruct word; constructor; [|constructor]. now apply Hrev.
  - destruct (isspace c) eqn:Hc.
    + destruct word; [now apply IH|].
      constructor; [now apply Hrev|]. now apply IH.
    + apply IH. now constructor.
Qed.

Lemma split_words (s : str) : Forall is_word (split s).
Proof. apply split_from_words. constructor. Qed.

(** *** Joining and stripping *)

Lemma join_spaced (ws : list str) :
  ws <> [] -> join [SPACE] ws ++ [SPACE] = spaced ws.
Proof.
  induction ws as [|w ws IH]; [congruence|]. intros _.
  destruct ws as [|w' ws]; [cbn; now rewrite app_nil_r|].
  change (join [SPACE] (w :: w' :: ws))
    with (w ++ [SPACE] ++ join [SPACE] (w' :: ws)).
  change (spaced (w :: w' :: ws)) with ((w ++ [SPACE]) ++ spaced (w' :: ws)).
  rewrite <- IH by discriminate. now rewrite <- !app_assoc.
Qed.

Lemma spaced_app (a b : list str) : spaced (a ++ b) = spaced a ++ spaced b.
Proof. unfold spaced. now rewrite map_app, concat_app. Qed.

Lemma lstrip_word_head (c : N) (s : str) :
  isspace c = false -> lstrip (c :: s) = c :: s.
Proof. intros H. cbn. now rewrite H. Qed.

Lemma join_head (ws : list str) :
  ws <> [] -> Forall is_word ws ->
  exists c s, join [SPACE] ws = c :: s /\ isspace c = false.
Proof.
  destruct ws as [|w ws]; [congruence|]. intros _ Hws.
  inversion Hws as [|? ? [Hne Hw] _]; subst.
  destruct w as [|c w]; [congruence|]. inversion Hw; subst.
  destruct ws; cbn; eauto.
Qed.

Lemma join_last (ws : list str) :
  ws <> [] -> Forall is_word ws ->
  exists s c, join [SPACE] ws = s ++ [c] /\ isspace c = false.
Proof.
  induction ws as [|w ws IH]; [congruence|]. intros _ Hws.
  inversion Hws as [|? ? [Hne Hw] Hrest]; subst.
  destruct ws as [|w' ws].
  - cbn. destruct (exists_last Hne) as (s & c & ->). exists s, c.
    split; [reflexivity|]. apply Forall_app in Hw as [_ Hc].
    now inversion Hc.
  - destruct (IH ltac:(discriminate) Hrest) as (s & c & Hj & Hc).
    change (join [SPACE] (w :: w' :: ws))
      with (w ++ [SPACE] ++ join [SPACE] (w' :: ws)).
    rewrite Hj. exists (w ++ [SPACE] ++ s), c.
    split; [now rewrite <- !app_assoc|exact Hc].
Qed.

Lemma isspace_SPACE : isspace SPACE = true.
Proof. reflexivity. Qed.

Lemma strip_spaced (ws : list str) :
  ws <> [] -> Forall is_word ws -> strip (spaced ws) = join [SPACE] ws.
Proof.
  intros Hne Hws. rewrite <- join_spaced by assumption.
  destruct (join_head ws Hne Hws) as (c & s & Hhead & Hc).
  destruct (join_last ws Hne Hws) as (s' & c' & Hlast & Hc').
  unfold strip.
  assert (H1 : lstrip (join [SPACE] ws ++ [SPACE]) = join [SPACE] ws ++ [SPACE]).
  { rewrite Hhead. cbn. now rewrite Hc. }
  rewrite H1, rev_app_distr. cbn [rev app lstrip]. rewrite isspace_SPACE.
  rewrite Hlast at 1. rewrite rev_app_distr. cbn [rev app].
  rewrite lstrip_word_head by assumption.
  change (c' :: rev s') with (rev [c'] ++ rev s').
  rewrite <- rev_app_distr, rev_involutive. now rewrite <- Hlast.
Qed.

(** *** The indices of the loop *)

Lemma ceil_div_zero (c : nat) : (1 <= c)%nat -> ceil_div 0 c = O.
Proof. intros Hc. unfold ceil_div. apply Nat.div_small. lia. Qed.

Lemma ceil_div_step (m c : nat) :
  (1 <= c)%nat -> (1 <= m)%nat -> ceil_div m c = S (ceil_div (m - c) c).
Proof.
  intros Hc Hm. unfold ceil_div.
  destruct (Nat.le_gt_cases m c) as [Hle|Hgt].
  - replace (m - c)%nat with O by lia.
    replace (m + c - 1)%nat with ((m - 1) + 1 * c)%nat by lia.
    rewrite Nat.div_add by lia.
    rewrite (Nat.div_small (m - 1)) by lia.
    rewrite (Nat.div_small (0 + c - 1)) by lia. reflexivity.
  - replace (m + c - 1)%nat with ((m - c + c - 1) + 1 * c)%nat by lia.
    rewrite Nat.div_add by lia. lia.
Qed.

(** [ceil_div] is the ceiling of the quotient. *)
Lemma ceil_div_bounds (n c : nat) :
  (1 <= c)%nat -> (1 <= n)%nat ->
  ((ceil_div n c - 1) * c < n <= ceil_div n c * c)%nat.
Proof.
  intros Hc Hn. unfold ceil_div.
  pose proof (Nat.div_mod_eq (n + c - 1) c) as Hdm.
  pose proof (Nat.mod_upper_bound (n + c - 1) c ltac:(lia)) as Hmod.
  set (q := ((n + c - 1) / c)%nat) in *.
  set (r := ((n + c - 1) mod c)%nat) in *.
  assert (1 <= q)%nat by (destruct q; nia).
  split; nia.
Qed.

Lemma range_from_closed (c stop : nat) : forall fuel i,
  (1 <= c)%nat -> (stop - i <= fuel)%nat ->
  range_from fuel i stop c
  = map (fun k => (i + k * c)%nat) (seq 0 (ceil_div (stop - i) c)).
Proof.
  induction fuel as [|fuel IH]; intros i Hc Hfuel.
  - replace (stop - i)%nat with O by lia. now rewrite ceil_div_zero.
  - cbn [range_from]. destruct (Nat.ltb_spec i stop) as [Hlt|Hge].
    + rewrite ceil_div_step by lia. cbn [seq map].
      rewrite Nat.add_0_r. f_equal.
      rewrite IH by lia. rewrite <- seq_shift, map_map.
      replace (stop - i - c)%nat with (stop - (i + c))%nat by lia.
      apply map_ext. intros k. lia.
    + replace (stop - i)%nat with O by lia. now rewrite ceil_div_zero.
Qed.

Lemma range_closed (n c : nat) :
  (1 <= c)%nat ->
  range 0 n c = map (fun k => (k * c)%nat) (seq 0 (ceil_div n c)).
Proof.
  intros Hc. unfold range. rewrite range_from_closed by lia.
  now rewrite Nat.sub_0_r.
Qed.

(** *** The events of the loop *)

Lemma stream_chunks_closed (c : nat) (words : list str) :
  (1 <= c)%nat -> Forall is_word words ->
  forall n k0,
  (forall k, (k0 <= k < k0 + n)%nat -> (k * c < length words)%nat) ->
  stream_chunks c words (map (fun k => (k * c)%nat) (seq k0 n))
                (spaced (take (k0 * c) words))
  = map (chunk_event c words) (seq k0 n).
Proof.
  intros Hc Hwords. induction n as [|n IH]; intros k0 Hlt; [reflexivity|].
  cbn [seq map stream_chunks].
  assert (Hk0 : (k0 * c < length words)%nat) by (apply Hlt; lia).
  set (chunk := take c (drop (k0 * c) words)).
  assert (Hchunk : chunk <> []).
  { intros Hnil. apply (f_equal (@length str)) in Hnil.
    subst chunk. rewrite length_take, length_drop in Hnil. cbn in Hnil. lia. }
  assert (Hacc : spaced (take (k0 * c) words) ++ join [SPACE] chunk ++ [SPACE]
                 = spaced (take (S k0 * c) words)).
  { rewrite join_spaced by assumption. rewrite <- spaced_app. subst chunk.
    rewrite take_take_drop. f_equal. f_equal. lia. }
  rewrite Hacc. f_equal.
  - unfold chunk_event. f_equal.
    replace ((k0 + 1) * c)%nat with (S k0 * c)%nat by lia.
    apply strip_spaced.
    + intros Hnil. apply (f_equal (@length str)) in Hnil.
      rewrite length_take in Hnil. cbn [length] in Hnil. nia.
    + now apply Forall_take.
  - apply IH. intros k Hk. apply Hlt. lia.
Qed.

Lemma partial_events_closed (c : nat) (text : str) :
  (1 <= c)%nat ->
  partial_events c text
  = map (chunk_event c (split text))
        (seq 0 (ceil_div (length (split text)) c)).
Proof.
  intros Hc. unfold partial_events. rewrite range_closed by assumption.
  apply (stream_chunks_closed c (split text) Hc (split_words text) _ 0%nat).
  intros k [_ Hk]. cbn in Hk.
  destruct (Nat.eq_dec (length (split text)) 0%nat) as [H0|Hn0].
  - rewrite H0, ceil_div_zero in Hk by assumption. lia.
  - pose proof (ceil_div_bounds (length (split text)) c Hc ltac:(lia)). nia.
Qed.

(** *** Progress *)

Lemma progress_at_mono (c n i j : nat) :
  (i <= j)%nat -> (progress_at c n i <= progress_at c n j)%Q.
Proof.
  intros Hij. unfold progress_at. apply Q.min_le_compat_r.
  unfold Qle. cbn. nia.
Qed.

Lemma progress_at_full (c n i : nat) :
  (1 <= n)%nat -> (n <= i + c)%nat -> (progress_at c n i == 1)%Q.
Proof.
  intros Hn Hi. unfold progress_at. apply Q.min_r.
  unfold Qle. cbn. rewrite <- (positive_nat_Z (Pos.of_nat n)), Nat2Pos.id by lia. lia.
Qed.

Lemma progress_values_chunks (c : nat) (words : list str) (ks : list nat) :
  progress_values (map (chunk_event c words) ks)
  = map (fun k => progress_at c (length words) (k * c)) ks.
Proof. induction ks as [|k ks IH]; [reflexivity|]. cbn. now rewrite <- IH. Qed.

(** C3. For a response text of [n >= 1] words streamed with a chunk size
    [c >= 1], there are exactly [ceil (n / c)] [partial_response] events;
    the [k]-th carries the first [(k+1) * c] words (all of them once these
    are fewer) joined by single spaces, that is all the words sent so far;
    the progress values never decrease, and the last one is 1.  The
    generator of /chat yields these events for [c = chunk_size]. *)
Theorem partial_responses_progress (c : nat) (text : str)
  (Hc : (1 <= c)%nat) (Hn : (1 <= length (split text))%nat) :
  let words := split text in
  let n := length words in
  let evs := partial_events c text in
  let ps := progress_values evs in
  length evs = ceil_div n c
  /\ ((ceil_div n c - 1) * c < n <= ceil_div n c * c)%nat
  /\ (forall k, (k < ceil_div n c)%nat ->
        evs !! k = Some (partial_response
                           (join [SPACE] (take ((k + 1) * c) words))
                           (progress_at c n (k * c))))
  /\ (forall i j p q, (i <= j)%nat -> ps !! i = Some p -> ps !! j = Some q ->
        (p <= q)%Q)
  /\ (exists p, last ps = Some p /\ (p == 1)%Q)
  /\ (forall respond fresh_id msg,
        respond (message msg) (context msg) = Ok text ->
        filter (fun e => event_type e = "partial_response")
               (fst (generate_response respond fresh_id msg))
        = partial_events chunk_size text).
Proof.
  intros words n evs ps.
  pose proof (ceil_div_bounds n c Hc Hn) as Hceil.
  assert (Hevs : evs = map (chunk_event c words) (seq 0 (ceil_div n c)))
    by (apply partial_events_closed; assumption).
  assert (Hps : ps = map (fun k => progress_at c n (k * c)%nat)
                         (seq 0 (ceil_div n c))).
  { subst ps. rewrite Hevs. apply progress_values_chunks. }
  assert (Hlook : forall i p, ps !! i = Some p ->
            p = progress_at c n (i * c) /\ (i < ceil_div n c)%nat).
  { intros i p Hi. rewrite Hps in Hi.
    apply list_lookup_fmap_Some in Hi as (k & -> & Hk).
    apply lookup_seq in Hk as [-> Hk]. auto. }
  split; [now rewrite Hevs, length_map, length_seq|].
  split; [exact Hceil|]. split; [|split; [|split]].
  - intros k Hk. rewrite Hevs. change (map ?f ?l) with (f <$> l).
    rewrite list_lookup_fmap. rewrite lookup_seq_lt by assumption.
    reflexivity.
  - intros i j p q Hij Hi Hj.
    apply Hlook in Hi as [-> _]. apply Hlook in Hj as [-> _].
    apply progress_at_mono. nia.
  - exists (progress_at c n ((ceil_div n c - 1) * c)). split.
    + rewrite Hps.
      replace (ceil_div n c) with (S (ceil_div n c - 1)) at 1 by lia.
      rewrite seq_S, map_app. cbn [map]. now rewrite last_snoc.
    + apply progress_at_full; [assumption|]. nia.
  - intros respond fresh_id msg Hresp. unfold generate_response.
    rewrite Hresp. cbn [fst]. cbn [app]. rewrite !filter_cons_False by discriminate.
    rewrite filter_app. cbn [filter]. 
    rewrite (filter_cons_False _ (final_response _ _ _ _)) by discriminate.
    rewrite (filter_cons_False _ (session_end _)) by discriminate.
    rewrite filter_nil, app_nil_r.
    apply filter_all_kept. apply stream_chunks_types.
Qed.

Lemma partial_responses_progress_witness :
  let text := [97; 32; 98; 32; 99; 32; 100; 32; 101; 32; 102; 32; 103; 32;
               104; 32; 105; 32; 106; 32; 107]%N in
  length (split text) = 11%nat
  /\ length (partial_events chunk_size text) = 2%nat
  /\ exists p, last (progress_values (partial_events chunk_size text)) = Some p
               /\ (p == 1)%Q.
Proof.
  intros text.
  destruct (partial_responses_progress chunk_size text)
    as (H1 & _ & _ & _ & H5 & _).
  - unfold chunk_size. lia.
  - vm_compute. lia.
  - split; [reflexivity|]. split; [exact H1|exact H5].
Defined.

End StreamChunks.

(** ** Token service *)

Section TokenFacts.

Import RateLimiter Token.

Variable cfg : config.
Variable lib : crypto.

Lemma rsplit_dot_none (s : string) : has_dot s = false -> rsplit_dot s = None.
Proof.
  induction s as [|c s IH]; [reflexivity|]. cbn. intros H.
  apply orb_false_iff in H as [Hc Hs]. now rewrite IH, Hc.
Qed.

Lemma rsplit_dot_app (a b : string) :
  has_dot b = false -> rsplit_dot (a ++ "." ++ b)%string = Some (a, b).
Proof.
  intros Hb. induction a as [|c a IH].
  - change (rsplit_dot (String "." b) = Some (EmptyString, b)).
    cbn [rsplit_dot]. rewrite (rsplit_dot_none b) by assumption. reflexivity.
  - change (rsplit_dot (String c (a ++ "." ++ b)) = Some (String c a, b)).
    cbn [rsplit_dot]. now rewrite IH.
Qed.

Lemma python_int_raises v e :
  python_int lib v = Raise e -> e = ValueError \/ exists w, e = OtherError w.
Proof.
  destruct v as [s| | | | |[q| |]|]; cbn; try discriminate;
    try (intros [= <-]; eauto).
  destruct (int_of_str lib s); [discriminate|]. intros [= <-]. auto.
Qed.

Lemma raise_of_raises v e :
  raise_of v = Raise e -> e = JWTError \/ exists w, e = OtherError w.
Proof. destruct v; cbn; try discriminate; intros [= <-]; eauto. Qed.

(** The check of [exp] refuses with a [JWTError] or lets out what [int]
    raised. *)
Lemma validate_exp_raises now claims e :
  validate_exp lib now claims = Raise e ->
  e = JWTError \/ exists w, e = OtherError w.
Proof.
  unfold validate_exp. destruct (claims !! "exp") as [v|]; [|discriminate].
  destruct (python_int lib v) as [n|e'] eqn:Hint.
  - destruct (n <? now); [|discriminate]. intros [= <-]. auto.
  - apply python_int_raises in Hint as [->|[w ->]]; intros [= <-]; eauto.
Qed.

Lemma validate_sub_raises claims e :
  validate_sub claims = Raise e -> e = JWTError.
Proof.
  unfold validate_sub.
  destruct (claims !! "sub") as [[]|]; try discriminate; now intros [= <-].
Qed.

Lemma validate_claims_raises now claims e :
  validate_claims lib now claims = Raise e ->
  e = JWTError \/ exists w, e = OtherError w.
Proof.
  unfold validate_claims.
  destruct (raise_of (validate_iat_nbf lib now claims)) as [[]|e1] eqn:H1.
  2:{ intros [= <-]. eapply raise_of_raises, H1. }
  destruct (validate_exp lib now claims) as [[]|e2] eqn:H2.
  2:{ intros [= <-]. eapply validate_exp_raises, H2. }
  destruct (raise_of (validate_aud_iss lib claims)) as [[]|e3] eqn:H3.
  2:{ intros [= <-]. eapply raise_of_raises, H3. }
  destruct (validate_sub claims) as [[]|e4] eqn:H4.
  2:{ intros [= <-]. left. eapply validate_sub_raises, H4. }
  apply raise_of_raises.
Qed.

(** Claims that pass have passed the checks of [exp] and [sub]. *)
Lemma validate_claims_ok now claims :
  validate_claims lib now claims = Ok tt ->
  validate_exp lib now claims = Ok tt /\ validate_sub claims = Ok tt.
Proof.
  unfold validate_claims.
  destruct (raise_of (validate_iat_nbf lib now claims)) as [[]|]; [|discriminate].
  destruct (validate_exp lib now claims) as [[]|]; [|discriminate].
  destruct (raise_of (validate_aud_iss lib claims)) as [[]|]; [|discriminate].
  destruct (validate_sub claims) as [[]|]; [|discriminate]. auto.
Qed.

Lemma validate_claims_pass now claims :
  checks_pass lib now claims ->
  validate_exp lib now claims = Ok tt -> validate_sub claims = Ok tt ->
  validate_claims lib now claims = Ok tt.
Proof.
  intros (H1 & H2 & H3) He Hs. unfold validate_claims.
  now rewrite H1, He, H2, Hs, H3.
Qed.

(** Claims with an expiry that has passed are refused, unless an earlier
    check lets out an exception. *)
Lemma validate_claims_expired now claims v e :
  (forall w, validate_iat_nbf lib now claims <> crashes w) ->
  claims !! "exp" = Some v -> python_int lib v = Ok e -> e < now ->
  validate_claims lib now claims = Raise JWTError.
Proof.
  intros Hfirst Hexp Hint Hlate. unfold validate_claims, validate_exp.
  destruct (validate_iat_nbf lib now claims) as [| |w] eqn:H1; cbn.
  - rewrite Hexp, Hint. destruct (Z.ltb_spec e now); [reflexivity|lia].
  - reflexivity.
  - now destruct (Hfirst w).
Qed.

(** The library fails with a [JWTError] or with another exception of its
    own, never with an HTTP error. *)
Lemma jwt_decode_raises now token key e :
  jwt_decode lib now token key = Raise e ->
  e = JWTError \/ exists w, e = OtherError w.
Proof.
  unfold jwt_decode.
  destruct (rsplit_dot token) as [[si sg]|]; [|intros [= <-]; auto].
  destruct (negb _); [intros [= <-]; auto|].
  destruct (claims_of_segments lib si) as [claims|]; [|intros [= <-]; auto].
  destruct (validate_claims lib now claims) as [[]|e'] eqn:Hv; [discriminate|].
  intros [= <-]. eapply validate_claims_raises, Hv.
Qed.

(** An accepted payload has passed every check of the library. *)
Lemma jwt_decode_ok now token key payload :
  jwt_decode lib now token key = Ok payload ->
  exists si sg,
    rsplit_dot token = Some (si, sg)
    /\ sg = mac lib key si
    /\ claims_of_segments lib si = Some payload
    /\ validate_exp lib now payload = Ok tt
    /\ validate_sub payload = Ok tt.
Proof.
  unfold jwt_decode.
  destruct (rsplit_dot token) as [[si sg]|]; [|congruence].
  destruct (String.eqb_spec sg (mac lib key si)) as [Hsg|];
    cbn [negb]; [|congruence].
  destruct (claims_of_segments lib si) as [claims|] eqn:Hc; [|congruence].
  destruct (validate_claims lib now claims) as [[]|] eqn:Hv; [|congruence].
  intros [= <-]. apply validate_claims_ok in Hv as [He Hs].
  exists si, sg. repeat split; assumption.
Qed.

Lemma jwt_decode_sub now token key payload :
  jwt_decode lib now token key = Ok payload ->
  payload !! "sub" = None \/ exists s, payload !! "sub" = Some (VStr s).
Proof.
  intros H. apply jwt_decode_ok in H as (_ & _ & _ & _ & _ & _ & Hs).
  unfold validate_sub in Hs.
  destruct (payload !! "sub") as [[]|]; try discriminate; eauto.
Qed.

(** A token with a fitting signature and a readable content is judged by
    the checks of its claims. *)
Lemma jwt_decode_signed now token key si sg claims :
  rsplit_dot token = Some (si, sg) -> sg = mac lib key si ->
  claims_of_segments lib si = Some claims ->
  jwt_decode lib now token key
  = match validate_claims lib now claims with
    | Ok _ => Ok claims
    | Raise e => Raise e
    end.
Proof.
  intros Hsplit -> Hclaims. unfold jwt_decode.
  now rewrite Hsplit, String.eqb_refl, Hclaims.
Qed.

Lemma jwt_decode_encoded now claims key :
  dotless lib key claims -> readable lib claims ->
  jwt_decode lib now (jwt_encode lib claims key) key
  = match validate_claims lib now claims with
    | Ok _ => Ok claims
    | Raise e => Raise e
    end.
Proof.
  intros Hdot Hread. apply jwt_decode_signed with
    (si := segments_of_claims lib claims)
    (sg := mac lib key (segments_of_claims lib claims)).
  - unfold jwt_encode. now apply rsplit_dot_app.
  - reflexivity.
  - exact Hread.
Qed.

(** [decode_token] fails with the 401 error, or with an exception of the
    library that is not a [JWTError], which it passes on. *)
Lemma decode_token_raises now token e :
  decode_token cfg lib now token = Raise e ->
  e = credentials_exception
  \/ exists w, e = OtherError w
               /\ jwt_decode lib now token (SECRET_KEY cfg)
                  = Raise (OtherError w).
Proof.
  unfold decode_token.
  destruct (jwt_decode lib now token (SECRET_KEY cfg)) as [payload|e'] eqn:Hd.
  - destruct (payload !! "sub") as [[]|]; intros [= <-]; auto.
  - destruct (jwt_decode_raises _ _ _ _ Hd) as [->|[w ->]]; intros [= <-];
      eauto.
Qed.

Lemma decode_token_jwt_error now token :
  jwt_decode lib now token (SECRET_KEY cfg) = Raise JWTError ->
  decode_token cfg lib now token = Raise credentials_exception.
Proof. unfold decode_token. now intros ->. Qed.

(** What the library lets out, [decode_token] lets out. *)
Lemma decode_token_other_error now token w :
  jwt_decode lib now token (SECRET_KEY cfg) = Raise (OtherError w) ->
  decode_token cfg lib now token = Raise (OtherError w).
Proof. unfold decode_token. now intros ->. Qed.

Lemma decode_token_issued now' (claims : gmap string claim_value) subject :
  dotless lib (SECRET_KEY cfg) claims -> readable lib claims ->
  validate_exp lib now' claims = Ok tt ->
  claims !! "sub" = Some (VStr subject) ->
  checks_pass lib now' claims ->
  decode_token cfg lib now' (jwt_encode lib claims (SECRET_KEY cfg))
  = Ok {| sub := subject; scopes := default (VList []) (claims !! "scopes") |}.
Proof.
  intros Hdot Hread Hexp Hsub Hother. unfold decode_token.
  rewrite jwt_decode_encoded by assumption.
  rewrite validate_claims_pass; try assumption.
  - now rewrite Hsub.
  - unfold validate_sub. now rewrite Hsub.
Qed.

(** A token with a fitting signature whose claims the library refuses, or
    lets through without a subject, is answered with the 401 error. *)
Lemma decode_token_parsed now token si sg claims :
  rsplit_dot token = Some (si, sg) ->
  claims_of_segments lib si = Some claims ->
  validate_claims lib now claims = Raise JWTError
  \/ (claims !! "sub" = None
      /\ forall w, validate_claims lib now claims <> Raise (OtherError w)) ->
  decode_token cfg lib now token = Raise credentials_exception.
Proof.
  intros Hsplit Hclaims Hbad. unfold decode_token, jwt_decode.
  rewrite Hsplit. destruct (negb _); [reflexivity|]. rewrite Hclaims.
  destruct Hbad as [->|[Hsub Hcalm]]; [reflexivity|].
  destruct (validate_claims lib now claims) as [[]|e] eqn:Hv.
  - now rewrite Hsub.
  - destruct (validate_claims_raises _ _ _ Hv) as [->|[w ->]];
      [reflexivity|]. now destruct (Hcalm w).
Qed.

Import Auth.

(** What holds of the token service.  A token issued for a subject, by
    [create_access_token] or through the token endpoint, validates to that
    subject until it expires.  [decode_token] answers with the 401 error
    for an issued token whose expiry has passed and for a token carrying an
    expiry that has passed (when the checks before that of the expiry let
    out no exception), for a token signed with another secret, for a token
    that has no dot, an unreadable content or a signature that does not fit
    its content, and for a token without a subject whose claims let out no
    exception.  When [decode_token] fails it is with the 401 error or with
    an exception of the library that is not a [JWTError]. *)
Theorem token_round_trip :
  (forall now now' subject,
     let claims :=
       <["exp" := VInt (now + lifetime cfg None)]> {["sub" := VStr subject]} in
     dotless lib (SECRET_KEY cfg) claims -> readable lib claims ->
     checks_pass lib now' claims ->
     now' <= now + lifetime cfg None ->
     decode_token cfg lib now'
       (create_access_token cfg lib now {["sub" := VStr subject]} None)
     = Ok {| sub := subject; scopes := VList [] |})
  /\ (forall now_utc now now' username password client rl token rl',
       let claims :=
         <["exp" := VInt (now_utc + lifetime cfg None)]>
           {["sub" := VStr username]} in
       login_for_access_token cfg lib now_utc now username password client rl
       = (Ok token, rl') ->
       dotless lib (SECRET_KEY cfg) claims -> readable lib claims ->
       checks_pass lib now' claims ->
       now' <= now_utc + lifetime cfg None ->
       decode_token cfg lib now' token
       = Ok {| sub := username; scopes := VList [] |})
  /\ (forall now now' data expires_delta,
       let claims := <["exp" := VInt (now + lifetime cfg expires_delta)]> data in
       dotless lib (SECRET_KEY cfg) claims -> readable lib claims ->
       (forall w, validate_iat_nbf lib now' claims <> crashes w) ->
       now + lifetime cfg expires_delta < now' ->
       decode_token cfg lib now'
         (create_access_token cfg lib now data expires_delta)
       = Raise credentials_exception)
  /\ (forall now token si sg claims e,
       rsplit_dot token = Some (si, sg) ->
       claims_of_segments lib si = Some claims ->
       (forall w, validate_iat_nbf lib now claims <> crashes w) ->
       claims !! "exp" = Some (VInt e) -> e < now ->
       decode_token cfg lib now token = Raise credentials_exception)
  /\ (forall now claims key',
       dotless lib key' claims ->
       mac lib key' (segments_of_claims lib claims)
       <> mac lib (SECRET_KEY cfg) (segments_of_claims lib claims) ->
       decode_token cfg lib now (jwt_encode lib claims key')
       = Raise credentials_exception)
  /\ (forall now token,
       match rsplit_dot token with
       | None => True
       | Some (si, sg) =>
           sg <> mac lib (SECRET_KEY cfg) si
           \/ claims_of_segments lib si = None
       end ->
       decode_token cfg lib now token = Raise credentials_exception)
  /\ (forall now token si sg claims,
       rsplit_dot token = Some (si, sg) ->
       claims_of_segments lib si = Some claims ->
       claims !! "sub" = None ->
       (forall w, validate_claims lib now claims <> Raise (OtherError w)) ->
       decode_token cfg lib now token = Raise credentials_exception)
  /\ (forall now token e,
       decode_token cfg lib now token = Raise e ->
       e = credentials_exception
       \/ exists w, e = OtherError w
                    /\ jwt_decode lib now token (SECRET_KEY cfg)
                       = Raise (OtherError w)).
Proof.
  assert (Hissued : forall now now' subject,
     let claims :=
       <["exp" := VInt (now + lifetime cfg None)]> {["sub" := VStr subject]} in
     dotless lib (SECRET_KEY cfg) claims -> readable lib claims ->
     checks_pass lib now' claims ->
     now' <= now + lifetime cfg None ->
     decode_token cfg lib now'
       (create_access_token cfg lib now {["sub" := VStr subject]} None)
     = Ok {| sub := subject; scopes := VList [] |}).
  { intros now now' subject claims Hdot Hread Hother Hle.
    unfold create_access_token. fold claims.
    rewrite (decode_token_issued now' claims subject); try assumption.
    - reflexivity.
    - unfold validate_exp, claims. rewrite lookup_insert_eq.
      cbn [python_int].
      destruct (Z.ltb_spec (now + lifetime cfg None) now'); [lia|reflexivity].
    - unfold claims. rewrite lookup_insert_ne by discriminate.
      apply lookup_singleton_eq. }
  split; [exact Hissued|]. split; [|split; [|split; [|split; [|split; [|split]]]]].
  - intros now_utc now now' username password client rl token rl' claims Hlogin.
    unfold login_for_access_token in Hlogin.
    destruct (authenticate_user cfg lib username password) as [[|]|];
      try discriminate.
    destruct (hit rl (rate_key username client) now) as [[[]|] rl1];
      try discriminate.
    injection Hlogin as <- <-. apply Hissued.
  - intros now now' data delta claims Hdot Hread Hfirst Hlate.
    unfold create_access_token. fold claims.
    apply decode_token_jwt_error. rewrite jwt_decode_encoded by assumption.
    rewrite (validate_claims_expired now' claims
               (VInt (now + lifetime cfg delta)) (now + lifetime cfg delta));
      try assumption; try reflexivity.
    unfold claims. apply lookup_insert_eq.
  - intros now token si sg claims e Hsplit Hclaims Hfirst Hexp Hlate.
    eapply decode_token_parsed; eauto. left.
    now apply (validate_claims_expired now claims (VInt e) e).
  - intros now claims key' Hdot Hmac. apply decode_token_jwt_error.
    unfold jwt_decode, jwt_encode. rewrite rsplit_dot_app by exact Hdot.
    destruct (String.eqb_spec (mac lib key' (segments_of_claims lib claims))
                (mac lib (SECRET_KEY cfg) (segments_of_claims lib claims)));
      [contradiction|reflexivity].
  - intros now token Hbad. apply decode_token_jwt_error. unfold jwt_decode.
    destruct (rsplit_dot token) as [[si sg]|]; [|reflexivity].
    destruct (String.eqb_spec sg (mac lib (SECRET_KEY cfg) si)) as [Heq|Hne];
      cbn [negb]; [|reflexivity].
    destruct Hbad as [Hbad|Hbad]; [contradiction|]. now rewrite Hbad.
  - intros now token si sg claims Hsplit Hclaims Hsub Hcalm.
    eapply decode_token_parsed; eauto.
  - intros now token e. apply decode_token_raises.
Qed.

(** A token with a fitting signature whose [exp] is [null]: the library
    computes [int(None)], and the [TypeError] leaves [decode_token]. *)
Lemma decode_token_int_none now token si sg claims :
  rsplit_dot token = Some (si, sg) ->
  sg = mac lib (SECRET_KEY cfg) si ->
  claims_of_segments lib si = Some claims ->
  validate_iat_nbf lib now claims = passes ->
  claims !! "exp" = Some VNull ->
  decode_token cfg lib now token = Raise (OtherError "TypeError").
Proof.
  intros Hsplit Hsig Hclaims Hfirst Hexp. apply decode_token_other_error.
  rewrite (jwt_decode_signed now token _ si sg claims) by assumption.
  unfold validate_claims, validate_exp. now rewrite Hfirst, Hexp.
Qed.

(** C2, where the code departs from it.  [decode_token] catches the
    [JWTError] only.  For a token with a fitting signature whose payload
    holds [exp] as [null], the library computes [int(None)] and lets the
    [TypeError] out, and so does [decode_token]: validation fails, but not
    with the 401 error, whether the payload names a subject or not, and the
    guard of the protected endpoints passes the exception on without
    consulting the limiter. *)
Theorem decode_token_null_expiry (now : Z) (token si sg : string)
  (claims : gmap string claim_value) :
  rsplit_dot token = Some (si, sg) ->
  sg = mac lib (SECRET_KEY cfg) si ->
  claims_of_segments lib si = Some claims ->
  validate_iat_nbf lib now claims = passes ->
  claims !! "exp" = Some VNull ->
  decode_token cfg lib now token = Raise (OtherError "TypeError")
  /\ decode_token cfg lib now token <> Raise credentials_exception
  /\ forall now' client rl,
       secure_endpoint cfg lib now now' token client rl
       = (Raise (OtherError "TypeError"), rl).
Proof.
  intros Hsplit Hsig Hclaims Hfirst Hexp.
  pose proof (decode_token_int_none now token si sg claims Hsplit Hsig
                Hclaims Hfirst Hexp) as Hd.
  split; [exact Hd|]. split; [rewrite Hd; discriminate|].
  intros now' client rl. unfold secure_endpoint. now rewrite Hd.
Qed.

End TokenFacts.

Section TokenExample.

Import Token Auth Examples.

Lemma token_round_trip_witness :
  decode_token example_config example_crypto 2000
    (create_access_token example_config example_crypto 1000
       {["sub" := VStr "nphies_service"]} None)
  = Ok {| sub := "nphies_service"; scopes := VList [] |}
  /\ decode_token example_config example_crypto 5000
       (create_access_token example_config example_crypto 1000
          {["sub" := VStr "nphies_service"]} None)
     = Raise credentials_exception
  /\ decode_token example_config example_crypto 2000
       (jwt_encode example_crypto example_claims "another-secret")
     = Raise credentials_exception
  /\ decode_token example_config example_crypto 2000 "no-dots-at-all"
     = Raise credentials_exception.
Proof.
  destruct (token_round_trip example_config example_crypto)
    as (H1 & _ & H3 & _ & H5 & H6 & _).
  split; [|split; [|split]].
  - apply H1; [reflexivity|reflexivity|repeat split|].
    vm_compute. discriminate.
  - apply H3; [reflexivity|reflexivity|discriminate|]. vm_compute. reflexivity.
  - apply H5; [reflexivity|]. cbn. discriminate.
  - apply H6. exact I.
Defined.

Lemma decode_token_null_expiry_witness :
  let token := "h.n.change-me-in-production" in
  decode_token example_config example_crypto 2000 token
  = Raise (OtherError "TypeError")
  /\ decode_token example_config example_crypto 2000 token
     <> Raise credentials_exception
  /\ forall now' client rl,
       secure_endpoint example_config example_crypto 2000 now' token client rl
       = (Raise (OtherError "TypeError"), rl).
Proof.
  intros token.
  apply (decode_token_null_expiry example_config example_crypto 2000 token
           "h.n" "change-me-in-production" null_expiry_claims);
    reflexivity.
Defined.

End TokenExample.

(** ** Auth guard *)

Section AuthFacts.

Import RateLimiter Token Registry Auth.

Variable cfg : config.
Variable lib : crypto.

(** [hit] raises nothing but the 429 error. *)
Lemma hit_raises rl key now e rl' :
  hit rl key now = (Raise e, rl') -> e = rate_limit_exceeded.
Proof.
  rewrite hit_unfold. cbn zeta. destruct (limit rl <=? _); congruence.
Qed.

Lemma lower_char_space (c : ascii) : lower_char c = " "%char -> c = " "%char.
Proof.
  destruct c as [[] [] [] [] [] [] [] []]; vm_compute; congruence.
Qed.

Lemma has_space_lower (s : string) : has_space (lower s) = has_space s.
Proof.
  induction s as [|c s IH]; [reflexivity|]. cbn. rewrite IH. f_equal.
  destruct (Ascii.eqb_spec (lower_char c) " "%char) as [H|H].
  - apply lower_char_space in H as ->. reflexivity.
  - destruct (Ascii.eqb_spec c " "%char) as [->|]; [|reflexivity].
    now exfalso.
Qed.

Lemma has_space_prefix (p s : string) :
  String.prefix p s = true -> has_space p = true -> has_space s = true.
Proof.
  revert s. induction p as [|c p IH]; intros s Hp Hsp; [discriminate|].
  destruct s as [|d s]; [discriminate|]. cbn in Hp.
  destruct (ascii_dec c d) as [->|]; [|discriminate].
  cbn in *. destruct (Ascii.eqb d " "%char); [reflexivity|]. now apply IH.
Qed.

Lemma after_first_space_some (s : string) :
  has_space s = true -> is_Some (after_first_space s).
Proof.
  induction s as [|c s IH]; [discriminate|]. cbn.
  destruct (Ascii.eqb c " "%char); [eauto|exact IH].
Qed.

(** The token of a handshake is always resolved: the header is split only
    when it holds a space. *)
Lemma resolve_token_ok (ws : WebSocket) : is_ok (resolve_token ws) = true.
Proof.
  unfold resolve_token. destruct (truthy (query_token ws)); [reflexivity|].
  destruct (authorization ws) as [h|]; [|reflexivity].
  destruct (truthy (Some h)); [|reflexivity]. cbn [andb].
  destruct (String.prefix "bearer " (lower h)) eqn:Hp; [|reflexivity].
  destruct (after_first_space_some h) as [t ->]; [|reflexivity].
  rewrite <- has_space_lower. eapply has_space_prefix; [exact Hp|reflexivity].
Qed.

Lemma websocket_codes :
  CLOSE_UNAUTHENTICATED <> CLOSE_RATE_LIMITED
  /\ CLOSE_UNAUTHENTICATED <> 1000 /\ CLOSE_RATE_LIMITED <> 1000.
Proof. unfold CLOSE_UNAUTHENTICATED, CLOSE_RATE_LIMITED. lia. Qed.

(** What holds of the admission to /ws/chat.  The handler resolves the
    token, validates it and consults the limiter before anything else.
    Without a token, or with a token [decode_token] answers with the 401
    error, the only action on the socket is a close with code 4401, and the
    limiter and the registry are as before.  When the limiter refuses, the
    only action is a close with code 4429, the limiter has been consulted
    once and the registry is as before.  In both cases the handler returns.
    When [decode_token] lets out another exception, the handler is left
    with it: nothing is done on the socket, and the limiter and the
    registry are as before.  When the call is admitted the limiter has been
    consulted once and the first action on the socket is the accept of the
    registration.  The two close codes differ from each other and from
    1000. *)
Theorem websocket_admission (env : chat_env) (now_utc now : Z)
  (ws : WebSocket) (frames : list inbound) (s : server) :
  let out := websocket_chat cfg lib env now_utc now ws frames s in
  (forall token,
     resolve_token ws = Ok token -> truthy token = false ->
     out = ([ws_close CLOSE_UNAUTHENTICATED], Returned, s))
  /\ (forall t,
       resolve_token ws = Ok (Some t) -> t <> "" ->
       decode_token cfg lib now_utc t = Raise credentials_exception ->
       out = ([ws_close CLOSE_UNAUTHENTICATED], Returned, s))
  /\ (forall t w,
       resolve_token ws = Ok (Some t) -> t <> "" ->
       decode_token cfg lib now_utc t = Raise (OtherError w) ->
       out = ([], Raised (OtherError w), s))
  /\ (forall t td e rl',
       resolve_token ws = Ok (Some t) -> t <> "" ->
       decode_token cfg lib now_utc t = Ok td ->
       hit (rate_limiter s) (rate_key (sub td) (client_host ws)) now
       = (Raise e, rl') ->
       out = ([ws_close CLOSE_RATE_LIMITED], Returned,
              mkServer rl' (manager s)))
  /\ (forall t td rl',
       resolve_token ws = Ok (Some t) -> t <> "" ->
       decode_token cfg lib now_utc t = Ok td ->
       hit (rate_limiter s) (rate_key (sub td) (client_host ws)) now
       = (Ok tt, rl') ->
       exists acts fin m,
         out = (ws_accept :: acts, fin, mkServer rl' m))
  /\ is_ok (resolve_token ws) = true
  /\ CLOSE_UNAUTHENTICATED <> CLOSE_RATE_LIMITED
  /\ CLOSE_UNAUTHENTICATED <> 1000 /\ CLOSE_RATE_LIMITED <> 1000.
Proof.
  intros out.
  assert (Htruthy : forall t, t <> ""%string -> truthy (Some t) = true).
  { intros t Ht. cbn. now destruct (String.eqb_spec t ""). }
  destruct s as [rl m]. subst out. unfold websocket_chat, secure_websocket.
  cbn [rate_limiter manager].
  split; [|split; [|split; [|split; [|split; [|split]]]]].
  - intros token -> ->. reflexivity.
  - intros t -> Ht Hd. rewrite Htruthy by assumption. cbn [negb from_option id].
    now rewrite Hd.
  - intros t w -> Ht Hd. rewrite Htruthy by assumption.
    cbn [negb from_option id]. now rewrite Hd.
  - intros t td e rl' -> Ht Hd Hhit. rewrite Htruthy by assumption.
    cbn [negb from_option id]. rewrite Hd, Hhit.
    apply hit_raises in Hhit as ->. reflexivity.
  - intros t td rl' -> Ht Hd Hhit. rewrite Htruthy by assumption.
    cbn [negb from_option id]. rewrite Hd, Hhit. cbn [app].
    destruct (chat_loop env (sub td) frames) as [acts2 fin].
    destruct fin as [|e|].
    + eauto.
    + destruct e; eauto.
      destruct (disconnect (connect m (handle ws)) (handle ws)) as [[[]|e] m2];
        eauto.
    + eauto.
  - apply resolve_token_ok.
  - apply websocket_codes.
Qed.

(** *** The token endpoint *)

(** A request whose credentials are not accepted does not reach the
    limiter and gets no token. *)
Lemma login_unverified now_utc now username password client rl :
  authenticate_user cfg lib username password <> Ok true ->
  snd (login_for_access_token cfg lib now_utc now username password client rl)
  = rl
  /\ is_ok (fst (login_for_access_token cfg lib now_utc now username password
                   client rl)) = false.
Proof.
  intros Hauth. unfold login_for_access_token.
  destruct (authenticate_user cfg lib username password) as [[|]|e];
    [congruence| |]; split; reflexivity.
Qed.

(** A request whose credentials are found wrong is answered 400. *)
Lemma login_bad_credentials now_utc now username password client rl :
  authenticate_user cfg lib username password = Ok false ->
  login_for_access_token cfg lib now_utc now username password client rl
  = (Raise bad_credentials, rl).
Proof. intros Hauth. unfold login_for_access_token. now rewrite Hauth. Qed.

(** With accepted credentials and a full bucket the answer is 429 and no
    token is made. *)
Lemma login_rate_limited now_utc now username password client rl :
  authenticate_user cfg lib username password = Ok true ->
  limit rl <= Z.of_nat (length (popleft_expired (window_seconds rl) now
                                  (bucket_of rl (rate_key username client)))) ->
  fst (login_for_access_token cfg lib now_utc now username password client rl)
  = Raise rate_limit_exceeded.
Proof.
  intros Hauth Hfull. unfold login_for_access_token. rewrite Hauth.
  rewrite hit_unfold. cbn zeta.
  destruct (Z.leb_spec (limit rl)
    (Z.of_nat (length (popleft_expired (window_seconds rl) now
                         (bucket_of rl (rate_key username client))))));
    [reflexivity|lia].
Qed.

End AuthFacts.

Section AuthExamples.

Import RateLimiter Token Registry Auth Examples.

Lemma websocket_admission_witness :
  let s := mkServer (mkLimiter 1 60 ∅) (mkManager []) in
  let full := mkServer (mkLimiter 0 60 ∅) (mkManager []) in
  let token := "h.p.change-me-in-production" in
  websocket_chat example_config example_crypto example_env 2000 0
    (mkWebSocket 1 None (Some "Bearer not-a-token") None) [] s
  = ([ws_close 4401], Returned, s)
  /\ websocket_chat example_config example_crypto example_env 2000 0
       (mkWebSocket 2 None None None) [] s
     = ([ws_close 4401], Returned, s)
  /\ websocket_chat example_config example_crypto example_env 2000 0
       (mkWebSocket 3 (Some token) None None) [] full
     = ([ws_close 4429], Returned,
        mkServer (mkLimiter 0 60 {["nphies_service" := []]}) (mkManager []))
  /\ exists acts fin m,
       websocket_chat example_config example_crypto example_env 2000 0
         (mkWebSocket 4 (Some token) None None) [peer_closed] s
       = (ws_accept :: acts, fin,
          mkServer (mkLimiter 1 60 {["nphies_service" := [0]]}) m).
Proof.
  intros s full token. split; [|split; [|split]].
  - destruct (websocket_admission example_config example_crypto example_env
                2000 0 (mkWebSocket 1 None (Some "Bearer not-a-token") None)
                [] s) as (_ & H & _).
    apply (H "not-a-token"); [reflexivity|discriminate|reflexivity].
  - destruct (websocket_admission example_config example_crypto example_env
                2000 0 (mkWebSocket 2 None None None) [] s) as (H & _).
    apply (H None); reflexivity.
  - destruct (websocket_admission example_config example_crypto example_env
                2000 0 (mkWebSocket 3 (Some token) None None) [] full)
      as (_ & _ & _ & H & _).
    apply (H token (mkTokenData "nphies_service" (VList []))
             rate_limit_exceeded);
      [reflexivity|discriminate|reflexivity|reflexivity].
  - destruct (websocket_admission example_config example_crypto example_env
                2000 0 (mkWebSocket 4 (Some token) None None) [peer_closed] s)
      as (_ & _ & _ & _ & H & _).
    apply (H token (mkTokenData "nphies_service" (VList [])));
      [reflexivity|discriminate|reflexivity|reflexivity].
Defined.

(** C10, where the code departs from it: with the default settings a wrong
    password holding a character outside ASCII makes [compare_digest] raise
    [TypeError], so the request is not answered with the 400 error (the
    limiter is left alone all the same). *)
Theorem login_non_ascii_password (now_utc now : Z) (client : option string)
  (rl : SimpleRateLimiter) :
  let password := String (ascii_of_N 233) EmptyString in
  authenticate_user example_config example_crypto "nphies_service" password
  = Raise (OtherError "TypeError")
  /\ login_for_access_token example_config example_crypto now_utc now
       "nphies_service" password client rl
     = (Raise (OtherError "TypeError"), rl)
  /\ Raise (OtherError "TypeError") <> @Raise string bad_credentials.
Proof. cbn. split; [reflexivity|split; [reflexivity|discriminate]]. Qed.

End AuthExamples.

(** ** Concurrent admission *)

Section ConcurrentFacts.

Import RateLimiter Concurrent.

Variable key : string.
Variable c0 lim win : Z.
Variable k : nat.

(** The three steps taken under the lock make up [hit]. *)
Lemma hit_prune_check_append rl now :
  hit rl key now
  = let rl1 := prune rl key now in
    if full rl1 key then (Raise rate_limit_exceeded, rl1)
    else (Ok tt, append rl1 key now).
Proof.
  rewrite hit_unfold. cbn zeta. unfold full, append, prune.
  rewrite bucket_of_with_calls. change (limit (with_calls rl _)) with (limit rl).
  destruct (limit rl <=? _); [reflexivity|].
  unfold with_calls. cbn. now rewrite insert_insert_eq.
Qed.

Lemma count_insert (f : pc -> bool) (l : list pc) : forall i x y,
  l !! i = Some x ->
  (count f (<[i := y]> l) + (if f x then 1 else 0)
   = count f l + (if f y then 1 else 0))%nat.
Proof.
  induction l as [|s l IH]; intros [|i] x y Hi; try discriminate.
  - injection Hi as ->. cbn. destruct (f x), (f y); lia.
  - specialize (IH i x y Hi).
    change (<[S i := y]> (s :: l)) with (s :: <[i := y]> l). cbn [count].
    destruct (f s), (f x), (f y); lia.
Qed.

Lemma work_left_insert (l : list pc) : forall i x y,
  l !! i = Some x ->
  (foldr (fun s n => steps_left s + n) 0 (<[i := y]> l) + steps_left x
   = foldr (fun s n => steps_left s + n) 0 l + steps_left y)%nat.
Proof.
  induction l as [|s l IH]; intros [|i] x y Hi; try discriminate.
  - injection Hi as ->. cbn. lia.
  - specialize (IH i x y Hi).
    change (<[S i := y]> (s :: l)) with (s :: <[i := y]> l). cbn [foldr]. lia.
Qed.

Lemma lookup_set_task p i s j s' :
  set_task p i s !! j = Some s' ->
  (j = i /\ s' = s) \/ (j <> i /\ tasks p !! j = Some s').
Proof.
  unfold set_task. intros H. apply list_lookup_insert_Some in H.
  destruct H as [(-> & -> & _)|[Hne H]]; auto.
Qed.

Lemma exec_clock p a p' : exec key p a = Some p' -> clock p <= clock p'.
Proof.
  destruct a as [d|i]; cbn.
  - destruct (Z.leb_spec 0 d); [|discriminate]. intros [= <-]. cbn. lia.
  - destruct (tasks p !! i) as [[]|]; try discriminate;
      repeat match goal with
        | |- context [match ?x with _ => _ end] => destruct x
        | |- context [if ?x then _ else _] => destruct x
        end; try discriminate; intros [= <-]; cbn; lia.
Qed.

Lemma run_clock sched : forall p p',
  run key p sched = Some p' -> clock p <= clock p'.
Proof.
  induction sched as [|a sched IH]; intros p p'; cbn.
  - intros [= <-]. lia.
  - destruct (exec key p a) as [p1|] eqn:He; [|discriminate].
    intros Hr. apply exec_clock in He. apply IH in Hr. lia.
Qed.

Lemma bucket_of_prune rl now :
  Forall (fun t => now - t <= window_seconds rl) (bucket_of rl key) ->
  bucket_of (prune rl key now) key = bucket_of rl key.
Proof.
  intros H. unfold prune. rewrite bucket_of_with_calls.
  now apply popleft_expired_fresh.
Qed.

Lemma bucket_of_append rl now :
  bucket_of (append rl key now) key = bucket_of rl key ++ [now].
Proof. unfold append. apply bucket_of_with_calls. Qed.

Lemma count_replicate_start (f : pc -> bool) (n : nat) :
  f at_start = false -> count f (replicate n at_start) = O.
Proof. intros Hf. induction n as [|n IH]; cbn; [reflexivity|]. now rewrite Hf. Qed.

Lemma init_invariant rl :
  0 <= lim -> limit rl = lim -> window_seconds rl = win ->
  bucket_of rl key = [] ->
  invariant key c0 lim win k (init c0 k rl).
Proof.
  intros Hlim Hl Hw Hb. constructor; cbn [init clock lock limiter tasks].
  - exact Hl.
  - exact Hw.
  - apply length_replicate.
  - lia.
  - intros i s Hi Hh. apply lookup_replicate in Hi as [-> _]. discriminate.
  - discriminate.
  - intros i s t Hi Hs. apply lookup_replicate in Hi as [-> _]. discriminate.
  - rewrite Hb. constructor.
  - rewrite Hb. now rewrite count_replicate_start.
  - rewrite Hb. cbn. lia.
  - intros i t Hi. apply lookup_replicate in Hi as [? _]. discriminate.
  - intros i e Hi. apply lookup_replicate in Hi as [? _]. discriminate.
Qed.

(** Splitting a lookup in the updated list of calls. *)
Ltac updated H :=
  apply lookup_set_task in H as [[-> Hsame]|[Hother H]].

Lemma held_elsewhere p i x y :
  tasks p !! i = Some x ->
  (holds_lock x = true -> holds_lock y = true) ->
  (forall j, lock p = Some j ->
             exists s, tasks p !! j = Some s /\ holds_lock s = true) ->
  forall j, lock p = Some j ->
            exists s, set_task p i y !! j = Some s /\ holds_lock s = true.
Proof.
  intros Hi Hxy Hheld j Hj. destruct (Hheld j Hj) as (s & Hs & Hh).
  unfold set_task. destruct (decide (i = j)) as [->|Hne].
  - exists y. rewrite list_lookup_insert_eq by (now apply lookup_lt_Some in Hs).
    split; [reflexivity|]. apply Hxy. congruence.
  - exists s. now rewrite list_lookup_insert_ne.
Qed.

Lemma exec_invariant p a p' :
  invariant key c0 lim win k p ->
  exec key p a = Some p' ->
  clock p' <= c0 + win ->
  invariant key c0 lim win k p'.
Proof.
  intros Inv He Hwin. pose proof (exec_clock _ _ _ He) as Hmono.
  destruct Inv as [Hlim Hw Hsize Hclock Hholder Hheld Hstamps Hbucket
                     Hadm Hbound Hroom Hrej].
  assert (Hlen : forall i s, length (set_task p i s) = k).
  { intros i s. unfold set_task. now rewrite length_insert. }
  destruct a as [d|i]; cbn [exec] in He.
  - destruct (Z.leb_spec 0 d); [|discriminate]. injection He as <-.
    cbn [clock] in *.
    constructor; cbn [clock lock limiter tasks].
    + assumption.
    + assumption.
    + assumption.
    + lia.
    + assumption.
    + assumption.
    + intros i s t Hi Hs. specialize (Hstamps i s t Hi Hs). lia.
    + eapply Forall_impl; [exact Hbucket|]. cbn. intros; lia.
    + assumption.
    + assumption.
    + assumption.
    + assumption.
  - destruct (tasks p !! i) as [s|] eqn:Hi; [|discriminate].
    destruct s as [|now|now|now|now|r].
    + (* the clock is read *)
      injection He as <-. cbn [clock] in *.
      constructor; cbn [clock lock limiter tasks].
      * assumption.
      * assumption.
      * apply Hlen.
      * assumption.
      * intros j s Hj Hh. updated Hj; [subst s; discriminate|eauto].
      * eapply held_elsewhere; eauto; discriminate.
      * intros j s t Hj Hs. updated Hj; [subst s|eauto].
        injection Hs as <-. lia.
      * assumption.
      * pose proof (count_insert is_admitted _ _ _ (at_lock (clock p)) Hi) as Hc.
        cbn in Hc. unfold set_task. lia.
      * assumption.
      * intros j t Hj. updated Hj; [discriminate|eauto].
      * intros j e Hj. updated Hj; [discriminate|eauto].
    + (* the lock is taken *)
      destruct (lock p) eqn:Hlock; [discriminate|]. injection He as <-.
      cbn [clock] in *.
      constructor; cbn [clock lock limiter tasks].
      * assumption.
      * assumption.
      * apply Hlen.
      * assumption.
      * intros j s Hj Hh. updated Hj; [reflexivity|].
        specialize (Hholder _ _ Hj Hh). congruence.
      * intros j [= <-]. exists (in_prune now). split; [|reflexivity].
        unfold set_task. apply list_lookup_insert_eq.
        now apply lookup_lt_Some in Hi.
      * intros j s t Hj Hs. updated Hj; [subst s|eauto].
        injection Hs as <-. apply (Hstamps i (at_lock now)); auto.
      * assumption.
      * pose proof (count_insert is_admitted _ _ _ (in_prune now) Hi) as Hc.
        cbn in Hc. unfold set_task. lia.
      * assumption.
      * intros j t Hj. updated Hj; [discriminate|eauto].
      * intros j e Hj. updated Hj; [discriminate|eauto].
    + (* expired timestamps are dropped: there is none *)
      injection He as <-. cbn [clock] in *.
      assert (Hnow : c0 <= now <= clock p)
        by (apply (Hstamps i (in_prune now)); auto).
      assert (Hkeep : bucket_of (prune (limiter p) key now) key
                      = bucket_of (limiter p) key).
      { apply bucket_of_prune. eapply Forall_impl; [exact Hbucket|].
        cbn. intros t Ht. rewrite Hw. lia. }
      constructor; cbn [clock lock limiter tasks]; rewrite ?Hkeep.
      * assumption.
      * assumption.
      * apply Hlen.
      * assumption.
      * intros j s Hj Hh. updated Hj; [|eauto].
        apply (Hholder i (in_prune now)); auto.
      * eapply held_elsewhere; eauto.
      * intros j s t Hj Hs. updated Hj; [subst s|eauto]. injection Hs as <-. lia.
      * assumption.
      * pose proof (count_insert is_admitted _ _ _ (in_check now) Hi) as Hc.
        cbn in Hc. unfold set_task. lia.
      * assumption.
      * intros j t Hj. updated Hj; [discriminate|eauto].
      * intros j e Hj. updated Hj; [discriminate|eauto].
    + (* the length of the bucket is tested *)
      assert (Hmine : lock p = Some i)
        by (apply (Hholder i (in_check now)); auto).
      destruct (full (limiter p) key) eqn:Hfull; injection He as <-;
        cbn [clock] in *; unfold full in Hfull; rewrite Hlim in Hfull.
      * apply Z.leb_le in Hfull.
        constructor; cbn [clock lock limiter tasks].
        -- assumption.
        -- assumption.
        -- apply Hlen.
        -- assumption.
        -- intros j s Hj Hh. updated Hj; [subst s; discriminate|].
           specialize (Hholder _ _ Hj Hh). congruence.
        -- discriminate.
        -- intros j s t Hj Hs. updated Hj; [subst s; discriminate|eauto].
        -- assumption.
        -- pose proof (count_insert is_admitted _ _ _
                         (finished (Raise rate_limit_exceeded)) Hi) as Hc.
           cbn in Hc. unfold set_task. lia.
        -- assumption.
        -- intros j t Hj. updated Hj; [discriminate|eauto].
        -- intros j e Hj. updated Hj; [|eauto].
           injection Hsame as ->. split; [reflexivity|assumption].
      * apply Z.leb_gt in Hfull.
        constructor; cbn [clock lock limiter tasks].
        -- assumption.
        -- assumption.
        -- apply Hlen.
        -- assumption.
        -- intros j s Hj Hh. updated Hj; [assumption|eauto].
        -- eapply held_elsewhere; eauto.
        -- intros j s t Hj Hs. updated Hj; [subst s|eauto].
           injection Hs as <-. apply (Hstamps i (in_check now)); auto.
        -- assumption.
        -- pose proof (count_insert is_admitted _ _ _ (in_append now) Hi) as Hc.
           cbn in Hc. unfold set_task. lia.
        -- assumption.
        -- intros j t Hj. updated Hj; [lia|eauto].
        -- intros j e Hj. updated Hj; [discriminate|eauto].
    + (* the timestamp is appended *)
      injection He as <-. cbn [clock] in *.
      assert (Hmine : lock p = Some i)
        by (apply (Hholder i (in_append now)); auto).
      assert (Hnow : c0 <= now <= clock p)
        by (apply (Hstamps i (in_append now)); auto).
      pose proof (Hroom i now Hi) as Hfree.
      constructor; cbn [clock lock limiter tasks];
        rewrite ?bucket_of_append, ?length_app; cbn [length].
      * assumption.
      * assumption.
      * apply Hlen.
      * assumption.
      * intros j s Hj Hh. updated Hj; [subst s; discriminate|].
        specialize (Hholder _ _ Hj Hh). congruence.
      * discriminate.
      * intros j s t Hj Hs. updated Hj; [subst s; discriminate|eauto].
      * apply Forall_app. split; [assumption|]. repeat constructor; lia.
      * pose proof (count_insert is_admitted _ _ _ (finished (Ok tt)) Hi) as Hc.
        cbn in Hc. unfold set_task. lia.
      * lia.
      * intros j t Hj. updated Hj; [discriminate|].
        specialize (Hholder j (in_append t) Hj eq_refl). congruence.
      * intros j e Hj. updated Hj; [discriminate|].
        destruct (Hrej j e Hj) as [_ Hfullb]. lia.
    + discriminate.
Qed.

Lemma run_invariant sched : forall p p',
  invariant key c0 lim win k p ->
  run key p sched = Some p' ->
  clock p' <= c0 + win ->
  invariant key c0 lim win k p'.
Proof.
  induction sched as [|a sched IH]; intros p p' Inv Hrun Hwin; cbn in Hrun.
  - now injection Hrun as <-.
  - destruct (exec key p a) as [p1|] eqn:He; [|discriminate].
    apply (IH p1 p'); [|assumption|assumption].
    eapply exec_invariant; eauto.
    apply run_clock in Hrun. lia.
Qed.

Lemma count_finished (l : list pc) :
  Forall (fun s => is_finished s = true) l ->
  (forall i e, l !! i = Some (finished (Raise e)) -> e = rate_limit_exceeded) ->
  (count is_admitted l + count is_rejected l = length l)%nat.
Proof.
  induction 1 as [|s l Hs _ IH]; intros Hrej; [reflexivity|].
  cbn [count length]. rewrite <- IH by (intros i e; apply (Hrej (S i) e)).
  destruct s as [| | | | |[[]|e]]; try discriminate; cbn; [lia|].
  rewrite (Hrej O e eq_refl). cbn. lia.
Qed.

Lemma count_positive (f : pc -> bool) (l : list pc) :
  (0 < count f l)%nat -> exists i s, l !! i = Some s /\ f s = true.
Proof.
  induction l as [|s l IH]; cbn; [lia|]. intros Hpos.
  destruct (f s) eqn:Hs.
  - exists O, s. auto.
  - destruct (IH Hpos) as (i & s' & Hi & Hf). exists (S i), s'. auto.
Qed.

(** When all calls have finished, exactly [lim] of them were admitted. *)
Lemma finished_counts p :
  invariant key c0 lim win k p -> all_finished p -> lim < Z.of_nat k ->
  count is_admitted (tasks p) = Z.to_nat lim
  /\ count is_rejected (tasks p) = (k - Z.to_nat lim)%nat.
Proof.
  intros Inv Hfin Hk.
  pose proof (count_finished (tasks p) Hfin
                (fun i e H => proj1 (inv_rejected _ _ _ _ _ _ Inv i e H))) as Hsum.
  rewrite (inv_size _ _ _ _ _ _ Inv) in Hsum.
  pose proof (inv_admitted _ _ _ _ _ _ Inv) as Hadm.
  pose proof (inv_bound _ _ _ _ _ _ Inv) as Hbound.
  destruct (count_positive is_rejected (tasks p)) as (i & s & Hi & Hs); [lia|].
  destruct s as [| | | | |[u|e]]; try discriminate.
  destruct (inv_rejected _ _ _ _ _ _ Inv i e Hi) as [_ Hfull]. lia.
Qed.

(** Some call can always take its next step, and doing so uses up work. *)
Lemma progress p :
  invariant key c0 lim win k p -> ~ all_finished p ->
  exists i p', exec key p (advance i) = Some p'
               /\ clock p' = clock p
               /\ (work_left p' < work_left p)%nat.
Proof.
  intros Inv Hnot.
  assert (Hstep : forall i x y c l rl,
            tasks p !! i = Some x -> (steps_left y < steps_left x)%nat ->
            (work_left (mkPool c l rl (set_task p i y)) < work_left p)%nat).
  { intros i x y c l rl Hi Hlt. unfold work_left, set_task. cbn [tasks].
    pose proof (work_left_insert (tasks p) i x y Hi). lia. }
  destruct (lock p) as [j|] eqn:Hlock.
  - destruct (inv_held _ _ _ _ _ _ Inv j Hlock) as (s & Hj & Hh).
    exists j. cbn [exec]. rewrite Hj.
    destruct s as [|t|t|t|t|r]; try discriminate.
    + eexists. split; [reflexivity|]. split; [reflexivity|].
      eapply Hstep; eauto; cbn; lia.
    + destruct (full (limiter p) key); eexists;
        (split; [reflexivity|]); (split; [reflexivity|]);
        eapply Hstep; eauto; cbn; lia.
    + eexists. split; [reflexivity|]. split; [reflexivity|].
      eapply Hstep; eauto; cbn; lia.
  - apply not_Forall_Exists in Hnot; [|apply _].
    apply Exists_exists in Hnot as (s & Hin & Hs).
    apply list_elem_of_lookup in Hin as [i Hi].
    exists i. cbn [exec]. rewrite Hi, ?Hlock.
    destruct s as [|t|t|t|t|r].
    + eexists. split; [reflexivity|]. split; [reflexivity|].
      eapply Hstep; eauto; cbn; lia.
    + eexists. split; [reflexivity|]. split; [reflexivity|].
      eapply Hstep; eauto; cbn; lia.
    + pose proof (inv_holder _ _ _ _ _ _ Inv i _ Hi eq_refl). congruence.
    + pose proof (inv_holder _ _ _ _ _ _ Inv i _ Hi eq_refl). congruence.
    + pose proof (inv_holder _ _ _ _ _ _ Inv i _ Hi eq_refl). congruence.
    + exfalso. apply Hs. reflexivity.
Qed.

(** Every pool can be run to the end without a further clock tick. *)
Lemma completion (n : nat) : forall p,
  (work_left p <= n)%nat ->
  invariant key c0 lim win k p -> clock p <= c0 + win ->
  exists sched p', run key p sched = Some p'
                   /\ all_finished p' /\ clock p' = clock p.
Proof.
  induction n as [|n IH]; intros p Hwork Inv Hwin;
    (destruct (decide (all_finished p)) as [Hfin|Hnot];
     [exists [], p; cbn; auto|]);
    destruct (progress p Inv Hnot) as (i & p1 & He & Hc & Hlt); [lia|].
  destruct (IH p1) as (sched & p' & Hrun & Hfin & Hc').
  - lia.
  - eapply exec_invariant; eauto. lia.
  - lia.
  - exists (advance i :: sched), p'. cbn [run]. rewrite He.
    split; [exact Hrun|]. split; [exact Hfin|]. lia.
Qed.

End ConcurrentFacts.

Section ConcurrentAdmission.

Import RateLimiter Concurrent.

(** C9. Take [k] concurrent calls of [hit] for one unused key, with a limit
    [0 <= limit < k], scheduled in any way, statement by statement, with
    all clock readings inside one window.  When all calls have finished,
    exactly [limit] were admitted and the other [k - limit] were refused
    with the 429 error.  No schedule gets stuck: whatever has run so far,
    the calls can be run to the end. *)
Theorem concurrent_hits_admit_limit (key : string) (c0 : Z) (k : nat)
  (rl : SimpleRateLimiter)
  (Hlimit : 0 <= limit rl) (Hmore : limit rl < Z.of_nat k)
  (Hunused : bucket_of rl key = []) :
  (forall sched p,
     run key (init c0 k rl) sched = Some p ->
     clock p - c0 <= window_seconds rl ->
     all_finished p ->
     count is_admitted (tasks p) = Z.to_nat (limit rl)
     /\ count is_rejected (tasks p) = (k - Z.to_nat (limit rl))%nat)
  /\ (forall sched p,
       run key (init c0 k rl) sched = Some p ->
       clock p - c0 <= window_seconds rl ->
       exists sched' p',
         run key p sched' = Some p' /\ all_finished p'
         /\ clock p' = clock p).
Proof.
  pose proof (init_invariant key c0 (limit rl) (window_seconds rl) k rl
                Hlimit eq_refl eq_refl Hunused) as Hinit.
  split.
  - intros sched p Hrun Hwin Hfin.
    eapply finished_counts; eauto.
    eapply run_invariant; eauto. lia.
  - intros sched p Hrun Hwin.
    eapply (completion key c0 (limit rl) (window_seconds rl) k (work_left p));
      [lia| |lia].
    eapply run_invariant; eauto. lia.
Qed.

Lemma concurrent_hits_admit_limit_witness :
  let rl := mkLimiter 1 60 ∅ in
  let sched := [advance 0; advance 1; advance 1; advance 1; tick 5;
                advance 1; advance 1; advance 0; advance 0; advance 0] in
  exists p,
    run "k" (init 0 2 rl) sched = Some p
    /\ tasks p = [finished (Raise rate_limit_exceeded); finished (Ok tt)]
    /\ count is_admitted (tasks p) = 1%nat
    /\ count is_rejected (tasks p) = 1%nat.
Proof.
  intros rl sched.
  destruct (concurrent_hits_admit_limit "k" 0 2 rl) as [H _].
  - cbn. lia.
  - cbn. lia.
  - reflexivity.
  - eexists. split; [reflexivity|]. split; [reflexivity|].
    apply (H sched); [reflexivity|cbn; lia|].
    repeat constructor.
Defined.

End ConcurrentAdmission.

(** ** Runs of the rate limiter *)

Section AdmissionFacts.

Import RateLimiter Admission.

Lemma popleft_expired_split (window now : Z) (bucket : list Z) :
  exists popped,
    bucket = popped ++ popleft_expired window now bucket
    /\ Forall (fun t => window < now - t) popped.
Proof.
  induction bucket as [|t rest IH]; cbn.
  - exists []. split; [reflexivity|constructor].
  - destruct (Z.ltb_spec window (now - t)) as [Hold|Hin].
    + destruct IH as (popped & Heq & Hall). exists (t :: popped).
      split; [cbn; now rewrite <- Heq|now constructor].
    + exists []. split; [reflexivity|constructor].
Qed.

Lemma popleft_expired_later (window now now' : Z) (bucket : list Z) :
  now <= now' ->
  popleft_expired window now' (popleft_expired window now bucket)
  = popleft_expired window now' bucket.
Proof.
  intros Hle. induction bucket as [|t rest IH]; [reflexivity|].
  cbn [popleft_expired].
  destruct (Z.ltb_spec window (now - t)) as [Hold|Hin]; [|reflexivity].
  rewrite IH. destruct (Z.ltb_spec window (now' - t)); [reflexivity|lia].
Qed.

Lemma spaced_out_snoc (window : Z) (k : nat) (dropped kept : list Z) (now : Z) :
  spaced_out window k (dropped ++ kept) ->
  Forall (fun t => window < now - t) dropped ->
  (length kept < k)%nat ->
  spaced_out window k ((dropped ++ kept) ++ [now]).
Proof.
  intros Hsp Hdrop Hlen i a b Ha Hb.
  destruct (Nat.lt_ge_cases (i + k) (length (dropped ++ kept))) as [Hin|Hout].
  - rewrite lookup_app_l in Hb by assumption.
    rewrite lookup_app_l in Ha by lia. eauto.
  - pose proof (lookup_lt_Some _ _ _ Hb) as Hi.
    rewrite length_app in Hi. cbn in Hi.
    assert (Hik : (i + k)%nat = length (dropped ++ kept)) by lia.
    rewrite Hik, lookup_app_r, Nat.sub_diag in Hb by lia.
    injection Hb as <-. rewrite length_app in Hik.
    rewrite <- app_assoc, lookup_app_l in Ha by lia.
    rewrite Forall_forall in Hdrop. apply Hdrop.
    apply list_elem_of_lookup. eauto.
Qed.

Lemma admitted_spaced_out (key : string) (nows : list Z) :
  forall rl dropped,
  ascending nows ->
  (forall t now, t ∈ dropped -> now ∈ nows -> window_seconds rl < now - t) ->
  spaced_out (window_seconds rl) (Z.to_nat (limit rl))
             (dropped ++ bucket_of rl key) ->
  spaced_out (window_seconds rl) (Z.to_nat (limit rl))
             ((dropped ++ bucket_of rl key) ++ admitted rl key nows).
Proof.
  induction nows as [|now rest IH]; intros rl dropped Hasc Hdrop Hsp.
  - cbn. now rewrite app_nil_r.
  - inversion Hasc as [|? ? Hrest Hle]; subst.
    cbn [admitted]. rewrite hit_unfold. cbn zeta.
    destruct (popleft_expired_split (window_seconds rl) now (bucket_of rl key))
      as (popped & Hsplit & Hpopped).
    set (kept := popleft_expired (window_seconds rl) now (bucket_of rl key)) in *.
    assert (Hdrop' : forall t now', t ∈ dropped ++ popped -> now' ∈ rest ->
                                    window_seconds rl < now' - t).
    { intros t now' Ht Hnow'. apply elem_of_app in Ht as [Ht|Ht].
      - apply Hdrop; [assumption|now right].
      - rewrite Forall_forall in Hpopped, Hle.
        specialize (Hpopped _ Ht). specialize (Hle _ Hnow'). cbn in *. lia. }
    assert (Hpast : dropped ++ bucket_of rl key = (dropped ++ popped) ++ kept)
      by (rewrite Hsplit at 1; now rewrite app_assoc).
    rewrite Hpast in *.
    destruct (Z.leb_spec (limit rl) (Z.of_nat (length kept))) as [Hfull|Hroom].
    + cbn [is_ok app].
      set (rl1 := with_calls rl _).
      assert (Hb1 : bucket_of rl1 key = kept) by apply bucket_of_with_calls.
      rewrite <- Hb1. apply (IH rl1 (dropped ++ popped)); try assumption.
      now rewrite Hb1.
    + cbn [is_ok].
      set (rl1 := with_calls rl _).
      assert (Hb1 : bucket_of rl1 key = kept ++ [now]) by apply bucket_of_with_calls.
      change (([now] ++ admitted rl1 key rest)) with (now :: admitted rl1 key rest).
      replace (((dropped ++ popped) ++ kept) ++ now :: admitted rl1 key rest)
        with (((dropped ++ popped) ++ bucket_of rl1 key) ++ admitted rl1 key rest)
        by (rewrite Hb1, <- !app_assoc; reflexivity).
      apply (IH rl1 (dropped ++ popped)); try assumption.
      rewrite Hb1, app_assoc.
      change (window_seconds rl1) with (window_seconds rl).
      change (limit rl1) with (limit rl).
      apply spaced_out_snoc; [assumption| |lia].
      apply Forall_app. split; [|exact Hpopped].
      apply Forall_forall. intros t Ht. apply Hdrop; [assumption|left].
Qed.

(** X1. On a key without history and with a monotonic clock, the limiter
    never admits more than [limit] calls in one window: any [limit + 1]
    consecutive admitted calls span more than [window_seconds]. *)
Theorem admitted_at_most_limit_per_window
  (rl : SimpleRateLimiter) (key : string) (nows : list Z)
  (Hunused : bucket_of rl key = []) (Hclock : ascending nows) :
  spaced_out (window_seconds rl) (Z.to_nat (limit rl)) (admitted rl key nows).
Proof.
  pose proof (admitted_spaced_out key nows rl [] Hclock) as H.
  rewrite Hunused in H. cbn [app] in H. apply H.
  - intros t now Ht. now apply elem_of_nil in Ht.
  - intros i a b Ha. now rewrite lookup_nil in Ha.
Qed.

Lemma admitted_at_most_limit_per_window_witness :
  let rl := mkLimiter 2 10 ∅ in
  admitted rl "k" [0; 1; 2; 11; 12] = [0; 1; 11; 12]
  /\ 10 < 11 - 0 /\ 10 < 12 - 1.
Proof.
  intros rl.
  assert (Hasc : ascending [0; 1; 2; 11; 12]) by (repeat constructor; lia).
  pose proof (admitted_at_most_limit_per_window rl "k" [0; 1; 2; 11; 12]
                eq_refl Hasc) as H.
  split; [reflexivity|]. split.
  - apply (H 0%nat 0 11); reflexivity.
  - apply (H 1%nat 1 12); reflexivity.
Defined.

(** X2. A refused call costs nothing: it only drops expired timestamps, so
    any later call behaves as if the refused call had not been made. *)
Theorem rejected_call_is_free
  (rl rl1 : SimpleRateLimiter) (key : string) (now now' : Z) (e : exn)
  (Hrejected : hit rl key now = (Raise e, rl1)) (Hlater : now <= now') :
  hit rl1 key now' = hit rl key now'.
Proof.
  rewrite hit_unfold in Hrejected. cbn zeta in Hrejected.
  destruct (limit rl <=? _); [|discriminate].
  injection Hrejected as _ <-.
  rewrite !hit_unfold. cbn zeta. rewrite bucket_of_with_calls.
  rewrite popleft_expired_later by assumption.
  unfold with_calls. cbn [limit window_seconds calls].
  now rewrite !insert_insert_eq.
Qed.

Lemma rejected_call_is_free_witness :
  let rl := mkLimiter 1 10 {["k" := [0]]} in
  fst (hit rl "k" 5) = Raise rate_limit_exceeded
  /\ hit (snd (hit rl "k" 5)) "k" 11 = hit rl "k" 11
  /\ fst (hit rl "k" 11) = Ok tt.
Proof.
  intros rl. split; [reflexivity|]. split; [|reflexivity].
  apply (rejected_call_is_free rl (snd (hit rl "k" 5)) "k" 5 11
           rate_limit_exceeded); [reflexivity|lia].
Defined.

(** X3. Keys do not interfere: a call for another key changes neither the
    outcome of a call for this key nor, apart from the order of the two
    calls, the state they leave. *)
Theorem hit_keys_independent
  (rl : SimpleRateLimiter) (key key' : string) (now now' : Z)
  (Hdistinct : key <> key') :
  fst (hit (snd (hit rl key' now')) key now) = fst (hit rl key now)
  /\ snd (hit (snd (hit rl key' now')) key now)
     = snd (hit (snd (hit rl key now)) key' now').
Proof.
  assert (Hstep : forall k1 k2 t1 t2, k1 <> k2 ->
            hit (snd (hit rl k1 t1)) k2 t2
            = (fst (hit rl k2 t2),
               with_calls rl
                 (<[k2 := bucket_of (snd (hit rl k2 t2)) k2]>
                    (<[k1 := bucket_of (snd (hit rl k1 t1)) k1]> (calls rl))))).
  { intros k1 k2 t1 t2 Hne.
    assert (Hcalls : calls (snd (hit rl k1 t1))
                     = <[k1 := bucket_of (snd (hit rl k1 t1)) k1]> (calls rl)).
    { rewrite (hit_unfold rl k1 t1). cbn zeta.
      destruct (limit rl <=? _); cbn [snd]; rewrite bucket_of_with_calls;
        reflexivity. }
    rewrite (hit_unfold (snd (hit rl k1 t1))). cbn zeta.
    rewrite (hit_other_key rl k1 k2 t1 Hne).
    destruct (hit_settings rl k1 t1) as [Hl Hw]. rewrite Hl, Hw.
    rewrite (hit_unfold rl k2 t2). cbn zeta.
    destruct (limit rl <=? _); cbn [fst snd]; rewrite bucket_of_with_calls;
      unfold with_calls; rewrite Hl, Hw, Hcalls; reflexivity. }
  rewrite (Hstep key' key now' now) by congruence.
  rewrite (Hstep key key' now now') by assumption.
  cbn [fst snd]. split; [reflexivity|].
  f_equal. apply insert_insert_ne. congruence.
Qed.

Lemma hit_keys_independent_witness :
  let rl := mkLimiter 1 10 ∅ in
  fst (hit (snd (hit rl "b" 3)) "a" 4) = fst (hit rl "a" 4)
  /\ snd (hit (snd (hit rl "b" 3)) "a" 4) = snd (hit (snd (hit rl "a" 4)) "b" 3).
Proof.
  intros rl. apply (hit_keys_independent rl "a" "b" 4 3). discriminate.
Defined.

Lemma hits_cons (rl : SimpleRateLimiter) (key : string) (now : Z)
  (rest : list Z) :
  snd (hits rl key (now :: rest)) = snd (hits (snd (hit rl key now)) key rest).
Proof.
  cbn [hits]. destruct (hit rl key now) as [r rl1]. cbn [snd].
  destruct (hits rl1 key rest) as [rs rl2]. reflexivity.
Qed.

(** What a bucket looks like after a call. *)
Lemma hit_keeps_window (rl : SimpleRateLimiter) (key : string) (prev now : Z) :
  0 <= window_seconds rl -> prev <= now ->
  ascending (bucket_of rl key) ->
  Forall (fun t => t <= prev) (bucket_of rl key) ->
  Z.of_nat (length (bucket_of rl key)) <= Z.max 0 (limit rl) ->
  let b := bucket_of (snd (hit rl key now)) key in
  ascending b
  /\ Forall (fun t => now - window_seconds rl <= t <= now) b
  /\ Z.of_nat (length b) <= Z.max 0 (limit rl).
Proof.
  intros Hw Hle Hasc Hprev Hlen b. subst b.
  rewrite hit_unfold. cbn zeta.
  pose proof (popleft_expired_ascending (window_seconds rl) now _ Hasc) as Hk1.
  pose proof (popleft_expired_length (window_seconds rl) now (bucket_of rl key))
    as Hk3.
  assert (Hk2 : Forall (fun t => now - window_seconds rl <= t <= now)
                  (popleft_expired (window_seconds rl) now (bucket_of rl key))).
  { rewrite popleft_expired_filter by assumption.
    apply Forall_forall. intros t Ht.
    apply list_elem_of_filter in Ht as [Hin Ht].
    rewrite Forall_forall in Hprev. specialize (Hprev _ Ht). cbn in *. lia. }
  destruct (Z.leb_spec (limit rl)
              (Z.of_nat (length (popleft_expired (window_seconds rl) now
                                   (bucket_of rl key)))));
    cbn [snd]; rewrite bucket_of_with_calls.
  - split; [assumption|]. split; [assumption|lia].
  - split; [|split].
    + apply ascending_snoc; [assumption|].
      eapply Forall_impl; [exact Hk2|]. cbn. intros; lia.
    + apply Forall_app. split; [assumption|]. repeat constructor; lia.
    + rewrite length_app. cbn [length]. lia.
Qed.

Lemma last_default_cons (rest : list Z) : forall prev now,
  default prev (last (now :: rest)) = default now (last rest).
Proof.
  induction rest as [|z rest IH]; intros prev now; [reflexivity|].
  change (last (now :: z :: rest)) with (last (z :: rest)).
  now rewrite (IH prev z), (IH now z).
Qed.

Lemma hits_keep_window (key : string) (nows : list Z) : forall rl prev,
  0 <= window_seconds rl -> ascending (prev :: nows) ->
  ascending (bucket_of rl key) ->
  Forall (fun t => prev - window_seconds rl <= t <= prev) (bucket_of rl key) ->
  Z.of_nat (length (bucket_of rl key)) <= Z.max 0 (limit rl) ->
  let b := bucket_of (snd (hits rl key nows)) key in
  let final := default prev (last nows) in
  ascending b
  /\ Forall (fun t => final - window_seconds rl <= t <= final) b
  /\ Z.of_nat (length b) <= Z.max 0 (limit rl).
Proof.
  induction nows as [|now rest IH]; intros rl prev Hw Hclock Hasc Hin Hlen.
  - cbn. auto.
  - inversion Hclock as [|? ? Hrest Hle]; subst.
    inversion Hle as [|? ? Hpn _]; subst.
    destruct (hit_keeps_window rl key prev now) as (H1 & H2 & H3);
      try assumption.
    { eapply Forall_impl; [exact Hin|]. cbn. intros; lia. }
    rewrite hits_cons.
    destruct (hit_settings rl key now) as [Hl Hws].
    specialize (IH (snd (hit rl key now)) now).
    rewrite Hl, Hws in IH.
    rewrite last_default_cons. apply IH; assumption.
Qed.

(** X4. Over any run of calls for a key without history, made at
    non-decreasing times with a window that is not negative, the bucket
    stays ordered oldest first, holds only timestamps within one window of
    the last call, and never holds more than the limit. *)
Theorem bucket_stays_within_window
  (rl : SimpleRateLimiter) (key : string) (nows : list Z) (final : Z)
  (Hunused : bucket_of rl key = []) (Hwindow : 0 <= window_seconds rl)
  (Hclock : ascending nows) (Hfinal : last nows = Some final) :
  let b := bucket_of (snd (hits rl key nows)) key in
  ascending b
  /\ Forall (fun t => final - window_seconds rl <= t <= final) b
  /\ Z.of_nat (length b) <= Z.max 0 (limit rl).
Proof.
  destruct nows as [|now rest]; [discriminate|].
  pose proof (hits_keep_window key (now :: rest) rl now Hwindow) as H.
  rewrite Hfinal, Hunused in H. cbn [default from_option id] in H.
  apply H.
  - constructor; [assumption|]. inversion Hclock; subst.
    constructor; [lia|assumption].
  - constructor.
  - constructor.
  - cbn. lia.
Qed.

Lemma bucket_stays_within_window_witness :
  let rl := mkLimiter 2 10 ∅ in
  bucket_of (snd (hits rl "k" [0; 1; 2; 11; 12])) "k" = [11; 12]
  /\ Forall (fun t => 12 - 10 <= t <= 12)
       (bucket_of (snd (hits rl "k" [0; 1; 2; 11; 12])) "k").
Proof.
  intros rl.
  assert (Hasc : ascending [0; 1; 2; 11; 12]) by (repeat constructor; lia).
  destruct (bucket_stays_within_window rl "k" [0; 1; 2; 11; 12] 12)
    as (_ & H & _); [reflexivity|cbn; lia|exact Hasc|reflexivity|].
  split; [reflexivity|exact H].
Defined.

End AdmissionFacts.

(** ** Credentials, the HTTP guard and the resolution of tokens *)

Section GuardFacts.

Import RateLimiter Token Registry Auth.

Variable cfg : config.
Variable lib : crypto.

(** X5. Without a configured hash, and for passwords written in ASCII, the
    credential check accepts exactly the configured user name with the
    configured password.  With a hash configured, the answer for the
    configured user is that of passlib on the password and the hash, and
    the configured plain password plays no part. *)
Theorem authenticate_user_accepts (username password : string) :
  (SERVICE_ACCOUNT_PASSWORD_HASH cfg = None
   \/ SERVICE_ACCOUNT_PASSWORD_HASH cfg = Some ""%string ->
   is_ascii password = true ->
   is_ascii (SERVICE_ACCOUNT_PASSWORD cfg) = true ->
   authenticate_user cfg lib username password
   = Ok (bool_decide (username = SERVICE_ACCOUNT_USERNAME cfg
                      /\ password = SERVICE_ACCOUNT_PASSWORD cfg)))
  /\ (forall h, SERVICE_ACCOUNT_PASSWORD_HASH cfg = Some h -> h <> ""%string ->
      authenticate_user cfg lib (SERVICE_ACCOUNT_USERNAME cfg) password
      = pwd_verify lib password h).
Proof.
  split.
  - intros Hhash Hp Hc. unfold authenticate_user.
    destruct (String.eqb_spec username (SERVICE_ACCOUNT_USERNAME cfg))
      as [Hu|Hu]; cbn [negb].
    + assert (Hv : verify_password cfg lib password
                     (SERVICE_ACCOUNT_PASSWORD_HASH cfg)
                   = compare_digest password (SERVICE_ACCOUNT_PASSWORD cfg)).
      { destruct Hhash as [-> | ->]; reflexivity. }
      rewrite Hv. unfold compare_digest. rewrite Hp, Hc. cbn [andb]. f_equal.
      destruct (String.eqb_spec password (SERVICE_ACCOUNT_PASSWORD cfg)).
      * symmetry. apply bool_decide_eq_true. auto.
      * symmetry. apply bool_decide_eq_false. tauto.
    + f_equal. symmetry. apply bool_decide_eq_false. tauto.
  - intros h Hh Hne. unfold authenticate_user.
    rewrite String.eqb_refl. cbn [negb]. rewrite Hh. cbn [verify_password].
    now destruct (String.eqb_spec h "").
Qed.

(** X6. A request for any other user name is answered with the 400 error
    whatever the password, and leaves the limiter as it is. *)
Theorem unknown_user_rejected (now_utc now : Z) (username password : string)
  (client : option string) (rl : SimpleRateLimiter)
  (Hunknown : username <> SERVICE_ACCOUNT_USERNAME cfg) :
  login_for_access_token cfg lib now_utc now username password client rl
  = (Raise bad_credentials, rl).
Proof.
  unfold login_for_access_token, authenticate_user.
  now destruct (String.eqb_spec username (SERVICE_ACCOUNT_USERNAME cfg)).
Qed.

(** X7. The guard of the protected endpoints lets through only a token
    that [decode_token] accepts and the limiter admits, recording one call
    under the key of the subject.  It fails in three ways only: with the
    401 error, the limiter untouched; with the 429 error; and with an
    exception that is not a [JWTError], which the token library let out and
    the guard passes on, the limiter untouched. *)
Theorem secure_endpoint_outcomes (now_utc now : Z) (token : string)
  (client : option string) (rl : SimpleRateLimiter) :
  match secure_endpoint cfg lib now_utc now token client rl with
  | (Ok td, rl') =>
      decode_token cfg lib now_utc token = Ok td
      /\ hit rl (rate_key (sub td) client) now = (Ok tt, rl')
  | (Raise e, rl') =>
      (e = credentials_exception /\ rl' = rl
       /\ decode_token cfg lib now_utc token = Raise credentials_exception)
      \/ (e = rate_limit_exceeded
          /\ exists td, decode_token cfg lib now_utc token = Ok td
                        /\ hit rl (rate_key (sub td) client) now
                           = (Raise rate_limit_exceeded, rl'))
      \/ (exists w, e = OtherError w /\ rl' = rl
                    /\ jwt_decode lib now_utc token (SECRET_KEY cfg)
                       = Raise (OtherError w))
  end.
Proof.
  unfold secure_endpoint.
  destruct (decode_token cfg lib now_utc token) as [td|e] eqn:Hd.
  - destruct (hit rl (rate_key (sub td) client) now) as [[[]|e] rl'] eqn:Hh.
    + auto.
    + right. left. pose proof (hit_raises _ _ _ _ _ Hh) as ->. eauto.
  - destruct (decode_token_raises cfg lib _ _ _ Hd) as [->|(w & -> & Hj)].
    + left. auto.
    + right. right. eauto.
Qed.

Lemma rate_key_subject (subject : string) (client : option string) :
  subject <> ""%string -> rate_key subject client = subject.
Proof. intros H. unfold rate_key. now destruct (String.eqb_spec subject ""). Qed.

(** X8. The token endpoint and the protected endpoints draw on one bucket:
    a login and the first use of the token it returned are judged like two
    successive calls of the limiter under the user name. *)
Theorem login_and_token_share_bucket
  (now_utc now now_utc' now' : Z) (username password : string)
  (client client' : option string) (rl rl1 : SimpleRateLimiter)
  (token : string)
  (Hname : username <> ""%string)
  (Hlogin : login_for_access_token cfg lib now_utc now username password
              client rl = (Ok token, rl1))
  (Hdot : dotless lib (SECRET_KEY cfg)
            (<["exp" := VInt (now_utc + lifetime cfg None)]>
               {["sub" := VStr username]}))
  (Hread : readable lib
             (<["exp" := VInt (now_utc + lifetime cfg None)]>
                {["sub" := VStr username]}))
  (Hother : checks_pass lib now_utc'
              (<["exp" := VInt (now_utc + lifetime cfg None)]>
                 {["sub" := VStr username]}))
  (Hfresh : now_utc' <= now_utc + lifetime cfg None) :
  let request := secure_endpoint cfg lib now_utc' now' token client' rl1 in
  exists r,
    hits rl username [now; now'] = ([Ok tt; r], snd request)
    /\ fst request
       = match r with
         | Ok _ => Ok {| sub := username; scopes := VList [] |}
         | Raise e => Raise e
         end.
Proof.
  intros request. subst request.
  unfold login_for_access_token in Hlogin.
  destruct (authenticate_user cfg lib username password) as [[|]|];
    try discriminate.
  rewrite rate_key_subject in Hlogin by assumption.
  destruct (hit rl username now) as [[[]|] rl1'] eqn:Hfirst; try discriminate.
  injection Hlogin as <- <-.
  unfold secure_endpoint, create_access_token.
  rewrite (decode_token_issued cfg lib now_utc' _ username); try assumption.
  - cbn [sub]. rewrite rate_key_subject by assumption.
    cbn [hits]. rewrite Hfirst.
    destruct (hit rl1' username now') as [[[]|e] rl2]; cbn [fst snd]; eauto.
  - unfold validate_exp. rewrite lookup_insert_eq. cbn [python_int].
    destruct (Z.ltb_spec (now_utc + lifetime cfg None) now_utc');
      [lia|reflexivity].
  - rewrite lookup_insert_ne by discriminate. apply lookup_singleton_eq.
Qed.

Lemma lower_app (a b : string) : lower (a ++ b) = (lower a ++ lower b)%string.
Proof.
  induction a as [|c a IH]; [reflexivity|].
  change (String (lower_char c) (lower (a ++ b))
          = String (lower_char c) (lower a ++ lower b)).
  now rewrite IH.
Qed.

Lemma after_first_space_app (a b : string) :
  has_space a = false -> after_first_space (a ++ " " ++ b) = Some b.
Proof.
  induction a as [|c a IH]; [reflexivity|].
  intros H. cbn [has_space] in H. apply orb_false_iff in H as [Hc Ha].
  change (after_first_space (String c (a ++ " " ++ b)) = Some b).
  cbn [after_first_space]. rewrite Hc. now apply IH.
Qed.

(** X9. How the token of a handshake is found: a non-empty query parameter
    wins over any header; otherwise a header made of the word bearer in any
    mix of upper and lower case, one space and a text yields that text;
    a header that does not start that way yields nothing, and the
    handshake is closed with code 4401. *)
Theorem resolve_token_sources (ws : WebSocket) :
  (forall t, query_token ws = Some t -> t <> ""%string ->
             resolve_token ws = Ok (Some t))
  /\ (forall scheme t,
        truthy (query_token ws) = false ->
        authorization ws = Some (scheme ++ " " ++ t)%string ->
        lower scheme = "bearer"%string ->
        resolve_token ws = Ok (Some t))
  /\ (forall now_utc now rl,
        truthy (query_token ws) = false ->
        match authorization ws with
        | Some h => String.prefix "bearer " (lower h) = false
        | None => True
        end ->
        resolve_token ws = Ok (query_token ws)
        /\ secure_websocket cfg lib now_utc now ws rl
           = ([ws_close CLOSE_UNAUTHENTICATED], Raise WebSocketDisconnect, rl)).
Proof.
  split; [|split].
  - intros t Hq Ht. unfold resolve_token. rewrite Hq. cbn.
    now destruct (String.eqb_spec t "").
  - intros scheme t Hq Hh Hs. unfold resolve_token. rewrite Hq, Hh.
    assert (Hne : scheme <> ""%string) by (intros ->; discriminate).
    assert (Htruthy : truthy (Some (scheme ++ " " ++ t)%string) = true).
    { destruct scheme; [congruence|reflexivity]. }
    rewrite Htruthy, lower_app, Hs. cbn [andb].
    assert (Hp : String.prefix "bearer " ("bearer" ++ lower (" " ++ t)) = true).
    { change (lower (" " ++ t)) with (String " " (lower t)).
      destruct (lower t); reflexivity. }
    rewrite Hp. rewrite after_first_space_app; [reflexivity|].
    rewrite <- has_space_lower, Hs. reflexivity.
  - intros now_utc now rl Hq Hh.
    assert (Hres : resolve_token ws = Ok (query_token ws)).
    { unfold resolve_token. rewrite Hq.
      destruct (authorization ws) as [h|]; [|reflexivity].
      rewrite Hh. now rewrite andb_false_r. }
    split; [exact Hres|].
    unfold secure_websocket. rewrite Hres, Hq. reflexivity.
Qed.

End GuardFacts.

Section GuardExamples.

Import RateLimiter Token Registry Auth Examples.

Lemma authenticate_user_accepts_witness :
  authenticate_user example_config example_crypto
    "nphies_service" "nphies-dev-password" = Ok true
  /\ authenticate_user example_config example_crypto
       "nphies_service" "guess" = Ok false.
Proof.
  split.
  - apply (proj1 (authenticate_user_accepts example_config example_crypto
                    "nphies_service" "nphies-dev-password"));
      [now left|reflexivity|reflexivity].
  - apply (proj1 (authenticate_user_accepts example_config example_crypto
                    "nphies_service" "guess"));
      [now left|reflexivity|reflexivity].
Defined.

Lemma unknown_user_rejected_witness :
  login_for_access_token example_config example_crypto 1000 0
    "someone" (String (ascii_of_N 233) EmptyString) None (mkLimiter 60 60 ∅)
  = (Raise bad_credentials, mkLimiter 60 60 ∅).
Proof.
  apply unknown_user_rejected. discriminate.
Defined.

Lemma login_and_token_share_bucket_witness :
  let rl := mkLimiter 1 60 ∅ in
  let token := "h.p.change-me-in-production" in
  fst (login_for_access_token example_config example_crypto 1000 0
         "nphies_service" "nphies-dev-password" None rl) = Ok token
  /\ fst (secure_endpoint example_config example_crypto 2000 5 token None
            (snd (login_for_access_token example_config example_crypto 1000 0
                    "nphies_service" "nphies-dev-password" None rl)))
     = Raise rate_limit_exceeded.
Proof.
  intros rl token. split; [reflexivity|].
  destruct (login_and_token_share_bucket example_config example_crypto
              1000 0 2000 5 "nphies_service" "nphies-dev-password" None None
              rl (snd (login_for_access_token example_config example_crypto
                         1000 0 "nphies_service" "nphies-dev-password" None rl))
              token) as (r & Hhits & Hreq);
    [discriminate|reflexivity|reflexivity|reflexivity|repeat split
    |vm_compute; discriminate|].
  rewrite Hreq. vm_compute in Hhits. injection Hhits as <-. reflexivity.
Defined.

Lemma resolve_token_sources_witness :
  resolve_token (mkWebSocket 1 None (Some "BeArEr abc.def") None)
  = Ok (Some "abc.def")
  /\ resolve_token (mkWebSocket 1 (Some "q") (Some "Bearer abc.def") None)
     = Ok (Some "q")
  /\ resolve_token (mkWebSocket 1 None (Some "Basic abc") None) = Ok None.
Proof.
  split; [|split].
  - apply (proj1 (proj2 (resolve_token_sources example_config example_crypto
                           (mkWebSocket 1 None (Some "BeArEr abc.def") None)))
             "BeArEr" "abc.def"); reflexivity.
  - apply (proj1 (resolve_token_sources example_config example_crypto
                    (mkWebSocket 1 (Some "q") (Some "Bearer abc.def") None)));
      [reflexivity|discriminate].
  - apply (proj2 (proj2 (resolve_token_sources example_config example_crypto
                           (mkWebSocket 1 None (Some "Basic abc") None)))
             0 0 (mkLimiter 1 1 ∅)); reflexivity.
Defined.

End GuardExamples.

(** ** A handshake with a token the library cannot check *)

Section HandshakeFacts.

Import RateLimiter Token Registry Auth.

Variable cfg : config.
Variable lib : crypto.

Lemma resolve_token_query (ws : WebSocket) (t : string) :
  query_token ws = Some t -> t <> ""%string ->
  resolve_token ws = Ok (Some t).
Proof.
  intros Hq Ht. unfold resolve_token. rewrite Hq. cbn.
  now destruct (String.eqb_spec t "").
Qed.

Lemma resolve_token_bearer (ws : WebSocket) (scheme t : string) :
  truthy (query_token ws) = false ->
  authorization ws = Some (scheme ++ " " ++ t)%string ->
  lower scheme = "bearer"%string ->
  resolve_token ws = Ok (Some t).
Proof.
  intros Hq Hh Hs. unfold resolve_token. rewrite Hq, Hh.
  assert (Htruthy : truthy (Some (scheme ++ " " ++ t)%string) = true).
  { destruct scheme; [discriminate|reflexivity]. }
  rewrite Htruthy, lower_app, Hs. cbn [andb].
  assert (Hp : String.prefix "bearer " ("bearer" ++ lower (" " ++ t)) = true).
  { change (lower (" " ++ t)) with (String " " (lower t)).
    destruct (lower t); reflexivity. }
  rewrite Hp. rewrite after_first_space_app; [reflexivity|].
  rewrite <- has_space_lower, Hs. reflexivity.
Qed.

(** C6, where the code departs from it.  [secure_websocket] closes the
    socket with code 4401 when [decode_token] raises an HTTP error, and
    [decode_token] raises one for a [JWTError] only.  A handshake that
    brings, as query parameter or as bearer header, a token with a fitting
    signature whose payload holds [exp] as [null] makes the library let out
    a [TypeError]: the admission check and the handler are left with that
    exception and the socket is not closed with any code by the code.  The
    limiter is not consulted and the connection is not registered. *)
Theorem websocket_null_expiry (env : chat_env) (now_utc now : Z)
  (ws : WebSocket) (frames : list inbound) (s : server)
  (token si sg : string) (claims : gmap string claim_value) :
  query_token ws = Some token
  \/ (truthy (query_token ws) = false
      /\ authorization ws = Some ("Bearer " ++ token)%string) ->
  rsplit_dot token = Some (si, sg) ->
  sg = mac lib (SECRET_KEY cfg) si ->
  claims_of_segments lib si = Some claims ->
  validate_iat_nbf lib now_utc claims = passes ->
  claims !! "exp" = Some VNull ->
  secure_websocket cfg lib now_utc now ws (rate_limiter s)
  = ([], Raise (OtherError "TypeError"), rate_limiter s)
  /\ websocket_chat cfg lib env now_utc now ws frames s
     = ([], Raised (OtherError "TypeError"), s).
Proof.
  intros Hsource Hsplit Hsig Hclaims Hfirst Hexp.
  assert (Hne : token <> ""%string) by (intros ->; discriminate).
  assert (Hres : resolve_token ws = Ok (Some token)).
  { destruct Hsource as [Hq|[Hq Hh]].
    - now apply resolve_token_query.
    - now apply (resolve_token_bearer ws "Bearer" token). }
  assert (Hguard : secure_websocket cfg lib now_utc now ws (rate_limiter s)
                   = ([], Raise (OtherError "TypeError"), rate_limiter s)).
  { unfold secure_websocket. rewrite Hres. cbn [truthy].
    destruct (String.eqb_spec token ""); [contradiction|].
    cbn [negb from_option id].
    now rewrite (decode_token_int_none cfg lib now_utc token si sg claims). }
  split; [exact Hguard|].
  unfold websocket_chat. rewrite Hguard. now destruct s.
Qed.

End HandshakeFacts.

Section HandshakeExamples.

Import RateLimiter Token Registry Auth Examples.

Lemma websocket_null_expiry_witness :
  let s := mkServer (mkLimiter 60 60 ∅) (mkManager []) in
  let ws :=
    mkWebSocket 5 None (Some "Bearer h.n.change-me-in-production") None in
  secure_websocket example_config example_crypto 2000 0 ws (rate_limiter s)
  = ([], Raise (OtherError "TypeError"), rate_limiter s)
  /\ websocket_chat example_config example_crypto example_env 2000 0 ws
       [frame_text "hello"] s
     = ([], Raised (OtherError "TypeError"), s).
Proof.
  intros s ws.
  apply (websocket_null_expiry example_config example_crypto example_env
           2000 0 ws [frame_text "hello"] s "h.n.change-me-in-production"
           "h.n" "change-me-in-production" null_expiry_claims);
    try reflexivity.
  right. split; reflexivity.
Defined.

End HandshakeExamples.

(** ** Sessions on the sockets *)

Section SocketFacts.

Import RateLimiter Token Registry Auth Monitoring Sessions.

Lemma list_remove_first_snoc (x : nat) (l : list nat) :
  list_remove_first x (l ++ [x])
  = Some (match list_remove_first x l with
          | Some l' => l' ++ [x]
          | None => l
          end).
Proof.
  induction l as [|y l IH]; cbn.
  - now rewrite Nat.eqb_refl.
  - destruct (Nat.eqb y x); [reflexivity|].
    rewrite IH. cbn. now destruct (list_remove_first x l).
Qed.

Lemma disconnect_connect_new (m : ConnectionManager) (ws : nat) :
  ws ∉ active_connections m -> disconnect (connect m ws) ws = (Ok tt, m).
Proof.
  intros Hout. unfold disconnect, connect. cbn [active_connections].
  rewrite list_remove_first_snoc, list_remove_first_absent by assumption.
  now destruct m.
Qed.

(** X10. Registering a connection and unregistering it again always
    succeeds and leaves the registry with its earlier size; when the
    connection was not registered before, the registry is exactly as it
    was. *)
Theorem connect_then_disconnect (m : ConnectionManager) (ws : nat) :
  fst (disconnect (connect m ws) ws) = Ok tt
  /\ size (snd (disconnect (connect m ws) ws)) = size m
  /\ (ws ∉ active_connections m -> disconnect (connect m ws) ws = (Ok tt, m)).
Proof.
  unfold disconnect, connect. cbn [active_connections].
  rewrite list_remove_first_snoc.
  split; [reflexivity|]. split.
  - unfold size. cbn [snd active_connections].
    destruct (decide (ws ∈ active_connections m)) as [Hin|Hout].
    + destruct (list_remove_first_present ws _ Hin) as (l' & -> & Hlen & _).
      rewrite length_app. cbn. lia.
    + now rewrite list_remove_first_absent.
  - intros Hout. rewrite list_remove_first_absent by assumption.
    now destruct m.
Qed.

Lemma connect_then_disconnect_witness :
  disconnect (connect (mkManager [3; 9]%nat) 7%nat) 7%nat
  = (Ok tt, mkManager [3; 9]%nat).
Proof.
  apply (proj2 (proj2 (connect_then_disconnect (mkManager [3; 9]%nat) 7%nat))).
  apply (bool_decide_unpack _). vm_compute. exact I.
Defined.

Variable cfg : config.
Variable lib : crypto.

Lemma chat_loop_answered (env : chat_env) (subject : string)
  (datas msgs : list string) (rest : list inbound) :
  Forall2 (fun d m => message_of env d = Ok m) datas msgs ->
  chat_loop env subject (map frame_text datas ++ rest)
  = (answered env subject msgs ++ fst (chat_loop env subject rest),
     snd (chat_loop env subject rest)).
Proof.
  induction 1 as [|d m datas msgs Hd _ IH]; cbn [map app].
  - cbn. now destruct (chat_loop env subject rest).
  - cbn [chat_loop]. rewrite Hd, IH. reflexivity.
Qed.

(** X11. A chat session that ends by the close of the peer: after an
    admitted handshake on a connection not yet registered, with frames
    that can all be read, the handler accepts, answers every frame with one
    frame, returns when the peer closes, and leaves the registry as it
    found it. *)
Theorem websocket_chat_clean_session (env : chat_env) (now_utc now : Z)
  (ws : WebSocket) (s : server) (td : token_data) (rl' : SimpleRateLimiter)
  (datas msgs : list string) (later : list inbound)
  (Hadmitted : secure_websocket cfg lib now_utc now ws (rate_limiter s)
               = ([], Ok td, rl'))
  (Hnew : handle ws ∉ active_connections (manager s))
  (Hread : Forall2 (fun d m => message_of env d = Ok m) datas msgs) :
  websocket_chat cfg lib env now_utc now ws
    (map frame_text datas ++ peer_closed :: later) s
  = (ws_accept :: answered env (sub td) msgs ++ [ws_receive_text],
     Returned, mkServer rl' (manager s)).
Proof.
  unfold websocket_chat. rewrite Hadmitted.
  rewrite (chat_loop_answered env (sub td) datas msgs _ Hread).
  cbn [chat_loop fst snd app].
  rewrite disconnect_connect_new by assumption.
  reflexivity.
Qed.

(** X12. A frame that cannot be read ends the chat handler with the
    exception, and the connection stays in the registry: only the close of
    the peer unregisters it. *)
Theorem websocket_chat_unreadable_frame (env : chat_env) (now_utc now : Z)
  (ws : WebSocket) (s : server) (td : token_data) (rl' : SimpleRateLimiter)
  (datas msgs : list string) (bad : string) (e : exn) (later : list inbound)
  (Hadmitted : secure_websocket cfg lib now_utc now ws (rate_limiter s)
               = ([], Ok td, rl'))
  (Hread : Forall2 (fun d m => message_of env d = Ok m) datas msgs)
  (Hbad : message_of env bad = Raise e)
  (Hother : e <> WebSocketDisconnect) :
  websocket_chat cfg lib env now_utc now ws
    (map frame_text datas ++ frame_text bad :: later) s
  = (ws_accept :: answered env (sub td) msgs ++ [ws_receive_text],
     Raised e, mkServer rl' (connect (manager s) (handle ws)))
  /\ handle ws ∈ active_connections (connect (manager s) (handle ws)).
Proof.
  split.
  - unfold websocket_chat. rewrite Hadmitted.
    rewrite (chat_loop_answered env (sub td) datas msgs _ Hread).
    cbn [chat_loop fst snd app]. rewrite Hbad. cbn [fst snd app].
    destruct e; try reflexivity. congruence.
  - unfold connect. cbn. apply elem_of_app. right. left.
Qed.

Lemma monitoring_loop_sent (datas : list string) (rest : list (string * result unit)) :
  monitoring_loop (map (fun d => (d, Ok tt)) datas ++ rest)
  = (map ws_send_text datas ++ fst (monitoring_loop rest),
     snd (monitoring_loop rest)).
Proof.
  induction datas as [|d datas IH]; cbn [map app].
  - now destruct (monitoring_loop rest).
  - cbn [monitoring_loop]. rewrite IH. reflexivity.
Qed.

(** X13. The monitoring socket sends its frames one after the other until
    a send fails.  When the failure is the close of the peer the handler
    unregisters the connection and returns; any other failure leaves the
    handler with the connection still registered. *)
Theorem websocket_monitoring_ends (now_utc now : Z)
  (ws : WebSocket) (s : server) (td : token_data) (rl' : SimpleRateLimiter)
  (datas : list string) (last_frame : string) (e : exn)
  (later : list (string * result unit))
  (Hadmitted : secure_websocket cfg lib now_utc now ws (rate_limiter s)
               = ([], Ok td, rl'))
  (Hnew : handle ws ∉ active_connections (manager s)) :
  websocket_monitoring cfg lib now_utc now ws
    (map (fun d => (d, Ok tt)) datas ++ (last_frame, Raise e) :: later) s
  = (ws_accept :: map ws_send_text datas ++ [ws_send_text last_frame],
     (if decide (e = WebSocketDisconnect) then Returned else Raised e),
     mkServer rl' (if decide (e = WebSocketDisconnect) then manager s
                   else connect (manager s) (handle ws))).
Proof.
  unfold websocket_monitoring. rewrite Hadmitted.
  rewrite monitoring_loop_sent. cbn [monitoring_loop fst snd app].
  destruct (decide (e = WebSocketDisconnect)) as [->|Hne].
  - rewrite disconnect_connect_new by assumption.
    reflexivity.
  - destruct e; try reflexivity. congruence.
Qed.

End SocketFacts.

Section SocketExamples.

Import RateLimiter Token Registry Auth Monitoring Sessions Examples.

Lemma websocket_chat_clean_session_witness :
  let ws := mkWebSocket 4 (Some "h.p.change-me-in-production") None None in
  let s := mkServer (mkLimiter 60 60 ∅) (mkManager [2%nat]) in
  websocket_chat example_config example_crypto example_env 2000 0 ws
    [frame_text "hi"; frame_text "bye"; peer_closed] s
  = ([ws_accept; ws_receive_text; ws_send_text "hi"; ws_receive_text;
      ws_send_text "bye"; ws_receive_text], Returned,
     mkServer (mkLimiter 60 60 {["nphies_service" := [0]]})
              (mkManager [2%nat])).
Proof.
  intros ws s.
  apply (websocket_chat_clean_session example_config example_crypto
           example_env 2000 0 ws s (mkTokenData "nphies_service" (VList []))
           (mkLimiter 60 60 {["nphies_service" := [0]]})
           ["hi"; "bye"] ["hi"; "bye"] []).
  - reflexivity.
  - apply (bool_decide_unpack _). vm_compute. exact I.
  - repeat constructor.
Defined.

Lemma websocket_chat_unreadable_frame_witness :
  let env := mkChatEnv
    (fun d => if String.eqb d "{" then Raise (OtherError "JSONDecodeError")
              else Ok d)
    (fun m _ => m) in
  let ws := mkWebSocket 4 (Some "h.p.change-me-in-production") None None in
  let s := mkServer (mkLimiter 60 60 ∅) (mkManager []) in
  websocket_chat example_config example_crypto env 2000 0 ws
    [frame_text "hi"; frame_text "{"; peer_closed] s
  = ([ws_accept; ws_receive_text; ws_send_text "hi"; ws_receive_text],
     Raised (OtherError "JSONDecodeError"),
     mkServer (mkLimiter 60 60 {["nphies_service" := [0]]})
              (mkManager [4%nat])).
Proof.
  intros env ws s.
  apply (proj1 (websocket_chat_unreadable_frame example_config example_crypto
                  env 2000 0 ws s (mkTokenData "nphies_service" (VList []))
                  (mkLimiter 60 60 {["nphies_service" := [0]]})
                  ["hi"] ["hi"] "{" (OtherError "JSONDecodeError")
                  [peer_closed] eq_refl
                  ltac:(repeat constructor) eq_refl ltac:(discriminate))).
Defined.

Lemma websocket_monitoring_ends_witness :
  let ws := mkWebSocket 4 (Some "h.p.change-me-in-production") None None in
  let s := mkServer (mkLimiter 60 60 ∅) (mkManager []) in
  websocket_monitoring example_config example_crypto 2000 0 ws
    [("m1", Ok tt); ("m2", Raise WebSocketDisconnect)] s
  = ([ws_accept; ws_send_text "m1"; ws_send_text "m2"], Returned,
     mkServer (mkLimiter 60 60 {["nphies_service" := [0]]}) (mkManager [])).
Proof.
  intros ws s.
  apply (websocket_monitoring_ends example_config example_crypto 2000 0 ws s
           (mkTokenData "nphies_service" (VList []))
           (mkLimiter 60 60 {["nphies_service" := [0]]})
           ["m1"] "m2" WebSocketDisconnect []).
  - reflexivity.
  - apply not_elem_of_nil.
Defined.

End SocketExamples.

(** ** Words of a response text *)

Section WordFacts.

Import Stream.

Lemma split_from_word (w : str) : forall word rest,
  Forall (fun c => isspace c = false) w ->
  split_from word (w ++ rest) = split_from (rev w ++ word) rest.
Proof.
  induction w as [|c w IH]; intros word rest Hw; [reflexivity|].
  inversion Hw as [|? ? Hc Hw']; subst. cbn [app split_from]. rewrite Hc.
  rewrite IH by assumption. cbn [rev]. now rewrite <- app_assoc.
Qed.

Lemma split_from_join (ws : list str) :
  Forall is_word ws -> split (join [SPACE] ws) = ws.
Proof.
  unfold split. induction 1 as [|w ws [Hne Hw] Hws IH]; [reflexivity|].
  destruct ws as [|w' ws].
  - cbn [join]. rewrite <- (app_nil_r w) at 1.
    rewrite split_from_word by assumption. rewrite app_nil_r.
    cbn [split_from]. destruct (rev w) eqn:Hr.
    + apply (f_equal (@rev N)) in Hr. rewrite rev_involutive in Hr.
      cbn in Hr. congruence.
    + now rewrite <- Hr, rev_involutive.
  - change (join [SPACE] (w :: w' :: ws))
      with (w ++ [SPACE] ++ join [SPACE] (w' :: ws)).
    rewrite split_from_word by assumption. rewrite app_nil_r.
    cbn [app split_from]. rewrite isspace_SPACE.
    destruct (rev w) eqn:Hr.
    + apply (f_equal (@rev N)) in Hr. rewrite rev_involutive in Hr.
      cbn in Hr. congruence.
    + rewrite <- Hr, rev_involutive. now rewrite IH.
Qed.

(** X14. Joining words with single spaces and splitting again gives the
    words back; so the text of the last [partial_response] of a stream has
    the same words as the response, and splitting is not changed by
    normalising the white space. *)
Theorem split_join_round_trip (ws : list str) (text : str) :
  (Forall is_word ws -> split (join [SPACE] ws) = ws)
  /\ split (join [SPACE] (split text)) = split text.
Proof.
  split; [apply split_from_join|]. apply split_from_join, split_words.
Qed.

Lemma split_join_round_trip_witness :
  split (join [SPACE] [[104; 105]; [33]]%N) = [[104; 105]; [33]]%N.
Proof.
  apply (proj1 (split_join_round_trip [[104; 105]; [33]]%N [])).
  repeat constructor; discriminate.
Defined.

Lemma concat_split_from (s : str) : forall word,
  concat (split_from word s)
  = rev word ++ filter (fun c => isspace c = false) s.
Proof.
  induction s as [|c rest IH]; intros word.
  - cbn. destruct word; cbn; now rewrite ?app_nil_r.
  - cbn [split_from]. destruct (isspace c) eqn:Hc.
    + rewrite filter_cons_False by congruence.
      destruct word as [|d word].
      * rewrite IH. reflexivity.
      * cbn [concat]. rewrite IH. reflexivity.
    + rewrite filter_cons_True by assumption. rewrite IH. cbn [rev].
      now rewrite <- app_assoc.
Qed.

(** X15. Splitting loses nothing but white space: the words, put end to
    end, are the text without its white-space characters. *)
Theorem split_keeps_characters (text : str) :
  concat (split text) = filter (fun c => isspace c = false) text.
Proof. unfold split. now rewrite concat_split_from. Qed.

Lemma split_from_nil (s : str) : forall word,
  split_from word s = [] <-> word = [] /\ Forall (fun c => isspace c = true) s.
Proof.
  induction s as [|c rest IH]; intros word.
  - cbn. destruct word; split; try discriminate; intuition (auto; discriminate).
  - cbn [split_from]. destruct (isspace c) eqn:Hc.
    + destruct word as [|d word].
      * rewrite IH. split; intros [H1 H2]; split; auto.
        now inversion H2.
      * split; [discriminate|]. intros [H _]. discriminate.
    + rewrite IH. split.
      * intros [H _]. discriminate.
      * intros [_ H]. inversion H; congruence.
Qed.

(** X16. A response has no word exactly when all its characters are white
    space; the stream of such a response holds no [partial_response]: it
    is the opening, the [final_response] and the [session_end]. *)
Theorem wordless_response (ai_response : str) :
  (split ai_response = [] <-> Forall (fun c => isspace c = true) ai_response)
  /\ (Forall (fun c => isspace c = true) ai_response ->
      forall respond fresh_id msg,
        respond (message msg) (context msg) = Ok ai_response ->
        generate_response respond fresh_id msg
        = ([session_start (session_of fresh_id msg) (language msg);
            thinking "Analyzing your healthcare query...";
            final_response ai_response (95 # 100) (language msg) "healthcare";
            session_end (session_of fresh_id msg)], Ok tt)).
Proof.
  assert (Hiff : split ai_response = []
                 <-> Forall (fun c => isspace c = true) ai_response).
  { unfold split. rewrite split_from_nil. tauto. }
  split; [exact Hiff|].
  intros Hws respond fresh_id msg Hresp. unfold generate_response.
  rewrite Hresp. unfold partial_events.
  rewrite (proj2 Hiff Hws). reflexivity.
Qed.

Lemma wordless_response_witness :
  let respond := fun (_ : str) (_ : option str) => Ok [32; 10]%N in
  let msg := mkChatMessage [63]%N "ar" None None in
  generate_response respond "uuid" msg
  = ([session_start "uuid" "ar";
      thinking "Analyzing your healthcare query...";
      final_response [32; 10]%N (95 # 100) "ar" "healthcare";
      session_end "uuid"], Ok tt).
Proof.
  intros respond msg.
  apply (proj2 (wordless_response [32; 10]%N)); [|reflexivity].
  repeat constructor.
Defined.

End WordFacts.

(** ** Response generator *)

Section ResponderFacts.

Import Stream Responder ResponderLoop.

Lemma keywords_six (c : category) : length (keywords c) = 6%nat.
Proof. destruct c; reflexivity. Qed.

Lemma confidence_six (m : str) (c : category) :
  confidence m c = (Z.of_nat (matches m c) # 6)%Q.
Proof. unfold confidence. now rewrite keywords_six. Qed.

Lemma confidence_gt (m : str) (c b : category) :
  negb (Qle_bool (confidence m c) (confidence m b)) = true
  <-> (matches m b < matches m c)%nat.
Proof.
  rewrite !confidence_six. unfold Qle_bool. cbn [Qnum Qden].
  rewrite negb_true_iff, Z.leb_gt. lia.
Qed.

Lemma confidence_gt_zero (m : str) (c : category) :
  negb (Qle_bool (confidence m c) 0) = true <-> (1 <= matches m c)%nat.
Proof.
  rewrite confidence_six. unfold Qle_bool. cbn [Qnum Qden].
  rewrite negb_true_iff, Z.leb_gt. lia.
Qed.

Lemma best_match_loop_finds (m : str) (cats : list category) :
  forall done best highest,
  best_so_far m done best highest ->
  best_so_far m (done ++ cats)
    (fst (best_match_loop m cats best highest))
    (snd (best_match_loop m cats best highest)).
Proof.
  induction cats as [|c cats IH]; intros done best highest Hok.
  - cbn. now rewrite app_nil_r.
  - cbn [best_match_loop].
    replace (done ++ c :: cats) with ((done ++ [c]) ++ cats)
      by now rewrite <- app_assoc.
    destruct (negb (Qle_bool (confidence m c) highest)) eqn:Hcmp; apply IH.
    + (* the category becomes the best match *)
      destruct best as [b|]; cbn in Hok |- *.
      * destruct Hok as (-> & Hb & pre & post & -> & Hpre & Hpost).
        apply confidence_gt in Hcmp.
        split; [reflexivity|]. split; [lia|].
        exists (pre ++ b :: post), []. split; [reflexivity|].
        split; [|constructor].
        apply Forall_app. split.
        -- eapply Forall_impl; [exact Hpre|]. cbn. intros; lia.
        -- constructor; [lia|].
           eapply Forall_impl; [exact Hpost|]. cbn. intros; lia.
      * destruct Hok as (-> & Hzero). apply confidence_gt_zero in Hcmp.
        split; [reflexivity|]. split; [lia|].
        exists done, []. split; [reflexivity|]. split; [|constructor].
        eapply Forall_impl; [exact Hzero|]. cbn. intros; lia.
    + (* the best match stays *)
      destruct best as [b|]; cbn in Hok |- *.
      * destruct Hok as (-> & Hb & pre & post & -> & Hpre & Hpost).
        assert (Hle : (matches m c <= matches m b)%nat).
        { destruct (Nat.le_gt_cases (matches m c) (matches m b)) as [|Hgt];
            [assumption|].
          apply confidence_gt in Hgt. congruence. }
        split; [reflexivity|]. split; [assumption|].
        exists pre, (post ++ [c]). split; [now rewrite <- app_assoc|].
        split; [assumption|]. apply Forall_app. split; [assumption|].
        now repeat constructor.
      * destruct Hok as (-> & Hzero).
        assert (Hz : matches m c = O).
        { destruct (matches m c) eqn:Hm; [reflexivity|].
          assert (Hpos : (1 <= matches m c)%nat) by lia.
          apply confidence_gt_zero in Hpos. congruence. }
        split; [reflexivity|]. apply Forall_app. split; [assumption|].
        now repeat constructor.
Qed.

(** X17. The response generator answers with the general text exactly when
    no keyword of any category occurs in the lowered message.  Otherwise it
    answers for a category with at least one keyword in the message, with
    strictly more of them than every category listed before it and at least
    as many as every category listed after it (on a tie the category listed
    first wins); the text is the one drawn, and the percentage shown is the
    share of the six keywords, rounded down.  The threshold of 0.1 never
    turns a match down. *)
Theorem best_category_wins (lower : str -> str) (choice : nat)
  (message : str) :
  let m := lower message in
  match get_healthcare_response lower choice message with
  | fallback => forall c, matches m c = O
  | matched c text percent =>
      text = choice
      /\ (1 <= matches m c)%nat
      /\ percent = (100 * Z.of_nat (matches m c)) / 6
      /\ exists pre post,
           patterns = pre ++ c :: post
           /\ Forall (fun c' => (matches m c' < matches m c)%nat) pre
           /\ Forall (fun c' => (matches m c' <= matches m c)%nat) post
  end.
Proof.
  intros m. unfold get_healthcare_response. fold m.
  pose proof (best_match_loop_finds m patterns [] None 0
                (conj eq_refl (Forall_nil_2 _))) as Hok.
  cbn [app] in Hok.
  destruct (best_match_loop m patterns None 0) as [best highest].
  cbn [fst snd] in Hok. destruct best as [b|]; cbn in Hok.
  - destruct Hok as (-> & Hb & Hsplit).
    assert (Hthreshold : negb (Qle_bool (confidence m b) (1 # 10)) = true).
    { rewrite confidence_six. unfold Qle_bool. cbn [Qnum Qden].
      rewrite negb_true_iff, Z.leb_gt. lia. }
    rewrite Hthreshold. split; [reflexivity|]. split; [assumption|].
    split; [|exact Hsplit].
    rewrite confidence_six. unfold Qfloor, Qmult. cbn [Qnum Qden].
    f_equal. lia.
  - destruct Hok as [_ Hzero]. intros c.
    rewrite Forall_forall in Hzero. apply Hzero.
    destruct c; unfold patterns; set_solver.
Qed.

End ResponderFacts.

(** ** Request counters *)

Section MetricsFacts.

Import Metrics.

Context {A : Type}.

Lemma sum_from (xs : list Q) (a b : Q) :
  (a == b)%Q -> (fold_left Qplus xs a == fold_left Qplus xs b)%Q.
Proof.
  revert a b. induction xs as [|x xs IH]; intros a b Hab; [assumption|].
  cbn. apply IH. now rewrite Hab.
Qed.

(** A successful request served alone moves the average to the mean of one
    more time. *)
Lemma serve_success (m : performance_metrics) (t : Q)
  (handler : performance_metrics -> result A) (total : Q) :
  (forall m', is_ok (handler m') = true) ->
  0 <= total_requests m ->
  successful_requests m = total_requests m ->
  failed_requests m = 0 ->
  (average_response_time m * inject_Z (total_requests m) == total)%Q ->
  let m' := serve m (t, handler) in
  total_requests m' = total_requests m + 1
  /\ successful_requests m' = total_requests m'
  /\ failed_requests m' = 0
  /\ (average_response_time m' * inject_Z (total_requests m')
      == total + t)%Q.
Proof.
  intros Hok Hpos Hsucc Hfail Havg. unfold serve, performance_middleware.
  cbn [fst snd].
  match goal with |- context [handler ?x] =>
    specialize (Hok x); destruct (handler x) as [r|e]; [|discriminate]
  end.
  cbn [fst total_requests successful_requests failed_requests
       average_response_time].
  split; [reflexivity|]. split; [lia|]. split; [assumption|].
  replace (total_requests m + 1 - 1) with (total_requests m) by lia.
  rewrite Havg. field.
  intros H. unfold Qeq in H. cbn in H. lia.
Qed.

Lemma serve_all_from (requests : list (Q * (performance_metrics -> result A))) :
  forall (m : performance_metrics) (total : Q),
  Forall (fun request => forall m', is_ok (snd request m') = true) requests ->
  0 <= total_requests m ->
  successful_requests m = total_requests m ->
  failed_requests m = 0 ->
  (average_response_time m * inject_Z (total_requests m) == total)%Q ->
  let m' := fold_left serve requests m in
  total_requests m' = total_requests m + Z.of_nat (length requests)
  /\ successful_requests m' = total_requests m'
  /\ failed_requests m' = 0
  /\ (average_response_time m' * inject_Z (total_requests m')
      == fold_left Qplus (map fst requests) total)%Q.
Proof.
  induction requests as [|[t handler] requests IH];
    intros m total Hall Hpos Hsucc Hfail Havg.
  - cbn. repeat split; try assumption; lia.
  - inversion Hall as [|? ? Hok Hrest]; subst. cbn [snd] in Hok.
    destruct (serve_success m t handler total Hok Hpos Hsucc Hfail Havg)
      as (Ht & Hs & Hf & Ha).
    cbn [fold_left map fst length].
    destruct (IH (serve m (t, handler)) (total + t)%Q Hrest) as (Ht' & Hs' & Hf' & Ha');
      try assumption; [lia|].
    split; [lia|]. split; [assumption|]. split; [assumption|]. exact Ha'.
Qed.


(** X19. When requests are served one after the other and none fails, the
    three counters agree with the number of requests and the running
    average is the mean of the process times (in exact arithmetic). *)
Theorem average_is_mean
  (requests : list (Q * (performance_metrics -> result A))) :
  Forall (fun request => forall m', is_ok (snd request m') = true) requests ->
  requests <> [] ->
  let m := serve_all requests in
  total_requests m = Z.of_nat (length requests)
  /\ successful_requests m = Z.of_nat (length requests)
  /\ failed_requests m = 0
  /\ (average_response_time m
      == sum (map fst requests) / inject_Z (Z.of_nat (length requests)))%Q.
Proof.
  intros Hall Hne.
  assert (Hstart : (average_response_time initial_metrics
                    * inject_Z (total_requests initial_metrics) == 0)%Q)
    by reflexivity.
  destruct (serve_all_from requests initial_metrics 0%Q Hall
              (Z.le_refl 0) eq_refl eq_refl Hstart) as (Ht & Hs & Hf & Ha).
  cbn [initial_metrics total_requests] in Ht. cbn zeta.
  fold (serve_all requests) in Ht, Hs, Hf, Ha. fold (sum (map fst requests)) in Ha.
  rewrite Z.add_0_l in Ht.
  split; [assumption|]. split; [lia|]. split; [assumption|].
  rewrite <- Ht, <- Ha. field.
  intros H. unfold Qeq in H. cbn in H.
  destruct requests; [congruence|]. cbn [length] in Ht. lia.
Qed.

End MetricsFacts.

Section MetricsExamples.

Import Metrics.


Lemma average_is_mean_witness :
  let ok := fun _ : performance_metrics => Ok tt in
  let m := serve_all [(1 # 10, ok); (3 # 10, ok); (2 # 10, ok)]%Q in
  total_requests m = 3
  /\ successful_requests m = 3
  /\ failed_requests m = 0
  /\ (average_response_time m == ((0 + (1 # 10) + (3 # 10) + (2 # 10)) / 3))%Q.
Proof.
  intros ok.
  apply (average_is_mean [(1 # 10, ok); (3 # 10, ok); (2 # 10, ok)]%Q).
  - repeat constructor.
  - discriminate.
Defined.

End MetricsExamples.

Section HealthFacts.

Import Metrics.

(** X20. The health endpoint is itself a request that has begun and not
    ended: served after requests that all succeeded or failed, it reports
    one request more than were served before it and a success rate that is
    (before rounding) strictly below 100, even if no request ever failed. *)
Theorem health_check_counts_itself (process_time : Q)
  (m : performance_metrics) :
  0 <= successful_requests m <= total_requests m ->
  exists h m',
    health_request process_time m = (m', Ok h)
    /\ reported_total h = total_requests m + 1
    /\ (success_rate h < 100)%Q
    /\ successful_requests m' = successful_requests m + 1.
Proof.
  intros Hm. unfold health_request, performance_middleware.
  eexists _, _. split; [reflexivity|].
  cbn [health_check reported_total success_rate total_requests
       successful_requests].
  split; [reflexivity|]. split; [|reflexivity].
  rewrite Z.max_l by lia.
  destruct (total_requests m + 1) as [|p|p] eqn:Hp; try lia.
  unfold Qlt, Qdiv, Qmult, Qinv, inject_Z. cbn [Qnum Qden].
  cbn. nia.
Qed.

Lemma health_check_counts_itself_witness :
  exists h m',
    health_request (1 # 100) (mkMetrics 3 3 0 (2 # 10)) = (m', Ok h)
    /\ reported_total h = 4
    /\ (success_rate h < 100)%Q
    /\ successful_requests m' = 4.
Proof.
  apply (health_check_counts_itself (1 # 100) (mkMetrics 3 3 0 (2 # 10))).
  cbn. lia.
Defined.

End HealthFacts.

(** ** Medical text analysis *)

Section MedicalTextFacts.

Import RateLimiter Token Auth MedicalText.

Variable cfg : config.
Variable lib : crypto.

Lemma analyze_handler_raises (round1 : Q -> Q) (client : comprehend)
  (text : string) (e : exn) :
  analyze_handler round1 client text = Raise e -> e = analysis_failed.
Proof.
  unfold analyze_handler.
  destruct (analyze_body round1 client text); congruence.
Qed.

Lemma analyze_handler_ok (round1 : Q -> Q) (client : comprehend)
  (text : string) (r : analysis_results) :
  analyze_handler round1 client text = Ok r ->
  text <> ""%string
  /\ exists detect_entities_v2 entities_response,
       client = Some detect_entities_v2
       /\ detect_entities_v2 text = Ok entities_response
       /\ analyze_body round1 client text = Ok r.
Proof.
  unfold analyze_handler.
  destruct (analyze_body round1 client text) as [r'|e] eqn:Hbody;
    [|discriminate].
  intros [= ->]. revert Hbody. unfold analyze_body.
  destruct client as [detect|]; [|discriminate].
  destruct (String.eqb_spec text "") as [|Hne]; [discriminate|].
  destruct (detect text) as [response|e] eqn:Hd; [|discriminate].
  intros Hbody. split; [assumption|]. exists detect, response.
  repeat split. unfold analyze_body.
  destruct (String.eqb_spec text ""); [contradiction|]. now rewrite Hd.
Qed.

(** What the loop leaves in its three lists. *)
Lemma entity_loop_filter (round1 : Q -> Q) (entities : list entity) :
  forall mc meds procs,
  entity_loop round1 entities mc meds procs
  = (mc ++ map (to_entity_data round1)
             (filter (fun e => Category e = "MEDICAL_CONDITION"%string)
                entities),
     meds ++ map (to_entity_data round1)
               (filter (fun e => Category e = "MEDICATION"%string) entities),
     procs ++ map (to_entity_data round1)
                (filter (fun e => Category e = "PROCEDURE"%string) entities)).
Proof.
  induction entities as [|e rest IH]; intros mc meds procs.
  - cbn. now rewrite !app_nil_r.
  - cbn [entity_loop]. rewrite !filter_cons.
    destruct (String.eqb_spec (Category e) "MEDICAL_CONDITION") as [Hc|Hc].
    { rewrite IH, Hc. cbn. now rewrite <- app_assoc. }
    destruct (String.eqb_spec (Category e) "MEDICATION") as [Hm|Hm].
    { rewrite IH, Hm. cbn. now rewrite <- app_assoc. }
    destruct (String.eqb_spec (Category e) "PROCEDURE") as [Hp|Hp].
    { rewrite IH, Hp. cbn. now rewrite <- app_assoc. }
    rewrite IH.
    rewrite !decide_False by assumption. reflexivity.
Qed.

Lemma three_categories (entities : list entity) :
  (length (filter (fun e => Category e = "MEDICAL_CONDITION"%string) entities)
   + length (filter (fun e => Category e = "MEDICATION"%string) entities)
   + length (filter (fun e => Category e = "PROCEDURE"%string) entities)
   <= length entities)%nat.
Proof.
  induction entities as [|e rest IH]; [cbn; lia|].
  rewrite !filter_cons.
  repeat case_decide; cbn [length]; try lia; congruence.
Qed.

(** X21. Once the guard and the handler of the endpoint for medical text
    run (for a request whose body the framework has accepted), the endpoint
    never raises the error 400.  The error 400 it raises for an empty text
    or a missing client is raised inside its own [try] block and caught
    there with every other exception, so that it is raised as the error
    500.  The other errors are those of the guard: the 401, the 429, and an
    exception of the token library that is not a [JWTError].  An analysis
    is returned only for a text that is not empty, by a client that is
    there and answered. *)
Theorem analyze_medical_text_statuses (now_utc now : Z) (token : string)
  (client_host : option string) (rl : SimpleRateLimiter) (round1 : Q -> Q)
  (client : comprehend) (text : string) :
  match analyze_medical_text cfg lib now_utc now token client_host rl round1
          client text with
  | (Raise e, _) =>
      (e = credentials_exception \/ e = rate_limit_exceeded
       \/ e = analysis_failed
       \/ exists w, e = OtherError w
                    /\ jwt_decode lib now_utc token (SECRET_KEY cfg)
                       = Raise (OtherError w))
      /\ status_of e <> Some 400
  | (Ok r, _) =>
      text <> ""%string
      /\ exists detect_entities_v2 entities_response,
           client = Some detect_entities_v2
           /\ detect_entities_v2 text = Ok entities_response
  end.
Proof.
  unfold analyze_medical_text, secure_endpoint.
  destruct (decode_token cfg lib now_utc token) as [td|e] eqn:Hd.
  - destruct (hit rl (rate_key (sub td) client_host) now) as [[[]|e] rl']
      eqn:Hh.
    + destruct (analyze_handler round1 client text) as [r|e] eqn:Ha.
      * apply analyze_handler_ok in Ha as (Hne & detect & response & Hc & Hr & _).
        eauto.
      * apply analyze_handler_raises in Ha as ->. split; [auto|discriminate].
    + pose proof (hit_raises _ _ _ _ _ Hh) as ->. split; [auto|discriminate].
  - destruct (decode_token_raises cfg lib _ _ _ Hd) as [->|(w & -> & Hj)].
    + split; [auto|discriminate].
    + split; [eauto 6|discriminate].
Qed.

(** X22. An analysis that is returned splits the entities of the client by
    category: each of the three lists holds the entities of its category
    in the order of the answer, every other category is left out of the
    lists but counted in the total, and an answer without entities gives
    empty lists. *)
Theorem analyze_medical_text_partition (round1 : Q -> Q)
  (detect_entities_v2 : string -> result (option (list entity)))
  (text : string) (entities_response : option (list entity)) :
  text <> ""%string ->
  detect_entities_v2 text = Ok entities_response ->
  let entities := default [] entities_response in
  let of_category := fun c : string =>
    map (to_entity_data round1) (filter (fun e => Category e = c) entities) in
  exists r,
    analyze_handler round1 (Some detect_entities_v2) text = Ok r
    /\ medical_conditions r = of_category "MEDICAL_CONDITION"%string
    /\ medications r = of_category "MEDICATION"%string
    /\ procedures r = of_category "PROCEDURE"%string
    /\ total_entities r = length entities
    /\ (length (medical_conditions r) + length (medications r)
        + length (procedures r) <= total_entities r)%nat.
Proof.
  intros Hne Hd entities of_category.
  unfold analyze_handler, analyze_body.
  destruct (String.eqb_spec text ""); [contradiction|].
  rewrite Hd. fold entities. rewrite entity_loop_filter. cbn [app].
  eexists. split; [reflexivity|].
  cbn [medical_conditions medications procedures total_entities].
  repeat (split; [reflexivity|]).
  rewrite !length_map. apply three_categories.
Qed.

End MedicalTextFacts.

Section MedicalTextExamples.

Import MedicalText.

Lemma analyze_medical_text_partition_witness :
  let round1 := fun q : Q => q in
  let entities :=
    [mkEntity "aspirin" "MEDICATION" "GENERIC_NAME" (9 # 10);
     mkEntity "knee" "ANATOMY" "SYSTEM_ORGAN_SITE" (8 # 10);
     mkEntity "fever" "MEDICAL_CONDITION" "DX_NAME" (7 # 10);
     mkEntity "ibuprofen" "MEDICATION" "GENERIC_NAME" (6 # 10)] in
  let detect := fun _ : string => Ok (Some entities) in
  exists r,
    analyze_handler round1 (Some detect) "note" = Ok r
    /\ medical_conditions r
       = [mkEntityData "fever" "MEDICAL_CONDITION" "DX_NAME" ((7 # 10) * 100)]
    /\ medications r
       = [mkEntityData "aspirin" "MEDICATION" "GENERIC_NAME" ((9 # 10) * 100);
          mkEntityData "ibuprofen" "MEDICATION" "GENERIC_NAME"
            ((6 # 10) * 100)]
    /\ procedures r = []
    /\ total_entities r = 4%nat
    /\ (length (medical_conditions r) + length (medications r)
        + length (procedures r) <= total_entities r)%nat.
Proof.
  intros round1 entities detect.
  apply (analyze_medical_text_partition round1 detect "note" (Some entities));
    [discriminate|reflexivity].
Defined.

End MedicalTextExamples.

(** ** Breadcrumbs *)

Section NavigationFacts.

Import Stream Responder Navigation.

Lemma split_on_pieces (sep : N) (s : str) :
  exists piece pieces, split_on sep s = piece :: pieces.
Proof.
  destruct s as [|c rest]; cbn; [eauto|].
  destruct (c =? sep)%N; [eauto|].
  destruct (split_on sep rest); eauto.
Qed.

(** Joining the pieces with the separator gives the string back. *)
Lemma join_split_on (sep : N) (s : str) :
  join [sep] (split_on sep s) = s.
Proof.
  induction s as [|c rest IH]; [reflexivity|].
  cbn [split_on].
  destruct (split_on_pieces sep rest) as (piece & pieces & Hs).
  rewrite Hs in IH |- *.
  destruct (N.eqb_spec c sep) as [->|Hc].
  - change (join [sep] ([] :: piece :: pieces))
      with (sep :: join [sep] (piece :: pieces)).
    now rewrite IH.
  - destruct pieces as [|p ps]; [cbn in *; congruence|].
    change (join [sep] ((c :: piece) :: p :: ps))
      with (c :: join [sep] (piece :: p :: ps)).
    now rewrite IH.
Qed.

Lemma length_split_on (sep : N) (s : str) :
  length (split_on sep s) = S (occurrences sep s).
Proof.
  unfold occurrences. induction s as [|c rest IH]; [reflexivity|].
  cbn [split_on]. rewrite filter_cons.
  destruct (split_on_pieces sep rest) as (piece & pieces & Hs).
  rewrite Hs in IH |- *.
  destruct (N.eqb_spec c sep) as [->|Hc].
  - rewrite decide_True by reflexivity. cbn [length] in *. now rewrite IH.
  - rewrite decide_False by assumption. exact IH.
Qed.

Lemma breadcrumbs_loop_length (title : str -> str) (parts : list str) :
  forall current breadcrumbs,
  length (breadcrumbs_loop title parts current breadcrumbs)
  = (length breadcrumbs + length parts)%nat.
Proof.
  induction parts as [|part rest IH]; intros current breadcrumbs; cbn.
  - lia.
  - rewrite IH, length_app. cbn. lia.
Qed.

(** The path of the last breadcrumb holds every part after a slash. *)
Lemma breadcrumbs_loop_last (title : str -> str) (parts : list str) :
  forall current breadcrumbs,
  parts <> [] ->
  crumb_path <$> last (breadcrumbs_loop title parts current breadcrumbs)
  = Some (current ++ concat (map (cons SLASH) parts)).
Proof.
  induction parts as [|part rest IH]; intros current breadcrumbs Hne;
    [contradiction|].
  cbn [breadcrumbs_loop map concat].
  destruct rest as [|part' rest'].
  - cbn [breadcrumbs_loop map concat]. rewrite last_snoc. cbn.
    now rewrite app_nil_r.
  - rewrite IH by discriminate. now rewrite <- app_assoc.
Qed.

Lemma concat_slashes (parts : list str) :
  parts <> [] ->
  concat (map (cons SLASH) parts) = SLASH :: join [SLASH] parts.
Proof.
  induction parts as [|part rest IH]; intros Hne; [contradiction|].
  cbn [map concat join]. destruct rest as [|part' rest'].
  - cbn. now rewrite app_nil_r.
  - rewrite IH by discriminate. reflexivity.
Qed.

(** X23. For a path that is neither empty nor the single slash, the trail
    has the entry of the home page and one entry for every piece of the
    path between slashes, once the slashes at its two ends are taken off
    (empty pieces between doubled slashes included); the last entry leads
    to the path without the slashes at its ends, after one slash. *)
Theorem breadcrumbs_follow_path (title : str -> str) (path : str) :
  path <> [] ->
  path <> [SLASH] ->
  let breadcrumbs := fst (get_breadcrumbs title path) in
  let stripped := strip_char SLASH path in
  length breadcrumbs = (2 + occurrences SLASH stripped)%nat
  /\ head breadcrumbs = Some (mkBreadcrumb (codes "Home") [SLASH])
  /\ crumb_path <$> last breadcrumbs = Some (SLASH :: stripped).
Proof.
  intros Hne Hroot. unfold get_breadcrumbs. cbn [fst].
  rewrite !bool_decide_eq_true_2 by assumption. cbn [andb].
  pose proof (length_split_on SLASH (strip_char SLASH path)) as Hlen.
  pose proof (join_split_on SLASH (strip_char SLASH path)) as Hjoin.
  destruct (split_on_pieces SLASH (strip_char SLASH path))
    as (piece & pieces & Hs).
  split; [|split].
  - rewrite breadcrumbs_loop_length, Hlen. reflexivity.
  - rewrite Hs. cbn [breadcrumbs_loop].
    clear. generalize ([] ++ SLASH :: piece).
    intros current.
    assert (Hhead : forall parts cur b bs,
              head (breadcrumbs_loop title parts cur (b :: bs)) = Some b).
    { induction parts as [|p ps IH]; intros cur b bs; [reflexivity|].
      cbn [breadcrumbs_loop app]. apply IH. }
    apply Hhead.
  - rewrite breadcrumbs_loop_last by (rewrite Hs; discriminate).
    rewrite concat_slashes by (rewrite Hs; discriminate).
    now rewrite Hjoin.
Qed.

Lemma breadcrumbs_follow_path_witness :
  let path := codes "/claims//new-claim/" in
  let breadcrumbs := fst (get_breadcrumbs (fun s => s) path) in
  length breadcrumbs = 4%nat
  /\ head breadcrumbs = Some (mkBreadcrumb (codes "Home") [SLASH])
  /\ crumb_path <$> last breadcrumbs = Some (codes "/claims//new-claim").
Proof.
  intros path.
  apply (breadcrumbs_follow_path (fun s => s) path); discriminate.
Defined.

End NavigationFacts.

(** ** Role-based access of the agent server *)

Section AgentServerFacts.

Import AgentServer.

(** X24. The chat endpoint of the agent server asks for the permission
    [chat], which the table grants to no role: whatever the role of the
    request, the endpoint raises the error 403 and never streams. *)
Theorem ag_ui_chat_always_forbidden {A : Type} (user_role : UserRole)
  (event_stream : A) :
  verify_user_permissions user_role "chat" = false
  /\ handle_ag_ui_request user_role event_stream
     = Raise insufficient_permissions.
Proof. now destruct user_role. Qed.

End AgentServerFacts.
